(** * The query fan-out proxy of pkg/store/proxy.go

    A shallow embedding of [ProxyStore] (backend filters, [Series], [Info],
    [LabelValues]) together with the properties its specification states.

    Conventions of the embedding:
    - an [int64] is a [Z]; only comparisons are performed on time stamps, so
      no wrap-around can occur;
    - [labels.Labels] is the sequence of its (name, value) pairs;
    - a Go [map[string]map[string]int] is a [gmap string (gmap string nat)],
      a missing key reading as the zero value (the empty map, 0);
    - a Go [error] is an [option error], [None] being [nil];
    - logging, tracing, the tenant header and the debug "reason" strings do
      not influence any result and are left out;
    - everything [proxy.go] calls but does not define (the regular-expression
      engine, the matcher reduction, the TSDB selector, the response sets and
      their merge, the label hash, the backends' RPCs, the outbound stream)
      is a field of the class [Collaborators]. *)

From Stdlib Require Import ZArith String List Bool Lia Permutation.
From stdpp Require Import base gmap strings list fin_maps.

Local Open Scope string_scope.
Local Open Scope list_scope.

(** ** Data model *)

(** [labels.Labels]: a sequence of (name, value) pairs. *)
Definition Label : Type := string * string.
Definition Labels : Type := list Label.

(** [ls.Get(name)]: the value stored under [name], the empty string when the
    name is absent. *)
Fixpoint Get (ls : Labels) (name : string) : string :=
  match ls with
  | [] => ""
  | (n, v) :: rest => if String.eqb n name then v else Get rest name
  end.

(** [ls.Has(name)]. *)
Fixpoint Has (ls : Labels) (name : string) : bool :=
  match ls with
  | [] => false
  | (n, _) :: rest => if String.eqb n name then true else Has rest name
  end.

(** [labels.FromStrings(name, value)] for one pair. *)
Definition FromStrings (name value : string) : Labels := [(name, value)].

(** [labels.Matcher]. *)
Inductive MatchType := MatchEqual | MatchNotEqual | MatchRegexp | MatchNotRegexp.

Record Matcher := mkMatcher {
  m_Type : MatchType;
  m_Name : string;
  m_Value : string
}.

(** [storepb.LabelMatcher], the wire form of a matcher. *)
Inductive LabelMatcher_Type := LabelMatcher_EQ | LabelMatcher_NEQ | LabelMatcher_RE | LabelMatcher_NRE.

Record LabelMatcher := mkLabelMatcher {
  lm_Type : LabelMatcher_Type;
  lm_Name : string;
  lm_Value : string
}.

(** [m.Matches(s)], over a regular-expression engine [re] (pattern, text). *)
Definition MatchesWith (re : string -> string -> bool) (m : Matcher) (s : string) : bool :=
  match m_Type m with
  | MatchEqual => String.eqb s (m_Value m)
  | MatchNotEqual => negb (String.eqb s (m_Value m))
  | MatchRegexp => re (m_Value m) s
  | MatchNotRegexp => negb (re (m_Value m) s)
  end.

(** gRPC status codes used by the proxy. *)
Inductive Code := InvalidArgument | Aborted | Unknown.

Definition CodeName (c : Code) : string :=
  match c with
  | InvalidArgument => "InvalidArgument"
  | Aborted => "Aborted"
  | Unknown => "Unknown"
  end.

(** A non-nil Go [error]: either one made by [status.Error(code, desc)] or
    any other error, known by its text. *)
Inductive error :=
| StatusError (c : Code) (desc : string)
| GoError (text : string).

(** [err.Error()]. *)
Definition ErrorText (e : error) : string :=
  match e with
  | StatusError c d => "rpc error: code = " ++ CodeName c ++ " desc = " ++ d
  | GoError t => t
  end.

(** [errors.Wrap(err, msg)]. *)
Definition Wrap (e : error) (msg : string) : error :=
  GoError (msg ++ ": " ++ ErrorText e).

(** [storepb.PartialResponseStrategy]. *)
Inductive PartialResponseStrategy :=
| PartialResponseStrategy_WARN
| PartialResponseStrategy_ABORT
| PartialResponseStrategy_GROUP_REPLICA.

Definition is_GROUP_REPLICA (p : PartialResponseStrategy) : bool :=
  match p with PartialResponseStrategy_GROUP_REPLICA => true | _ => false end.
Definition is_WARN (p : PartialResponseStrategy) : bool :=
  match p with PartialResponseStrategy_WARN => true | _ => false end.
Definition is_ABORT (p : PartialResponseStrategy) : bool :=
  match p with PartialResponseStrategy_ABORT => true | _ => false end.

(** [storepb.SeriesRequest]. *)
Record SeriesRequest := mkSeriesRequest {
  MinTime : Z;
  MaxTime : Z;
  Matchers : list LabelMatcher;
  Aggregates : list Z;
  MaxResolutionWindow : Z;
  SkipChunks : bool;
  QueryHints : option string;
  PartialResponseDisabled : bool;
  PartialResponseStrategy_ : PartialResponseStrategy;
  ShardInfo : option string;
  WithoutReplicaLabels : list string
}.

(** [storepb.SeriesResponse]: a series, a warning or a hints frame. *)
Inductive SeriesResponse :=
| RespSeries (lset : Labels) (chunks : string)
| RespWarning (w : string)
| RespHints (h : string).

(** [resp.GetWarning()]: the warning text, empty for the other frames. *)
Definition GetWarning (resp : SeriesResponse) : string :=
  match resp with
  | RespWarning w => w
  | _ => ""
  end.

(** [storepb.NewWarnSeriesResponse(err)]. *)
Definition NewWarnSeriesResponse (err : error) : SeriesResponse :=
  RespWarning (ErrorText err).

(** [storepb.LabelValuesRequest] and its response. *)
Record LabelValuesRequest := mkLabelValuesRequest {
  lv_Label : string;
  lv_PartialResponseDisabled : bool;
  lv_Start : Z;
  lv_End : Z;
  lv_Matchers : list LabelMatcher;
  lv_WithoutReplicaLabels : list string
}.

Record LabelValuesResponse := mkLabelValuesResponse {
  lv_Values : list string;
  lv_Warnings : list string
}.

(** [storepb.InfoResponse], without the constant store type. *)
Record InfoResponse := mkInfoResponse {
  info_Labels : Labels;
  info_MinTime : Z;
  info_MaxTime : Z;
  info_LabelSets : list Labels
}.

(** The metadata half of the [Client] interface: what a backend announces. *)
Record Client := mkClient {
  ClientString : string;
  LabelSets : list Labels;
  TimeRange : Z * Z;
  Addr : string * bool;
  ReplicaKey : string;
  GroupKey : string
}.

(** What [ctx.Value(StoreMatcherKey)] may hold when it is not nil: the
    matcher groups, or a value of another type. *)
Inductive CtxValue :=
| CtxMatchers (v : list (list Matcher))
| CtxOther.

(** [math.MaxInt64]. *)
Definition MaxInt64 : Z := 9223372036854775807.

(** ** Collaborators

    Code that [proxy.go] calls and does not define. *)
Class Collaborators := {
  (** the response set of one backend, [respSet] *)
  respSet : Type;
  (** [regexp] full match of a pattern on a string *)
  re_match : string -> string -> bool;
  (** [matchesExternalLabels(ms, externalLabels)]: (match, matchers, err) *)
  matchesExternalLabels : list LabelMatcher -> Labels -> bool * list Matcher * option error;
  (** [storepb.PromMatchersToMatchers] *)
  PromMatchersToMatchers : list Matcher -> list LabelMatcher;
  (** [MatchersForLabelSets] *)
  MatchersForLabelSets : list Labels -> list LabelMatcher;
  (** [newAsyncRespSet(ctx, st, r, ...)]: both values Go returns *)
  newAsyncRespSet : Client -> SeriesRequest -> respSet * option error;
  (** the frames [NewResponseDeduplicator(NewProxyResponseLoserTree(sets...))]
      yields through [Next]/[At], in order *)
  mergedResponses : list respSet -> list SeriesResponse;
  (** [srv.Send(resp)], given the frames already passed to [Send] *)
  srvSend : list SeriesResponse -> SeriesResponse -> option error;
  (** [lset.Hash()], a [uint64] *)
  Hash : Labels -> Z;
  (** [st.LabelValues(ctx, req)] of a backend *)
  clientLabelValues : Client -> LabelValuesRequest -> LabelValuesResponse + error;
  (** [strutil.MergeUnsortedSlices] *)
  MergeUnsortedSlices : list (list string) -> list string
}.

(** [ProxyStore]: the snapshot [s.stores()] returns for this call, the
    selector labels and the TSDB selector's [MatchLabelSets]. *)
Record ProxyStore := mkProxyStore {
  stores : list Client;
  selectorLabels : Labels;
  tsdbSelector : list Labels -> bool * list Labels
}.

(** [DefaultSelector]: accepts every backend and adds no matcher. *)
Definition DefaultSelector (lsets : list Labels) : bool * list Labels := (true, []).

Section Model.
Context {env : Collaborators}.

(** [m.Matches(s)] with the proxy's regular-expression engine. *)
Definition Matches (m : Matcher) (s : string) : bool := MatchesWith re_match m s.

(** ** Filters *)

(** The inner loop of [labelSetsMatch]: [notMatched] after ranging over the
    matchers, with its [break] at the first failing matcher. *)
Fixpoint notMatched (matchers : list Matcher) (ls : Labels) : bool :=
  match matchers with
  | [] => false
  | m :: rest =>
      if Has ls (m_Name m) && negb (Matches m (Get ls (m_Name m)))
      then true
      else notMatched rest ls
  end.

(** The outer loop of [labelSetsMatch]. *)
Fixpoint labelSetsMatch_loop (matchers : list Matcher) (lset : list Labels) : bool :=
  match lset with
  | [] => false
  | ls :: rest =>
      if negb (notMatched matchers ls) then true
      else labelSetsMatch_loop matchers rest
  end.

Definition labelSetsMatch (matchers : list Matcher) (lset : list Labels) : bool :=
  if (length lset =? 0)%nat then true
  else labelSetsMatch_loop matchers lset.

(** [storeMatchDebugMetadata], without the reason string. *)
Definition storeMatchDebugMetadata (s : Client) (storeDebugMatchers : list (list Matcher)) : bool :=
  if (length storeDebugMatchers =? 0)%nat then true
  else
    let '(addr, isLocal) := Addr s in
    if isLocal then false
    else
      let match_ :=
        fold_left
          (fun acc sm => acc || labelSetsMatch sm [FromStrings "__address__" addr])
          storeDebugMatchers false in
      if negb match_ then false else true.

(** The matcher groups [storeMatches] reads from the request context. *)
Definition storeDebugMatcherOf (ctx : option CtxValue) : list (list Matcher) :=
  match ctx with
  | Some (CtxMatchers value) => value
  | _ => []
  end.

(** [storeMatches], without the reason string. *)
Definition storeMatches (ctx : option CtxValue) (s : Client) (mint maxt : Z)
    (matchers : list Matcher) : bool :=
  let storeDebugMatcher := storeDebugMatcherOf ctx in
  let '(storeMinTime, storeMaxTime) := TimeRange s in
  if (mint >? storeMaxTime)%Z || (maxt <? storeMinTime)%Z then false
  else if negb (storeMatchDebugMetadata s storeDebugMatcher) then false
  else
    let extLset := LabelSets s in
    if negb (labelSetsMatch matchers extLset) then false
    else true.

(** ** Observable effects *)

(** What a call does to the outside, in order. *)
Inductive Event :=
| EvSnapshot                          (* s.stores() *)
| EvOpen (st : Client)                (* newAsyncRespSet(ctx, st, r, ...) *)
| EvSend (resp : SeriesResponse)      (* srv.Send(resp) *)
| EvClose (rs : respSet)              (* deferred respSet.Close() *)
| EvLabelValues (st : Client).        (* st.LabelValues(ctx, req) *)

(** The frames passed to [srv.Send] so far. *)
Fixpoint sentResponses (tr : list Event) : list SeriesResponse :=
  match tr with
  | [] => []
  | EvSend resp :: rest => resp :: sentResponses rest
  | _ :: rest => sentResponses rest
  end.

(** The backends a sub-request was issued to so far. *)
Fixpoint contacted (tr : list Event) : list Client :=
  match tr with
  | [] => []
  | EvOpen st :: rest => st :: contacted rest
  | EvLabelValues st :: rest => st :: contacted rest
  | _ :: rest => contacted rest
  end.

(** Whether the backend snapshot was taken. *)
Fixpoint snapshotTaken (tr : list Event) : bool :=
  match tr with
  | [] => false
  | EvSnapshot :: _ => true
  | _ :: rest => snapshotTaken rest
  end.

(** ** Failure counters *)

(** [len(mp[key1])]. *)
Definition replicasOf (mp : gmap string (gmap string nat)) (key1 : string) : nat :=
  size (default (∅ : gmap string nat) (mp !! key1)).

(** [mp[key1][key2]]. *)
Definition countOf (mp : gmap string (gmap string nat)) (key1 key2 : string) : nat :=
  default 0%nat (default (∅ : gmap string nat) (mp !! key1) !! key2).

(** The closure [bumpCounter] of [Series]. *)
Definition bumpCounter (key1 key2 : string) (mp : gmap string (gmap string nat))
    : gmap string (gmap string nat) :=
  let inner := default (∅ : gmap string nat) (mp !! key1) in
  <[key1 := <[key2 := S (default 0%nat (inner !! key2))]> inner]> mp.

(** ** Series *)

(** What the selection loop of [Series] accumulates. *)
Record Selection := mkSelection {
  sel_stores : list Client;
  sel_storeLabelSets : list Labels;
  sel_groupReplicaStores : gmap string (gmap string nat)
}.

(** The loop over [s.stores()] that keeps the backends to query. *)
Fixpoint selectStores (s : ProxyStore) (ctx : option CtxValue) (originalRequest : SeriesRequest)
    (matchers : list Matcher) (snapshot : list Client) (acc : Selection) : Selection :=
  match snapshot with
  | [] => acc
  | st :: rest =>
      if negb (storeMatches ctx st (MinTime originalRequest) (MaxTime originalRequest) matchers)
      then selectStores s ctx originalRequest matchers rest acc
      else
        let '(matches, extraMatchers) := tsdbSelector s (LabelSets st) in
        if negb matches
        then selectStores s ctx originalRequest matchers rest acc
        else
          selectStores s ctx originalRequest matchers rest
            {| sel_stores := sel_stores acc ++ [st];
               sel_storeLabelSets := sel_storeLabelSets acc ++ extraMatchers;
               sel_groupReplicaStores :=
                 bumpCounter (GroupKey st) (ReplicaKey st) (sel_groupReplicaStores acc) |}
  end.

(** The variables [Series] updates while it opens and drains the streams.
    Every response set appended to [storeResponses] also has its [Close]
    deferred. *)
Record FanoutState := mkFanoutState {
  failedStores : gmap string (gmap string nat);
  totalFailedStores : nat;
  storeResponses : list respSet;
  trace : list Event
}.

Definition logEvent (ev : Event) (st : FanoutState) : FanoutState :=
  {| failedStores := failedStores st;
     totalFailedStores := totalFailedStores st;
     storeResponses := storeResponses st;
     trace := trace st ++ [ev] |}.

(** [bumpCounter(group, replica, failedStores); totalFailedStores++]. *)
Definition recordFailure (c : Client) (st : FanoutState) : FanoutState :=
  {| failedStores := bumpCounter (GroupKey c) (ReplicaKey c) (failedStores st);
     totalFailedStores := S (totalFailedStores st);
     storeResponses := storeResponses st;
     trace := trace st |}.

(** [totalFailedStores++]. *)
Definition bumpTotal (st : FanoutState) : FanoutState :=
  {| failedStores := failedStores st;
     totalFailedStores := S (totalFailedStores st);
     storeResponses := storeResponses st;
     trace := trace st |}.

(** [storeResponses = append(storeResponses, respSet); defer respSet.Close()]. *)
Definition keepRespSet (rs : respSet) (st : FanoutState) : FanoutState :=
  {| failedStores := failedStores st;
     totalFailedStores := totalFailedStores st;
     storeResponses := storeResponses st ++ [rs];
     trace := trace st |}.

(** The closure [checkGroupReplicaErrors] of [Series]; [err] is the non-nil
    error of the failed open. *)
Definition checkGroupReplicaErrors (groupReplicaStores failed : gmap string (gmap string nat))
    (st : Client) (err : error) : option error :=
  if (1 <? replicasOf failed (GroupKey st))%nat then Some err
  else if (replicasOf groupReplicaStores (GroupKey st) =? 1)%nat
          && (1 <? countOf failed (GroupKey st) (ReplicaKey st))%nat then Some err
  else None.

(** The fan-out loop: one [newAsyncRespSet] per selected backend. The first
    component is the error [Series] returns from inside the loop, if any.
    After a failure that the group-replica check tolerates the loop body is
    not left by [continue]: the response set returned with the error is
    appended like any other. *)
Fixpoint openStores (r : SeriesRequest) (groupReplicaStores : gmap string (gmap string nat))
    (sts : list Client) (st0 : FanoutState) : option error * FanoutState :=
  match sts with
  | [] => (None, st0)
  | st :: rest =>
      let '(rs, err) := newAsyncRespSet st r in
      let st1 := logEvent (EvOpen st) st0 in
      match err with
      | Some e =>
          let st2 := recordFailure st st1 in
          if is_GROUP_REPLICA (PartialResponseStrategy_ r) then
            match checkGroupReplicaErrors groupReplicaStores (failedStores st2) st e with
            | Some _ => (Some e, st2)
            | None => openStores r groupReplicaStores rest (keepRespSet rs st2)
            end
          else if negb (PartialResponseDisabled r) || is_WARN (PartialResponseStrategy_ r) then
            let warning := NewWarnSeriesResponse e in
            match srvSend (sentResponses (trace st2)) warning with
            | Some e' => (Some e', logEvent (EvSend warning) st2)
            | None => openStores r groupReplicaStores rest (logEvent (EvSend warning) st2)
            end
          else (Some e, st2)
      | None => openStores r groupReplicaStores rest (keepRespSet rs st1)
      end
  end.

(** The treatment of one merged frame before it is forwarded: the [if
    resp.GetWarning() != ""] block. *)
Definition onWarning (r : SeriesRequest) (resp : SeriesResponse) (st0 : FanoutState)
    : option error * FanoutState :=
  if negb (String.eqb (GetWarning resp) "") then
    let st1 := bumpTotal st0 in
    if is_GROUP_REPLICA (PartialResponseStrategy_ r) then
      if (1 <? totalFailedStores st1)%nat
      then (Some (StatusError Aborted (GetWarning resp)), st1)
      else (None, st1)
    else if PartialResponseDisabled r || is_ABORT (PartialResponseStrategy_ r)
      then (Some (StatusError Aborted (GetWarning resp)), st1)
    else (None, st1)
  else (None, st0).

(** The loop [for respHeap.Next()] over the merged frames. *)
Fixpoint mergeLoop (r : SeriesRequest) (resps : list SeriesResponse) (st0 : FanoutState)
    : option error * FanoutState :=
  match resps with
  | [] => (None, st0)
  | resp :: rest =>
      match onWarning r resp st0 with
      | (Some e, st1) => (Some e, st1)
      | (None, st1) =>
          match srvSend (sentResponses (trace st1)) resp with
          | Some e =>
              (Some (StatusError Unknown (ErrorText (Wrap e "send series response"))),
               logEvent (EvSend resp) st1)
          | None => mergeLoop r rest (logEvent (EvSend resp) st1)
          end
      end
  end.

(** The deferred [Close] calls, run last-in first-out when [Series] returns. *)
Definition runDeferred (st : FanoutState) : list Event :=
  map EvClose (rev (storeResponses st)).

Definition emptySelection : Selection :=
  {| sel_stores := []; sel_storeLabelSets := []; sel_groupReplicaStores := ∅ |}.

Definition initialFanout : FanoutState :=
  {| failedStores := ∅; totalFailedStores := 0; storeResponses := []; trace := [EvSnapshot] |}.

(** The sub-request [r] sent to the backends. *)
Definition subRequest (originalRequest : SeriesRequest) (storeMatchers : list LabelMatcher)
    : SeriesRequest :=
  {| MinTime := MinTime originalRequest;
     MaxTime := MaxTime originalRequest;
     Matchers := storeMatchers;
     Aggregates := Aggregates originalRequest;
     MaxResolutionWindow := MaxResolutionWindow originalRequest;
     SkipChunks := SkipChunks originalRequest;
     QueryHints := QueryHints originalRequest;
     PartialResponseDisabled := PartialResponseDisabled originalRequest;
     PartialResponseStrategy_ := PartialResponseStrategy_ originalRequest;
     ShardInfo := ShardInfo originalRequest;
     WithoutReplicaLabels := WithoutReplicaLabels originalRequest |}.

Definition noMatchersError : error :=
  StatusError InvalidArgument "no matchers specified (excluding selector labels)".

(** [ProxyStore.Series]: the error returned ([None] for [nil]) and what the
    call did. [ctx] is the value of [srv.Context()] under [StoreMatcherKey]. *)
Definition Series (s : ProxyStore) (ctx : option CtxValue) (originalRequest : SeriesRequest)
    : option error * list Event :=
  let '(match_, matchers, err) :=
    matchesExternalLabels (Matchers originalRequest) (selectorLabels s) in
  match err with
  | Some e => (Some (StatusError InvalidArgument (ErrorText e)), [])
  | None =>
      if negb match_ then (None, [])
      else if (length matchers =? 0)%nat then (Some noMatchersError, [])
      else
        let storeMatchers := PromMatchersToMatchers matchers in
        let sel := selectStores s ctx originalRequest matchers (stores s) emptySelection in
        if (length (sel_stores sel) =? 0)%nat then (None, [EvSnapshot])
        else
          let r :=
            subRequest originalRequest
              (storeMatchers ++ MatchersForLabelSets (sel_storeLabelSets sel)) in
          match openStores r (sel_groupReplicaStores sel) (sel_stores sel) initialFanout with
          | (Some e, st) => (Some e, trace st ++ runDeferred st)
          | (None, st) =>
              let '(res, st') := mergeLoop r (mergedResponses (storeResponses st)) st in
              (res, trace st' ++ runDeferred st')
          end
  end.

(** ** Info *)

(** Setting one label in a name-sorted label set: the value is replaced when
    the name is present, the pair is inserted at its place otherwise. *)
Fixpoint setLabel (name value : string) (ls : Labels) : Labels :=
  match ls with
  | [] => [(name, value)]
  | (n, v) :: rest =>
      match String.compare name n with
      | Eq => (name, value) :: rest
      | Lt => (name, value) :: (n, v) :: rest
      | Gt => (n, v) :: setLabel name value rest
      end
  end.

(** Modelled from the spec: [labelpb.ExtendSortedLabels] is not among the
    sources. The specification describes it as the element-wise merge of a
    label set with the selector labels, the selector's value winning when
    both carry a name; label sets are sequences sorted by name. *)
Definition ExtendSortedLabels (lset extend : Labels) : Labels :=
  fold_left (fun acc l => setLabel (fst l) (snd l) acc) extend lset.

(** One iteration of the time-range loop of [Info]. *)
Definition timeRangeStep (acc : Z * Z) (st : Client) : Z * Z :=
  let '(minTime, maxTime) := acc in
  let '(mint, maxt) := TimeRange st in
  (if (mint <? minTime)%Z then mint else minTime,
   if (maxt >? maxTime)%Z then maxt else maxTime).

(** [labelSets[mergedLabelSet.Hash()] = mergedLabelSet] for one label set. *)
Definition announce (selector : Labels) (acc : gmap Z Labels) (lset : Labels) : gmap Z Labels :=
  let mergedLabelSet := ExtendSortedLabels lset selector in
  <[Hash mergedLabelSet := mergedLabelSet]> acc.

(** The map [labelSets] of [Info] after both loops. *)
Definition mergedLabelSets (selector : Labels) (sts : list Client) : gmap Z Labels :=
  fold_left (fun acc st => fold_left (announce selector) (LabelSets st) acc) sts ∅.

(** [ProxyStore.Info]. Go ranges over [labelSets] in an unspecified order;
    the embedding lists the map by [map_to_list], and the properties below
    speak of the announced label sets as a set. *)
Definition Info (s : ProxyStore) : InfoResponse :=
  let sts := stores s in
  if (length sts =? 0)%nat then
    {| info_Labels := selectorLabels s; info_MinTime := 0; info_MaxTime := 0;
       info_LabelSets := [] |}
  else
    let '(minTime, maxTime) := fold_left timeRangeStep sts (MaxInt64, 0%Z) in
    let labelSets := mergedLabelSets (selectorLabels s) sts in
    let announced := map snd (map_to_list labelSets) in
    {| info_Labels := selectorLabels s;
       info_MinTime := minTime;
       info_MaxTime := maxTime;
       info_LabelSets :=
         if (length announced =? 0)%nat && (0 <? length (selectorLabels s))%nat
         then announced ++ [selectorLabels s]
         else announced |}.

(** ** LabelValues *)

(** What the goroutines of [LabelValues] share, with the first error the
    error group records. The goroutines are run in snapshot order. *)
Record LabelValuesState := mkLabelValuesState {
  lvs_warnings : list string;
  lvs_all : list (list string);
  lvs_err : option error;
  lvs_trace : list Event
}.

Definition fetchLabelValuesMsg (st : Client) : string :=
  "fetch label values from store " ++ ClientString st.

Fixpoint labelValuesFanout (s : ProxyStore) (ctx : option CtxValue) (r : LabelValuesRequest)
    (snapshot : list Client) (st0 : LabelValuesState) : LabelValuesState :=
  match snapshot with
  | [] => st0
  | st :: rest =>
      if negb (storeMatches ctx st (lv_Start r) (lv_End r) [])
      then labelValuesFanout s ctx r rest st0
      else
        let '(matches, extraMatchers) := tsdbSelector s (LabelSets st) in
        if negb matches then labelValuesFanout s ctx r rest st0
        else
          let req :=
            {| lv_Label := lv_Label r;
               lv_PartialResponseDisabled := lv_PartialResponseDisabled r;
               lv_Start := lv_Start r;
               lv_End := lv_End r;
               lv_Matchers := lv_Matchers r ++ MatchersForLabelSets extraMatchers;
               lv_WithoutReplicaLabels := lv_WithoutReplicaLabels r |} in
          let tr := lvs_trace st0 ++ [EvLabelValues st] in
          match clientLabelValues st req with
          | inr err =>
              let err' := Wrap err (fetchLabelValuesMsg st) in
              if lv_PartialResponseDisabled r then
                labelValuesFanout s ctx r rest
                  {| lvs_warnings := lvs_warnings st0;
                     lvs_all := lvs_all st0;
                     lvs_err := match lvs_err st0 with Some e => Some e | None => Some err' end;
                     lvs_trace := tr |}
              else
                labelValuesFanout s ctx r rest
                  {| lvs_warnings :=
                       lvs_warnings st0 ++ [ErrorText (Wrap err' (fetchLabelValuesMsg st))];
                     lvs_all := lvs_all st0;
                     lvs_err := lvs_err st0;
                     lvs_trace := tr |}
          | inl resp =>
              labelValuesFanout s ctx r rest
                {| lvs_warnings := lvs_warnings st0 ++ lv_Warnings resp;
                   lvs_all := lvs_all st0 ++ [lv_Values resp];
                   lvs_err := lvs_err st0;
                   lvs_trace := tr |}
          end
  end.

Definition emptyLabelError : error :=
  StatusError InvalidArgument "label name parameter cannot be empty".

(** [ProxyStore.LabelValues]: the response or the error, and what the call
    did. *)
Definition LabelValues (s : ProxyStore) (ctx : option CtxValue) (r : LabelValuesRequest)
    : (LabelValuesResponse + error) * list Event :=
  if String.eqb (lv_Label r) "" then (inr emptyLabelError, [])
  else
    let st :=
      labelValuesFanout s ctx r (stores s)
        {| lvs_warnings := []; lvs_all := []; lvs_err := None; lvs_trace := [EvSnapshot] |} in
    match lvs_err st with
    | Some e => (inr e, lvs_trace st)
    | None =>
        (inl {| lv_Values := MergeUnsortedSlices (lvs_all st);
                lv_Warnings := lvs_warnings st |},
         lvs_trace st)
    end.
End Model.

(** ** A concrete set of collaborators

    Used to run the model on the scenarios of the specification. *)

Definition toPromMatcher (lm : LabelMatcher) : Matcher :=
  {| m_Type := match lm_Type lm with
               | LabelMatcher_EQ => MatchEqual
               | LabelMatcher_NEQ => MatchNotEqual
               | LabelMatcher_RE => MatchRegexp
               | LabelMatcher_NRE => MatchNotRegexp
               end;
     m_Name := lm_Name lm;
     m_Value := lm_Value lm |}.

Definition toLabelMatcher (m : Matcher) : LabelMatcher :=
  {| lm_Type := match m_Type m with
                | MatchEqual => LabelMatcher_EQ
                | MatchNotEqual => LabelMatcher_NEQ
                | MatchRegexp => LabelMatcher_RE
                | MatchNotRegexp => LabelMatcher_NRE
                end;
     lm_Name := m_Name m;
     lm_Value := m_Value m |}.

(** Modelled from the spec: [matchesExternalLabels] is not among the sources.
    The specification has the request matchers reduced against the selector
    labels: matchers inconsistent with a selector label reject the request,
    and the matchers on selector labels are stripped from the rest. *)
Definition specMatchesExternalLabels (re : string -> string -> bool)
    (ms : list LabelMatcher) (externalLabels : Labels) : bool * list Matcher * option error :=
  let tms := map toPromMatcher ms in
  if existsb (fun m => Has externalLabels (m_Name m)
                       && negb (MatchesWith re m (Get externalLabels (m_Name m)))) tms
  then (false, [], None)
  else (true, filter (fun m => negb (Has externalLabels (m_Name m))) tms, None).

(** Patterns without operators: a pattern matches the text equal to it. *)
Definition literalRegexp (pattern text : string) : bool := String.eqb pattern text.

(** A positional hash of the example label sets, reduced to 64 bits. *)
Definition hashString (h : Z) (str : string) : Z :=
  fold_left (fun acc ch => (acc * 257 + Z.of_nat (Ascii.nat_of_ascii ch) + 1)%Z)
            (list_ascii_of_string str) (h * 257)%Z.

Definition exampleHash (ls : Labels) : Z :=
  (fold_left (fun h l => hashString (hashString h (fst l)) (snd l)) ls 7%Z
   mod 18446744073709551616)%Z.

(** Collaborators in which a response set is the list of frames its backend
    streams, [opening] says which backends fail to open, the merge is the
    concatenation of the streams and every [Send] succeeds. *)
Definition exampleEnv (opening : Client -> list SeriesResponse * option error) : Collaborators :=
  {| respSet := list SeriesResponse;
     re_match := literalRegexp;
     matchesExternalLabels := specMatchesExternalLabels literalRegexp;
     PromMatchersToMatchers := map toLabelMatcher;
     MatchersForLabelSets := fun _ => [];
     newAsyncRespSet := fun st _ => opening st;
     mergedResponses := @concat SeriesResponse;
     srvSend := fun _ _ => None;
     Hash := exampleHash;
     clientLabelValues := fun _ _ => inl {| lv_Values := []; lv_Warnings := [] |};
     MergeUnsortedSlices := @concat string |}.

(** A remote backend without external labels. *)
Definition backend (name group replica : string) (mint maxt : Z) : Client :=
  {| ClientString := name;
     LabelSets := [];
     TimeRange := (mint, maxt);
     Addr := (name, false);
     ReplicaKey := replica;
     GroupKey := group |}.

(** Backends named in [down] fail to open, with an error that names them;
    the others stream one series. *)
Definition openingWith (down : list string) (st : Client) : list SeriesResponse * option error :=
  if existsb (String.eqb (ClientString st)) down
  then ([], Some (GoError ("fetch series for " ++ ClientString st)))
  else ([RespSeries [("a", "1")] (ClientString st)], None).

(** A request over [0, 100]. *)
Definition requestFor (ms : list LabelMatcher) (policy : PartialResponseStrategy)
    (disabled : bool) : SeriesRequest :=
  {| MinTime := 0;
     MaxTime := 100;
     Matchers := ms;
     Aggregates := [];
     MaxResolutionWindow := 0;
     SkipChunks := false;
     QueryHints := None;
     PartialResponseDisabled := disabled;
     PartialResponseStrategy_ := policy;
     ShardInfo := None;
     WithoutReplicaLabels := [] |}.

(** A request for [a="1"]. *)
Definition exampleRequest (policy : PartialResponseStrategy) (disabled : bool) : SeriesRequest :=
  requestFor [mkLabelMatcher LabelMatcher_EQ "a" "1"] policy disabled.

Definition proxyOver (sts : list Client) (selector : Labels) : ProxyStore :=
  {| stores := sts; selectorLabels := selector; tsdbSelector := DefaultSelector |}.

(** Scenario S6: groups [g] (replicas [g-0], [g-1]) and [h] (replica [h-0]). *)
Definition g0 : Client := backend "g-0" "g" "g-0" 0 100.
Definition g1 : Client := backend "g-1" "g" "g-1" 0 100.
Definition h0 : Client := backend "h-0" "h" "h-0" 0 100.
(** A second endpoint of the replica [h-0]. *)
Definition h0' : Client := backend "h-0b" "h" "h-0" 0 100.

(** Collaborators in which every backend opens. *)
Definition quietEnv : Collaborators := exampleEnv (openingWith []).

(** Scenario S6: [g-0] and [h-0] fail to open. *)
Definition s6Env : Collaborators := exampleEnv (openingWith ["g-0"; "h-0"]).

(** Collaborators in which every backend opens and streams one warning. *)
Definition warningEnv : Collaborators :=
  exampleEnv (fun _ => ([RespWarning "store timeout"], None)).

(** Scenario S4: one matcher group on the address, two remote backends and
    a local one. *)
Definition addressGroups : list (list Matcher) :=
  [[mkMatcher MatchEqual "__address__" "10.0.0.1:9090"]].
Definition store1 : Client := backend "10.0.0.1:9090" "s1" "s1" 0 100.
Definition store2 : Client := backend "10.0.0.2:9090" "s2" "s2" 0 100.
Definition localStore : Client :=
  {| ClientString := "local"; LabelSets := []; TimeRange := (0, 100)%Z;
     Addr := ("", true); ReplicaKey := "l"; GroupKey := "l" |}.

(** Scenario S3: the proxy selects [env="prod"]. *)
Definition prodProxy : ProxyStore := proxyOver [store1; store2] [("env", "prod")].
Definition devRequest : SeriesRequest :=
  requestFor [mkLabelMatcher LabelMatcher_EQ "env" "dev"] PartialResponseStrategy_WARN false.
Definition prodRequest : SeriesRequest :=
  requestFor [mkLabelMatcher LabelMatcher_EQ "env" "prod"] PartialResponseStrategy_WARN false.

(** A backend whose data ends before the requests start. *)
Definition oldStore : Client := backend "old" "o" "o" (-300) (-200).

(** Scenario S5: two backends without labels behind the selector [r="x"]. *)
Definition s5Proxy : ProxyStore :=
  proxyOver [backend "a" "a" "a" 100 200; backend "b" "b" "b" 150 300] [("r", "x")].

(** Two backends that announce their region, behind the selector [r="x"]. *)
Definition regionStore (name region : string) (mint maxt : Z) : Client :=
  {| ClientString := name; LabelSets := [[("region", region)]]; TimeRange := (mint, maxt);
     Addr := (name, false); ReplicaKey := name; GroupKey := name |}.
Definition regionProxy : ProxyStore :=
  proxyOver [regionStore "eu-0" "eu" 100 200; regionStore "us-0" "us" 150 300;
             regionStore "eu-1" "eu" 120 250] [("r", "x")].

(** A proxy without backends. *)
Definition emptyProxy : ProxyStore := proxyOver [] [("r", "x")].

(** A [LabelValues] request without a label name. *)
Definition unnamedLabelRequest : LabelValuesRequest :=
  {| lv_Label := ""; lv_PartialResponseDisabled := false; lv_Start := 0; lv_End := 100;
     lv_Matchers := []; lv_WithoutReplicaLabels := [] |}.

(** ** Vocabulary of the specification *)

Section Vocabulary.
Context {env : Collaborators}.

(** A matcher fails a label set: the set has the matcher's name and the
    stored value does not satisfy the matcher. *)
Definition failsLabelSet (m : Matcher) (ls : Labels) : Prop :=
  Has ls (m_Name m) = true /\ Matches m (Get ls (m_Name m)) = false.

(** Every matcher of every group is a matcher on [__address__]. *)
Definition addressMatchers (groups : list (list Matcher)) : Prop :=
  forall sm m, In sm groups -> In m sm -> m_Name m = "__address__".

(** The request and the backend overlap in time. *)
Definition timeOverlap (mint maxt : Z) (s : Client) : Prop :=
  (mint <= snd (TimeRange s))%Z /\ (maxt >= fst (TimeRange s))%Z.

(** The backend passes the filters of the selection loop of [Series]. *)
Definition survives (s : ProxyStore) (ctx : option CtxValue) (req : SeriesRequest)
    (matchers : list Matcher) (st : Client) : bool :=
  storeMatches ctx st (MinTime req) (MaxTime req) matchers
  && fst (tsdbSelector s (LabelSets st)).

(** The error of opening one backend, if any. *)
Definition openError (r : SeriesRequest) (st : Client) : option error :=
  snd (newAsyncRespSet st r).

(** One warning frame per backend that fails to open, in order. *)
Definition openWarnings (r : SeriesRequest) (sts : list Client) : list SeriesResponse :=
  flat_map (fun st => match openError r st with
                      | Some e => [NewWarnSeriesResponse e]
                      | None => []
                      end) sts.

(** The response sets of the backends that open, in order. *)
Definition openedSets (r : SeriesRequest) (sts : list Client) : list respSet :=
  flat_map (fun st => match openError r st with
                      | Some _ => []
                      | None => [fst (newAsyncRespSet st r)]
                      end) sts.

(** The condition under which the group-replica check gives up, over the
    failure counters that already include the current failure. *)
Definition groupReplicaAbort (eligible failed : gmap string (gmap string nat))
    (st : Client) : Prop :=
  (1 < replicasOf failed (GroupKey st))%nat
  \/ (replicasOf eligible (GroupKey st) = 1%nat
      /\ (1 < countOf failed (GroupKey st) (ReplicaKey st))%nat).

(** The eligibility counters of a selection made of exactly these backends. *)
Definition eligibleOf (sts : list Client) : gmap string (gmap string nat) :=
  fold_left (fun acc st => bumpCounter (GroupKey st) (ReplicaKey st) acc) sts ∅.

(** The label sets of the backends, each merged with the selector labels. *)
Definition mergedOf (s : ProxyStore) : list Labels :=
  flat_map (fun st => map (fun lset => ExtendSortedLabels lset (selectorLabels s))
                          (LabelSets st))
           (stores s).

(** No two different label sets of the list share a hash. *)
Definition collisionFree (l : list Labels) : Prop :=
  forall a b, In a l -> In b l -> Hash a = Hash b -> a = b.

(** [x] is the least, resp. the greatest, element of [l]. *)
Definition isMinOf (x : Z) (l : list Z) : Prop :=
  In x l /\ forall y, In y l -> (x <= y)%Z.
Definition isMaxOf (x : Z) (l : list Z) : Prop :=
  In x l /\ forall y, In y l -> (y <= x)%Z.

Definition minTimes (s : ProxyStore) : list Z := map (fun st => fst (TimeRange st)) (stores s).
Definition maxTimes (s : ProxyStore) : list Z := map (fun st => snd (TimeRange st)) (stores s).

(** The map [Info] builds from a list of merged label sets, keyed by hash. *)
Definition byHash (l : list Labels) (acc : gmap Z Labels) : gmap Z Labels :=
  fold_left (fun m v => <[Hash v := v]> m) l acc.

End Vocabulary.

(** ** The other operations of the proxy *)

(** [math.MinInt64]. *)
Definition MinInt64 : Z := (-9223372036854775808)%Z.

(** [UninitializedTSDBTime]: the start time of a TSDB that holds no data yet. *)
Definition UninitializedTSDBTime : Z := MaxInt64.

(** [storepb.LabelNamesRequest] and its response. *)
Record LabelNamesRequest := mkLabelNamesRequest {
  ln_PartialResponseDisabled : bool;
  ln_Start : Z;
  ln_End : Z;
  ln_Matchers : list LabelMatcher;
  ln_WithoutReplicaLabels : list string
}.

Record LabelNamesResponse := mkLabelNamesResponse {
  ln_Names : list string;
  ln_Warnings : list string
}.

Section Operations.
Context {env : Collaborators}.

(** [ProxyStore.TimeRange]; its loop body is the one of [Info]. *)
Definition ProxyStore_TimeRange (s : ProxyStore) : Z * Z :=
  let sts := stores s in
  if (length sts =? 0)%nat then (MinInt64, MaxInt64)
  else fold_left timeRangeStep sts (MaxInt64, MinInt64).

(** [ProxyStore.LabelSet]; the map is listed as in [Info]. *)
Definition LabelSet (s : ProxyStore) : list Labels :=
  let sts := stores s in
  if (length sts =? 0)%nat then []
  else
    let labelSets := map snd (map_to_list (mergedLabelSets (selectorLabels s) sts)) in
    if (length labelSets =? 0)%nat && (0 <? length (selectorLabels s))%nat
    then labelSets ++ [selectorLabels s]
    else labelSets.

(** [st.LabelNames(ctx, req)] of a backend. *)
Variable clientLabelNames : Client -> LabelNamesRequest -> LabelNamesResponse + error.

(** What the goroutines of [LabelNames] share, with the first error the
    error group records and the backends called, in snapshot order. *)
Record LabelNamesState := mkLabelNamesState {
  lns_warnings : list string;
  lns_names : list (list string);
  lns_err : option error;
  lns_called : list Client
}.

Definition fetchLabelNamesMsg (st : Client) : string :=
  "fetch label names from store " ++ ClientString st.

Fixpoint labelNamesFanout (s : ProxyStore) (ctx : option CtxValue) (r : LabelNamesRequest)
    (snapshot : list Client) (st0 : LabelNamesState) : LabelNamesState :=
  match snapshot with
  | [] => st0
  | st :: rest =>
      if negb (storeMatches ctx st (ln_Start r) (ln_End r) [])
      then labelNamesFanout s ctx r rest st0
      else
        let '(matches, extraMatchers) := tsdbSelector s (LabelSets st) in
        if negb matches then labelNamesFanout s ctx r rest st0
        else
          let req :=
            {| ln_PartialResponseDisabled := ln_PartialResponseDisabled r;
               ln_Start := ln_Start r;
               ln_End := ln_End r;
               ln_Matchers := ln_Matchers r ++ MatchersForLabelSets extraMatchers;
               ln_WithoutReplicaLabels := ln_WithoutReplicaLabels r |} in
          let called := lns_called st0 ++ [st] in
          match clientLabelNames st req with
          | inr err =>
              let err' := Wrap err (fetchLabelNamesMsg st) in
              if ln_PartialResponseDisabled r then
                labelNamesFanout s ctx r rest
                  {| lns_warnings := lns_warnings st0;
                     lns_names := lns_names st0;
                     lns_err := match lns_err st0 with Some e => Some e | None => Some err' end;
                     lns_called := called |}
              else
                labelNamesFanout s ctx r rest
                  {| lns_warnings := lns_warnings st0 ++ [ErrorText err'];
                     lns_names := lns_names st0;
                     lns_err := lns_err st0;
                     lns_called := called |}
          | inl resp =>
              labelNamesFanout s ctx r rest
                {| lns_warnings := lns_warnings st0 ++ ln_Warnings resp;
                   lns_names := lns_names st0 ++ [ln_Names resp];
                   lns_err := lns_err st0;
                   lns_called := called |}
          end
  end.

(** [ProxyStore.LabelNames]: the response or the error, and the backends
    called. *)
Definition LabelNames (s : ProxyStore) (ctx : option CtxValue) (r : LabelNamesRequest)
    : (LabelNamesResponse + error) * list Client :=
  let st :=
    labelNamesFanout s ctx r (stores s)
      {| lns_warnings := []; lns_names := []; lns_err := None; lns_called := [] |} in
  match lns_err st with
  | Some e => (inr e, lns_called st)
  | None =>
      (inl {| ln_Names := MergeUnsortedSlices (lns_names st);
              ln_Warnings := lns_warnings st |},
       lns_called st)
  end.

(** The answer of a backend to the [LabelNames] sub-request, and what it
    contributes: its names, its warnings (the wrapped error text when the
    call fails) and the error the error group receives when partial
    responses are disabled. *)
Definition labelNamesAnswer (s : ProxyStore) (r : LabelNamesRequest) (st : Client)
    : LabelNamesResponse + error :=
  clientLabelNames st
    {| ln_PartialResponseDisabled := ln_PartialResponseDisabled r;
       ln_Start := ln_Start r;
       ln_End := ln_End r;
       ln_Matchers := ln_Matchers r ++ MatchersForLabelSets (snd (tsdbSelector s (LabelSets st)));
       ln_WithoutReplicaLabels := ln_WithoutReplicaLabels r |}.

Definition labelNamesOf (s : ProxyStore) (r : LabelNamesRequest) (st : Client)
    : list (list string) :=
  match labelNamesAnswer s r st with
  | inl resp => [ln_Names resp]
  | inr _ => []
  end.

Definition labelNamesWarningsOf (s : ProxyStore) (r : LabelNamesRequest) (st : Client)
    : list string :=
  match labelNamesAnswer s r st with
  | inl resp => ln_Warnings resp
  | inr err =>
      if ln_PartialResponseDisabled r then []
      else [ErrorText (Wrap err (fetchLabelNamesMsg st))]
  end.

Definition labelNamesErrorOf (s : ProxyStore) (r : LabelNamesRequest) (st : Client)
    : list error :=
  match labelNamesAnswer s r st with
  | inl _ => []
  | inr err => if ln_PartialResponseDisabled r then [Wrap err (fetchLabelNamesMsg st)] else []
  end.

(** The backends called for the range of a [LabelNames] or [LabelValues]
    request. *)
Definition calledForLabels (s : ProxyStore) (ctx : option CtxValue) (start end_ : Z)
    : list Client :=
  List.filter
    (fun st => storeMatches ctx st start end_ [] && fst (tsdbSelector s (LabelSets st)))
    (stores s).

End Operations.

(** ** More vocabulary *)

Section MoreVocabulary.
Context {env : Collaborators}.

(** The backend fails to open. *)
Definition failsToOpen (r : SeriesRequest) (st : Client) : bool :=
  match openError r st with Some _ => true | None => false end.

(** The frame carries a warning, as [Series] tests it. *)
Definition isWarning (resp : SeriesResponse) : bool :=
  negb (String.eqb (GetWarning resp) "").

(** The response sets closed so far, in order. *)
Fixpoint closed (tr : list Event) : list respSet :=
  match tr with
  | [] => []
  | EvClose rs :: rest => rs :: closed rest
  | _ :: rest => closed rest
  end.

(** The backend belongs to replica [r] of group [g]. *)
Definition sameKeys (g r : string) (st : Client) : bool :=
  String.eqb (GroupKey st) g && String.eqb (ReplicaKey st) r.

(** The failure counters after the failures of the backends of [sts]. *)
Definition failuresOf (sts : list Client) (acc : gmap string (gmap string nat))
    : gmap string (gmap string nat) :=
  fold_left (fun m st => bumpCounter (GroupKey st) (ReplicaKey st) m) sts acc.

(** The selection [Series] makes, its survivors and the sub-request it sends. *)
Definition selectionOf (s : ProxyStore) (ctx : option CtxValue) (req : SeriesRequest)
    (matchers : list Matcher) : Selection :=
  selectStores s ctx req matchers (stores s) emptySelection.

Definition survivorsOf (s : ProxyStore) (ctx : option CtxValue) (req : SeriesRequest)
    (matchers : list Matcher) : list Client :=
  List.filter (survives s ctx req matchers) (stores s).

Definition subRequestOf (s : ProxyStore) (ctx : option CtxValue) (req : SeriesRequest)
    (matchers : list Matcher) : SeriesRequest :=
  subRequest req
    (PromMatchersToMatchers matchers
     ++ MatchersForLabelSets (sel_storeLabelSets (selectionOf s ctx req matchers))).

(** The answer of a backend to the [LabelValues] sub-request. *)
Definition labelValuesAnswer (s : ProxyStore) (r : LabelValuesRequest) (st : Client)
    : LabelValuesResponse + error :=
  clientLabelValues st
    {| lv_Label := lv_Label r;
       lv_PartialResponseDisabled := lv_PartialResponseDisabled r;
       lv_Start := lv_Start r;
       lv_End := lv_End r;
       lv_Matchers := lv_Matchers r ++ MatchersForLabelSets (snd (tsdbSelector s (LabelSets st)));
       lv_WithoutReplicaLabels := lv_WithoutReplicaLabels r |}.

(** What one called backend contributes to [LabelValues]: its values, its
    warnings (the twice wrapped error text when the call fails) and the
    error the error group receives when partial responses are disabled. *)
Definition labelValuesOf (s : ProxyStore) (r : LabelValuesRequest) (st : Client)
    : list (list string) :=
  match labelValuesAnswer s r st with
  | inl resp => [lv_Values resp]
  | inr _ => []
  end.

Definition labelValuesWarningsOf (s : ProxyStore) (r : LabelValuesRequest) (st : Client)
    : list string :=
  match labelValuesAnswer s r st with
  | inl resp => lv_Warnings resp
  | inr err =>
      if lv_PartialResponseDisabled r then []
      else [ErrorText (Wrap (Wrap err (fetchLabelValuesMsg st)) (fetchLabelValuesMsg st))]
  end.

Definition labelValuesErrorOf (s : ProxyStore) (r : LabelValuesRequest) (st : Client)
    : list error :=
  match labelValuesAnswer s r st with
  | inl _ => []
  | inr err => if lv_PartialResponseDisabled r then [Wrap err (fetchLabelValuesMsg st)] else []
  end.

(** The error an error group keeps: the first it received. *)
Definition firstError (old : option error) (errs : list error) : option error :=
  match old with
  | Some e => Some e
  | None => hd_error errs
  end.

End MoreVocabulary.

(** ** The failed-query cache of internal/cortex/frontend/transport/utils

    What [utils.go] calls and does not define: the LRU cache of
    [hashicorp/golang-lru] with [int] values, the two regular expressions,
    [strconv.Atoi] and the [%d] verb of [fmt]. *)
Class CacheCollaborators := {
  (** [*lru.Cache] *)
  lruCache : Type;
  (** [Get(key)]: the value, if present, and the cache with its recency updated *)
  lruGet : lruCache -> string -> option Z * lruCache;
  (** [Add(key, value)] *)
  lruAdd : lruCache -> string -> Z -> lruCache;
  (** [ContainsOrAdd(key, value)]: whether the key was there, and the cache *)
  lruContainsOrAdd : lruCache -> string -> Z -> bool * lruCache;
  (** [errorExtract.FindStringSubmatch(text)], [None] for [nil] *)
  findStringSubmatch : string -> option (list string);
  (** [strconv.Atoi] *)
  Atoi : string -> option Z;
  (** [regex.ReplaceAllString(text, " ")] *)
  replaceAllSpaces : string -> string;
  (** the [%d] verb *)
  formatInt : Z -> string
}.

(** [cacheableResponseCodes]: request timeout, gateway timeout, bad request. *)
Definition cacheableResponseCodes : list Z := [408; 504; 400]%Z.

(** [isCacheableError]. *)
Fixpoint isCacheableError_in (codes : list Z) (statusCode : Z) : bool :=
  match codes with
  | [] => false
  | errStatusCode :: rest =>
      if (errStatusCode =? statusCode)%Z then true else isCacheableError_in rest statusCode
  end.

Definition isCacheableError (statusCode : Z) : bool :=
  isCacheableError_in cacheableResponseCodes statusCode.

(** [url.Values] and its [Get]: the first value under the key, or the empty
    string. *)
Definition Values_Get (query : gmap string (list string)) (key : string) : string :=
  match query !! key with
  | Some (v :: _) => v
  | _ => ""
  end.

(** A Go [int] of 64 bits. *)
Definition wrapInt (z : Z) : Z :=
  ((z + 9223372036854775808) mod 18446744073709551616 - 9223372036854775808)%Z.

Section FailedQueryCache.
Context {deps : CacheCollaborators}.

(** [getQueryRangeSeconds]. *)
Definition getQueryRangeSeconds (query : gmap string (list string)) : Z :=
  match Atoi (Values_Get query "start") with
  | None => 0%Z
  | Some start =>
      match Atoi (Values_Get query "end") with
      | None => 0%Z
      | Some end_ => wrapInt (end_ - start)
      end
  end.

(** [normalizeQueryString]. *)
Definition normalizeQueryString (query : gmap string (list string)) : string :=
  replaceAllSpaces (Values_Get query "query").

(** [createLogMessage]. *)
Definition createLogMessage (message queryExpressionNormalized : string)
    (cachedQueryRangeSeconds queryExpressionRangeLength : Z) (err : option error) : string :=
  match err with
  | None =>
      "msg: " ++ message ++ ", cached_query: " ++ queryExpressionNormalized
      ++ ", cached_range_seconds: " ++ formatInt cachedQueryRangeSeconds
      ++ ", query_range_seconds: " ++ formatInt queryExpressionRangeLength
  | Some e =>
      "msg: " ++ message ++ ", cached_query: " ++ queryExpressionNormalized
      ++ ", query_range_seconds: " ++ formatInt queryExpressionRangeLength
      ++ ", cached_error: " ++ ErrorText e
  end.

(** [updateFailedQueryCache]: the pair it returns and the cache afterwards. *)
Definition updateFailedQueryCache (err : error) (queryExpressionNormalized : string)
    (queryExpressionRangeLength : Z) (cache : lruCache) : (bool * string) * lruCache :=
  let rejected message :=
    ((false,
      createLogMessage message queryExpressionNormalized (-1) queryExpressionRangeLength
        (Some err)),
     cache) in
  match findStringSubmatch (ErrorText err) with
  | None => rejected "String to regex conversion error"
  | Some codeExtract =>
      if (length codeExtract <? 2)%nat then rejected "String to regex conversion error"
      else
        match Atoi (nth 1 codeExtract "") with
        | None => rejected "String to int conversion error"
        | Some errCode =>
            if negb (isCacheableError errCode)
            then rejected "Query not cached due to non-cacheable error code"
            else
              let '(contains, cache1) :=
                lruContainsOrAdd cache queryExpressionNormalized queryExpressionRangeLength in
              let '(rangeLength, cache2) :=
                if contains then
                  let '(oldValue, cache2) := lruGet cache1 queryExpressionNormalized in
                  let rangeLength :=
                    match oldValue with
                    | Some old => Z.min queryExpressionRangeLength old
                    | None => queryExpressionRangeLength
                    end in
                  (rangeLength, lruAdd cache2 queryExpressionNormalized rangeLength)
                else (queryExpressionRangeLength, cache1) in
              ((true,
                createLogMessage "Cached a failed query" queryExpressionNormalized (-1)
                  rangeLength (Some err)),
               cache2)
        end
  end.

(** [queryHitCache]: the pair it returns, the cache and the hit counter
    afterwards. *)
Definition queryHitCache (queryExpressionNormalized : string)
    (queryExpressionRangeLength : Z) (cache : lruCache) (cachedHits : nat)
    : (bool * string) * lruCache * nat :=
  let '(value, cache1) := lruGet cache queryExpressionNormalized in
  match value with
  | Some cachedQueryRangeSeconds =>
      if (cachedQueryRangeSeconds <=? queryExpressionRangeLength)%Z then
        ((true,
          createLogMessage "Retrieved query from cache" queryExpressionNormalized
            cachedQueryRangeSeconds queryExpressionRangeLength None),
         cache1, S cachedHits)
      else ((false, ""), cache1, cachedHits)
  | None => ((false, ""), cache1, cachedHits)
  end.

(** [FailedQueryCache.UpdateFailedQueryCache] and [QueryHitCache]. *)
Definition UpdateFailedQueryCache (cache : lruCache) (err : error)
    (query : gmap string (list string)) : (bool * string) * lruCache :=
  updateFailedQueryCache err (normalizeQueryString query) (getQueryRangeSeconds query) cache.

Definition QueryHitCache (cache : lruCache) (cachedHits : nat)
    (query : gmap string (list string)) : (bool * string) * lruCache * nat :=
  queryHitCache (normalizeQueryString query) (getQueryRangeSeconds query) cache cachedHits.

(** The laws of the LRU cache the properties rely on: an added value is
    read back, and [ContainsOrAdd] adds exactly when the key is absent. *)
Definition lruLaws : Prop :=
  (forall c k v, fst (lruGet (lruAdd c k v) k) = Some v)
  /\ (forall c k v,
        match fst (lruGet c k) with
        | Some _ => lruContainsOrAdd c k v = (true, c)
        | None => lruContainsOrAdd c k v = (false, lruAdd c k v)
        end).

End FailedQueryCache.

(** A cache that never evicts, a reader of the texts [Code(n)] for the
    three-digit codes used below, and a decimal reader of the same. *)
Definition exampleCodes : list (string * Z) :=
  [("400", 400%Z); ("408", 408%Z); ("500", 500%Z); ("504", 504%Z);
   ("0", 0%Z); ("60", 60%Z); ("600", 600%Z); ("3600", 3600%Z)].

Definition exampleAtoi (text : string) : option Z :=
  match List.find (fun p => String.eqb (fst p) text) exampleCodes with
  | Some p => Some (snd p)
  | None => None
  end.

Definition exampleSubmatch (text : string) : option (list string) :=
  match List.find (fun p => String.eqb ("Code(" ++ fst p ++ ")") text) exampleCodes with
  | Some p => Some [text; fst p]
  | None => None
  end.

Definition exampleCache : CacheCollaborators :=
  {| lruCache := gmap string Z;
     lruGet := fun c k => (c !! k, c);
     lruAdd := fun c k v => <[k := v]> c;
     lruContainsOrAdd := fun c k v =>
       match c !! k with
       | Some _ => (true, c)
       | None => (false, <[k := v]> c)
       end;
     findStringSubmatch := exampleSubmatch;
     Atoi := exampleAtoi;
     replaceAllSpaces := fun text => text;
     formatInt := fun z => match List.find (fun p => (snd p =? z)%Z) exampleCodes with
                           | Some p => fst p
                           | None => "?"
                           end |}.

(** ** More scenarios *)

(** The matchers of [exampleRequest] after the reduction. *)
Definition exampleMatchers : list Matcher := [mkMatcher MatchEqual "a" "1"].

(** The proxy of scenario S6, and the same with a second endpoint of [h-0]. *)
Definition s6Proxy : ProxyStore := proxyOver [g0; g1; h0] [].
Definition s6bProxy : ProxyStore := proxyOver [g0; g1; h0; h0'] [].
Definition s6bEnv : Collaborators := exampleEnv (openingWith ["g-0"; "h-0"; "h-0b"]).

(** Collaborators like [quietEnv] whose backends answer [LabelValues] as
    [answers] says. *)
Definition labelEnv (answers : Client -> LabelValuesResponse + error) : Collaborators :=
  {| respSet := list SeriesResponse;
     re_match := literalRegexp;
     matchesExternalLabels := specMatchesExternalLabels literalRegexp;
     PromMatchersToMatchers := map toLabelMatcher;
     MatchersForLabelSets := fun _ => [];
     newAsyncRespSet := fun st _ => openingWith [] st;
     mergedResponses := @concat SeriesResponse;
     srvSend := fun _ _ => None;
     Hash := exampleHash;
     clientLabelValues := fun st _ => answers st;
     MergeUnsortedSlices := @concat string |}.

(** [g-0] does not answer label calls; the others know one value. *)
Definition valuesAnswers (st : Client) : LabelValuesResponse + error :=
  if String.eqb (ClientString st) "g-0" then inr (GoError "unavailable")
  else inl {| lv_Values := [ClientString st]; lv_Warnings := [] |}.

Definition namesAnswers (st : Client) (r : LabelNamesRequest) : LabelNamesResponse + error :=
  if String.eqb (ClientString st) "g-0" then inr (GoError "unavailable")
  else inl {| ln_Names := ["job"]; ln_Warnings := [] |}.

Definition valuesRequest (disabled : bool) : LabelValuesRequest :=
  {| lv_Label := "job"; lv_PartialResponseDisabled := disabled; lv_Start := 0; lv_End := 100;
     lv_Matchers := []; lv_WithoutReplicaLabels := [] |}.

Definition namesRequest (disabled : bool) : LabelNamesRequest :=
  {| ln_PartialResponseDisabled := disabled; ln_Start := 0; ln_End := 100;
     ln_Matchers := []; ln_WithoutReplicaLabels := [] |}.

(** A backend whose TSDB is not initialised. *)
Definition freshStore : Client := backend "fresh" "f" "f" MaxInt64 MaxInt64.

(** A gateway timeout, as the frontend reports it. *)
Definition gatewayTimeout : error := GoError "Code(504)".

(** ** The filters *)

Section Filters.
Context {env : Collaborators}.

Lemma notMatched_true (matchers : list Matcher) (ls : Labels) :
  notMatched matchers ls = true <-> exists m, In m matchers /\ failsLabelSet m ls.
Proof.
  unfold failsLabelSet. induction matchers as [|m rest IH]; simpl.
  - split; [discriminate | intros (m & [] & _)].
  - destruct (Has ls (m_Name m)) eqn:Hhas; simpl.
    + destruct (Matches m (Get ls (m_Name m))) eqn:Hm; simpl.
      * rewrite IH. split.
        -- intros (m' & Hin & Hf). exists m'. split; [right|]; assumption.
        -- intros (m' & [<- | Hin] & Hh & Hf); [congruence|].
           exists m'. repeat split; assumption.
      * split; [|reflexivity]. intros _. exists m. split; [left; reflexivity|].
        split; assumption.
    + rewrite IH. split.
      * intros (m' & Hin & Hf). exists m'. split; [right|]; assumption.
      * intros (m' & [<- | Hin] & Hh & Hf); [congruence|].
        exists m'. repeat split; assumption.
Qed.

Lemma notMatched_false (matchers : list Matcher) (ls : Labels) :
  notMatched matchers ls = false <-> forall m, In m matchers -> ~ failsLabelSet m ls.
Proof.
  rewrite <- not_true_iff_false, notMatched_true. split.
  - intros Hn m Hin Hf. apply Hn. exists m. split; assumption.
  - intros Hall (m & Hin & Hf). exact (Hall m Hin Hf).
Qed.

Lemma labelSetsMatch_loop_true (matchers : list Matcher) (lset : list Labels) :
  labelSetsMatch_loop matchers lset = true <->
  exists ls, In ls lset /\ forall m, In m matchers -> ~ failsLabelSet m ls.
Proof.
  induction lset as [|ls rest IH]; simpl.
  - split; [discriminate | intros (ls & [] & _)].
  - destruct (notMatched matchers ls) eqn:Hnm; simpl.
    + rewrite IH. split.
      * intros (ls' & Hin & Hall). exists ls'. split; [right|]; assumption.
      * intros (ls' & [<- | Hin] & Hall).
        -- apply notMatched_false in Hall. congruence.
        -- exists ls'. split; assumption.
    + split; [|reflexivity]. intros _. exists ls. split; [left; reflexivity|].
      apply notMatched_false. exact Hnm.
Qed.

Lemma labelSetsMatch_true (matchers : list Matcher) (lset : list Labels) :
  labelSetsMatch matchers lset = true <->
  lset = [] \/
  exists ls, In ls lset /\ forall m, In m matchers -> ~ failsLabelSet m ls.
Proof.
  unfold labelSetsMatch. destruct lset as [|ls rest].
  - simpl. split; [left; reflexivity | reflexivity].
  - change (length (ls :: rest) =? 0)%nat with false. cbv iota.
    rewrite labelSetsMatch_loop_true. split.
    + intros H. right. exact H.
    + intros [Hnil | H]; [discriminate | exact H].
Qed.

(** C7. [labelSetsMatch] accepts exactly when the backend announces no label
    set at all, or when some announced label set is failed by no matcher, a
    matcher failing a set that has its name under a value it rejects. *)
Theorem labelSetsMatch_accepts (matchers : list Matcher) (lset : list Labels) :
  (labelSetsMatch matchers lset = true <->
     lset = [] \/
     exists ls, In ls lset /\ forall m, In m matchers -> ~ failsLabelSet m ls)
  /\ labelSetsMatch matchers [] = true.
Proof.
  split; [apply labelSetsMatch_true | reflexivity].
Qed.

(** The disjunction the debug filter accumulates over the matcher groups. *)
Lemma fold_left_orb {A : Type} (f : A -> bool) (l : list A) (b : bool) :
  fold_left (fun acc x => acc || f x) l b = b || existsb f l.
Proof.
  revert b. induction l as [|x l IH]; intros b; simpl.
  - rewrite orb_false_r. reflexivity.
  - rewrite IH, orb_assoc. reflexivity.
Qed.

(** One matcher group against the label set [{__address__ = addr}]: only the
    matchers on [__address__] constrain the address. *)
Lemma labelSetsMatch_address (sm : list Matcher) (addr : string) :
  labelSetsMatch sm [FromStrings "__address__" addr] = true <->
  forall m, In m sm -> m_Name m = "__address__" -> Matches m addr = true.
Proof.
  rewrite labelSetsMatch_true.
  unfold failsLabelSet, FromStrings. split.
  - intros [Hnil | (ls & [<- | []] & Hall)]; [discriminate|].
    intros m Hin Hname. specialize (Hall m Hin). cbn [Has Get] in Hall.
    rewrite Hname, String.eqb_refl in Hall.
    destruct (Matches m addr); [reflexivity|]. exfalso. apply Hall. split; reflexivity.
  - intros Hall. right. exists [("__address__", addr)]. split; [left; reflexivity|].
    intros m Hin [Hhas Hm]. cbn [Has Get] in Hhas, Hm.
    destruct (String.eqb "__address__" (m_Name m)) eqn:Heq; [|discriminate].
    apply String.eqb_eq in Heq. rewrite (Hall m Hin (eq_sym Heq)) in Hm. discriminate.
Qed.

(** [storeMatchDebugMetadata] on a non-empty list of groups. *)
Lemma storeMatchDebugMetadata_groups (s : Client) (groups : list (list Matcher)) :
  groups <> [] ->
  storeMatchDebugMetadata s groups =
  negb (snd (Addr s))
  && existsb (fun sm => labelSetsMatch sm [FromStrings "__address__" (fst (Addr s))]) groups.
Proof.
  intros Hne. unfold storeMatchDebugMetadata.
  destruct groups as [|sm groups]; [congruence|].
  change (length (sm :: groups) =? 0)%nat with false. cbv iota.
  destruct (Addr s) as [addr isLocal]. simpl fst. simpl snd.
  destruct isLocal; [reflexivity|].
  rewrite fold_left_orb. cbn [orb existsb negb andb].
  match goal with |- (if negb ?b then _ else _) = _ => destruct b end; reflexivity.
Qed.


(** A remote backend is kept whenever the matchers that name [__address__]
    accept its address in one group; matchers on other names are ignored. *)
Lemma storeMatchDebugMetadata_remote (s : Client) (groups : list (list Matcher)) :
  groups <> [] ->
  snd (Addr s) = false ->
  (storeMatchDebugMetadata s groups = true <->
   exists sm, In sm groups /\
     forall m, In m sm -> m_Name m = "__address__" -> Matches m (fst (Addr s)) = true).
Proof.
  intros Hne Hremote. rewrite (storeMatchDebugMetadata_groups s groups Hne), Hremote.
  simpl negb. rewrite andb_true_l, existsb_exists.
  split; intros (sm & Hin & H); exists sm; (split; [assumption|]);
    apply labelSetsMatch_address; exact H.
Qed.

End Filters.

(** ** The preamble and the selection of [Series] *)

Section Selection.
Context {env : Collaborators}.

Lemma storeMatches_time (ctx : option CtxValue) (st : Client) (mint maxt : Z)
    (matchers : list Matcher) :
  (~ timeOverlap mint maxt st -> storeMatches ctx st mint maxt matchers = false)
  /\ (timeOverlap mint maxt st ->
      storeMatches ctx st mint maxt matchers =
      storeMatchDebugMetadata st (storeDebugMatcherOf ctx)
      && labelSetsMatch matchers (LabelSets st)).
Proof.
  unfold timeOverlap, storeMatches. destruct (TimeRange st) as [storeMinTime storeMaxTime].
  simpl fst. simpl snd.
  destruct (Z.gtb_spec mint storeMaxTime) as [Hgt | Hle];
    destruct (Z.ltb_spec maxt storeMinTime) as [Hlt | Hge]; simpl orb; cbv iota;
    split; intros H; try reflexivity; try (exfalso; lia).
  destruct (storeMatchDebugMetadata st (storeDebugMatcherOf ctx)); simpl; [|reflexivity].
  destruct (labelSetsMatch matchers (LabelSets st)); reflexivity.
Qed.

(** The selection loop keeps, in snapshot order, the backends that pass
    [storeMatches] and the TSDB selector. *)
Lemma selectStores_stores (s : ProxyStore) (ctx : option CtxValue) (req : SeriesRequest)
    (matchers : list Matcher) (snapshot : list Client) (acc : Selection) :
  sel_stores (selectStores s ctx req matchers snapshot acc) =
  sel_stores acc ++ List.filter (survives s ctx req matchers) snapshot.
Proof.
  revert acc. induction snapshot as [|st rest IH]; intros acc; simpl.
  - rewrite app_nil_r. reflexivity.
  - unfold survives at 1.
    destruct (storeMatches ctx st (MinTime req) (MaxTime req) matchers); simpl.
    + destruct (tsdbSelector s (LabelSets st)) as [matches extraMatchers]. simpl.
      destruct matches; simpl.
      * rewrite IH. simpl. rewrite <- app_assoc. reflexivity.
      * apply IH.
    + apply IH.
Qed.

Lemma filter_none {A : Type} (f : A -> bool) (l : list A) :
  (forall x, In x l -> f x = false) -> List.filter f l = [].
Proof.
  induction l as [|x l IH]; intros H; simpl; [reflexivity|].
  rewrite (H x (or_introl eq_refl)). apply IH. intros y Hy. apply H. right. exact Hy.
Qed.

(** C6. The time filter of [storeMatches] rejects a backend whose range does
    not overlap the request and otherwise leaves the decision to the other
    filters: a backend is kept by it iff [min_time <= backend max] and
    [max_time >= backend min]. When no backend survives the filters, [Series]
    returns success and sends no response. *)
Theorem time_filter_and_empty_selection (s : ProxyStore) (ctx : option CtxValue)
    (req : SeriesRequest) (matchers : list Matcher) :
  (forall st mint maxt ms,
     (storeMatches ctx st mint maxt ms = true ->
        (mint <= snd (TimeRange st))%Z /\ (maxt >= fst (TimeRange st))%Z)
     /\ ((mint <= snd (TimeRange st))%Z /\ (maxt >= fst (TimeRange st))%Z ->
         storeMatches ctx st mint maxt ms =
         storeMatchDebugMetadata st (storeDebugMatcherOf ctx)
         && labelSetsMatch ms (LabelSets st)))
  /\ (matchesExternalLabels (Matchers req) (selectorLabels s) = (true, matchers, None) ->
      matchers <> [] ->
      (forall st, In st (stores s) -> survives s ctx req matchers st = false) ->
      fst (Series s ctx req) = None
      /\ sentResponses (snd (Series s ctx req)) = []
      /\ contacted (snd (Series s ctx req)) = []).
Proof.
  split.
  - intros st mint maxt ms. destruct (storeMatches_time ctx st mint maxt ms) as [Hno Hyes].
    split; [|exact Hyes].
    intros Hkept. unfold timeOverlap in Hno.
    destruct (Z.le_gt_cases mint (snd (TimeRange st))) as [H1 | H1];
      destruct (Z.le_gt_cases (fst (TimeRange st)) maxt) as [H2 | H2];
      try (split; lia);
      rewrite Hno in Hkept by lia; discriminate.
  - intros Hpre Hne Hnone. unfold Series. rewrite Hpre. simpl negb. cbv iota.
    destruct matchers as [|m ms]; [congruence|].
    change (length (m :: ms) =? 0)%nat with false. cbv iota.
    rewrite selectStores_stores, (filter_none _ _ Hnone). simpl.
    repeat split; reflexivity.
Qed.

(** C5. When the reduction of the request matchers against the selector
    labels reports an inconsistency, [Series] returns success, sends nothing
    and contacts no backend; when the reduction leaves no matcher, [Series]
    returns an [InvalidArgument] error, again without contacting a backend. *)
Theorem Series_preamble (s : ProxyStore) (ctx : option CtxValue) (req : SeriesRequest) :
  (forall ms,
     matchesExternalLabels (Matchers req) (selectorLabels s) = (false, ms, None) ->
     fst (Series s ctx req) = None
     /\ sentResponses (snd (Series s ctx req)) = []
     /\ contacted (snd (Series s ctx req)) = []
     /\ snapshotTaken (snd (Series s ctx req)) = false)
  /\ (matchesExternalLabels (Matchers req) (selectorLabels s) = (true, [], None) ->
      (exists desc, fst (Series s ctx req) = Some (StatusError InvalidArgument desc))
      /\ sentResponses (snd (Series s ctx req)) = []
      /\ contacted (snd (Series s ctx req)) = []
      /\ snapshotTaken (snd (Series s ctx req)) = false).
Proof.
  split.
  - intros ms Hpre. unfold Series. rewrite Hpre. simpl. repeat split; reflexivity.
  - intros Hpre. unfold Series. rewrite Hpre. simpl. repeat split; try reflexivity.
    eexists. reflexivity.
Qed.

(** C10. A [LabelValues] request with an empty label name is answered at once
    with an [InvalidArgument] error: no snapshot is taken and no backend is
    contacted. *)
Theorem LabelValues_empty_label (s : ProxyStore) (ctx : option CtxValue)
    (r : LabelValuesRequest) :
  lv_Label r = "" ->
  fst (LabelValues s ctx r)
    = inr (StatusError InvalidArgument "label name parameter cannot be empty")
  /\ snapshotTaken (snd (LabelValues s ctx r)) = false
  /\ contacted (snd (LabelValues s ctx r)) = [].
Proof.
  intros Hlabel. unfold LabelValues. rewrite Hlabel. simpl. repeat split; reflexivity.
Qed.

(** With a label name, [LabelValues] does take the snapshot. *)
Lemma LabelValues_takes_snapshot (s : ProxyStore) (ctx : option CtxValue)
    (r : LabelValuesRequest) :
  lv_Label r <> "" -> snapshotTaken (snd (LabelValues s ctx r)) = true.
Proof.
  intros Hlabel. unfold LabelValues.
  destruct (String.eqb_spec (lv_Label r) "") as [Heq | _]; [congruence|].
  assert (Hfan : forall snapshot st0,
            snapshotTaken (lvs_trace st0) = true ->
            snapshotTaken (lvs_trace (labelValuesFanout s ctx r snapshot st0)) = true).
  { assert (Happ : forall tr ev, snapshotTaken tr = true -> snapshotTaken (tr ++ [ev]) = true).
    { induction tr as [|e tr IH]; intros ev H; [discriminate|].
      destruct e; simpl in *; auto. }
    induction snapshot as [|st rest IH]; intros st0 H0; simpl; [exact H0|].
    destruct (storeMatches ctx st (lv_Start r) (lv_End r) []); simpl; [|apply IH; exact H0].
    destruct (tsdbSelector s (LabelSets st)) as [matches extra].
    destruct matches; simpl; [|apply IH; exact H0].
    destruct (clientLabelValues st _) as [resp | err].
    - apply IH. simpl. apply Happ. exact H0.
    - destruct (lv_PartialResponseDisabled r); apply IH; simpl; apply Happ; exact H0. }
  match goal with |- context [labelValuesFanout s ctx r (stores s) ?i] =>
    specialize (Hfan (stores s) i eq_refl);
    destruct (lvs_err (labelValuesFanout s ctx r (stores s) i)) end; exact Hfan.
Qed.

End Selection.

(** ** The failure counters *)

Section Counters.

Lemma inner_bump_same (g r : string) (mp : gmap string (gmap string nat)) :
  default (∅ : gmap string nat) (bumpCounter g r mp !! g) =
  <[r := S (countOf mp g r)]> (default (∅ : gmap string nat) (mp !! g)).
Proof. unfold bumpCounter, countOf. rewrite lookup_insert_eq. reflexivity. Qed.

Lemma inner_bump_other (g r g' : string) (mp : gmap string (gmap string nat)) :
  g <> g' ->
  default (∅ : gmap string nat) (bumpCounter g r mp !! g') =
  default (∅ : gmap string nat) (mp !! g').
Proof. intros Hne. unfold bumpCounter. rewrite lookup_insert_ne by exact Hne. reflexivity. Qed.

Lemma countOf_bump_same (g r : string) (mp : gmap string (gmap string nat)) :
  countOf (bumpCounter g r mp) g r = S (countOf mp g r).
Proof.
  unfold countOf at 1. rewrite inner_bump_same, lookup_insert_eq. reflexivity.
Qed.

Lemma countOf_bump_other_group (g r g' r' : string) (mp : gmap string (gmap string nat)) :
  g <> g' -> countOf (bumpCounter g r mp) g' r' = countOf mp g' r'.
Proof. intros Hne. unfold countOf. rewrite inner_bump_other by exact Hne. reflexivity. Qed.

Lemma countOf_bump_other_replica (g r r' : string) (mp : gmap string (gmap string nat)) :
  r <> r' -> countOf (bumpCounter g r mp) g r' = countOf mp g r'.
Proof.
  intros Hne. unfold countOf at 1. rewrite inner_bump_same, lookup_insert_ne by exact Hne.
  reflexivity.
Qed.

Lemma replicasOf_bump_other (g r g' : string) (mp : gmap string (gmap string nat)) :
  g <> g' -> replicasOf (bumpCounter g r mp) g' = replicasOf mp g'.
Proof. intros Hne. unfold replicasOf. rewrite inner_bump_other by exact Hne. reflexivity. Qed.

(** A replica counted for the first time makes its group one larger. *)
Lemma replicasOf_bump_fresh (g r : string) (mp : gmap string (gmap string nat)) :
  default (∅ : gmap string nat) (mp !! g) !! r = None ->
  replicasOf (bumpCounter g r mp) g = S (replicasOf mp g).
Proof.
  intros Hfresh. unfold replicasOf. rewrite inner_bump_same.
  apply map_size_insert_None. exact Hfresh.
Qed.

(** A replica already counted leaves the size of its group unchanged. *)
Lemma replicasOf_bump_known (g r : string) (mp : gmap string (gmap string nat)) :
  is_Some (default (∅ : gmap string nat) (mp !! g) !! r) ->
  replicasOf (bumpCounter g r mp) g = replicasOf mp g.
Proof.
  intros Hknown. unfold replicasOf. rewrite inner_bump_same.
  apply map_size_insert_Some. exact Hknown.
Qed.

Lemma replicasOf_empty (g : string) : replicasOf ∅ g = 0%nat.
Proof. unfold replicasOf. rewrite lookup_empty. simpl. apply map_size_empty. Qed.

Lemma countOf_empty (g r : string) : countOf ∅ g r = 0%nat.
Proof. unfold countOf. rewrite lookup_empty. simpl. rewrite lookup_empty. reflexivity. Qed.

End Counters.

(** ** The fan-out loop of [Series] *)

Section Fanout.
Context {env : Collaborators}.

Lemma sentResponses_app (tr1 tr2 : list Event) :
  sentResponses (tr1 ++ tr2) = sentResponses tr1 ++ sentResponses tr2.
Proof.
  induction tr1 as [|ev tr1 IH]; simpl; [reflexivity|].
  destruct ev; simpl; rewrite IH; reflexivity.
Qed.

Lemma contacted_app (tr1 tr2 : list Event) :
  contacted (tr1 ++ tr2) = contacted tr1 ++ contacted tr2.
Proof.
  induction tr1 as [|ev tr1 IH]; simpl; [reflexivity|].
  destruct ev; simpl; rewrite IH; reflexivity.
Qed.

Lemma checkGroupReplicaErrors_spec (eligible failed : gmap string (gmap string nat))
    (st : Client) (err : error) :
  (groupReplicaAbort eligible failed st ->
     checkGroupReplicaErrors eligible failed st err = Some err)
  /\ (~ groupReplicaAbort eligible failed st ->
      checkGroupReplicaErrors eligible failed st err = None).
Proof.
  unfold groupReplicaAbort, checkGroupReplicaErrors.
  destruct (Nat.ltb_spec 1 (replicasOf failed (GroupKey st))) as [H1 | H1].
  - split; [reflexivity|]. intros Hn. exfalso. apply Hn. left. exact H1.
  - destruct (Nat.eqb_spec (replicasOf eligible (GroupKey st)) 1) as [H2 | H2];
      destruct (Nat.ltb_spec 1 (countOf failed (GroupKey st) (ReplicaKey st))) as [H3 | H3];
      simpl; split; try reflexivity; intros H;
      try (exfalso; apply H; right; split; assumption);
      try (exfalso; destruct H as [H | [Ha Hb]]; lia).
Qed.

(** One iteration of the fan-out loop on a backend that fails to open, under
    policy [group_replica]. *)
Lemma openStores_group_replica_step (r : SeriesRequest)
    (eligible : gmap string (gmap string nat)) (st : Client) (rest : list Client)
    (st0 : FanoutState) (rs : respSet) (e : error) :
  PartialResponseStrategy_ r = PartialResponseStrategy_GROUP_REPLICA ->
  newAsyncRespSet st r = (rs, Some e) ->
  openStores r eligible (st :: rest) st0 =
  match checkGroupReplicaErrors eligible
          (failedStores (recordFailure st (logEvent (EvOpen st) st0))) st e with
  | Some _ => (Some e, recordFailure st (logEvent (EvOpen st) st0))
  | None => openStores r eligible rest
              (keepRespSet rs (recordFailure st (logEvent (EvOpen st) st0)))
  end.
Proof.
  intros Hpolicy Hopen. cbn [openStores]. rewrite Hopen, Hpolicy. reflexivity.
Qed.

(** C3. Under policy [group_replica], when a backend fails to open, the
    group-replica check aborts the request iff more than one replica of the
    backend's group has failed, or the group has exactly one eligible replica
    and that replica has failed more than once; otherwise the failure is
    tolerated and the loop goes on with the remaining backends. *)
Theorem group_replica_check_decides (r : SeriesRequest)
    (eligible : gmap string (gmap string nat)) (st : Client) (rest : list Client)
    (st0 : FanoutState) (rs : respSet) (e : error) :
  PartialResponseStrategy_ r = PartialResponseStrategy_GROUP_REPLICA ->
  newAsyncRespSet st r = (rs, Some e) ->
  let counted := recordFailure st (logEvent (EvOpen st) st0) in
  let failed := failedStores counted in
  let abort :=
    (1 < replicasOf failed (GroupKey st))%nat
    \/ (replicasOf eligible (GroupKey st) = 1%nat
        /\ (1 < countOf failed (GroupKey st) (ReplicaKey st))%nat) in
  failed = bumpCounter (GroupKey st) (ReplicaKey st) (failedStores st0)
  /\ (checkGroupReplicaErrors eligible failed st e <> None <-> abort)
  /\ (abort -> openStores r eligible (st :: rest) st0 = (Some e, counted))
  /\ (~ abort ->
      openStores r eligible (st :: rest) st0 =
      openStores r eligible rest (keepRespSet rs counted)).
Proof.
  intros Hpolicy Hopen counted failed abort.
  destruct (checkGroupReplicaErrors_spec eligible failed st e) as [Hyes Hno].
  fold abort in Hyes, Hno. change (groupReplicaAbort eligible failed st) with abort in *.
  pose proof (openStores_group_replica_step r eligible st rest st0 rs e Hpolicy Hopen) as Hstep.
  fold counted in Hstep. fold failed in Hstep.
  split; [reflexivity|]. split; [|split].
  - split.
    + intros Hsome. assert (Hdec : abort \/ ~ abort) by (unfold abort; lia).
      destruct Hdec as [Ha | Hn]; [exact Ha|].
      rewrite (Hno Hn) in Hsome. congruence.
    + intros Ha. rewrite (Hyes Ha). discriminate.
  - intros Ha. rewrite Hstep, (Hyes Ha). reflexivity.
  - intros Hn. rewrite Hstep, (Hno Hn). reflexivity.
Qed.

End Fanout.

(** ** The partial-response policy *)

Section PartialResponse.
Context {env : Collaborators}.

(** A backend that opens is kept and the loop goes on. *)
Lemma openStores_opened (r : SeriesRequest) (eligible : gmap string (gmap string nat))
    (st : Client) (rest : list Client) (st0 : FanoutState) :
  openError r st = None ->
  openStores r eligible (st :: rest) st0 =
  openStores r eligible rest
    (keepRespSet (fst (newAsyncRespSet st r)) (logEvent (EvOpen st) st0)).
Proof.
  unfold openError. intros Hopen. cbn [openStores].
  destruct (newAsyncRespSet st r) as [rs err]. simpl in Hopen. subst err. reflexivity.
Qed.

(** The branch of the fan-out loop taken outside policy [group_replica]. *)
Lemma openStores_failed (r : SeriesRequest) (eligible : gmap string (gmap string nat))
    (st : Client) (rest : list Client) (st0 : FanoutState) (e : error) :
  is_GROUP_REPLICA (PartialResponseStrategy_ r) = false ->
  openError r st = Some e ->
  openStores r eligible (st :: rest) st0 =
  let counted := recordFailure st (logEvent (EvOpen st) st0) in
  if negb (PartialResponseDisabled r) || is_WARN (PartialResponseStrategy_ r) then
    match srvSend (sentResponses (trace counted)) (NewWarnSeriesResponse e) with
    | Some e' => (Some e', logEvent (EvSend (NewWarnSeriesResponse e)) counted)
    | None => openStores r eligible rest (logEvent (EvSend (NewWarnSeriesResponse e)) counted)
    end
  else (Some e, counted).
Proof.
  unfold openError. intros Hpolicy Hopen. cbn [openStores].
  destruct (newAsyncRespSet st r) as [rs err]. simpl in Hopen. subst err.
  rewrite Hpolicy. reflexivity.
Qed.

Lemma openStores_abort_loop (r : SeriesRequest) (eligible : gmap string (gmap string nat))
    (pre : list Client) (st : Client) (rest : list Client) (e : error) :
  PartialResponseStrategy_ r = PartialResponseStrategy_ABORT ->
  PartialResponseDisabled r = true ->
  (forall c, In c pre -> openError r c = None) ->
  openError r st = Some e ->
  forall st0, exists st1,
    openStores r eligible (pre ++ st :: rest) st0 = (Some e, st1)
    /\ sentResponses (trace st1) = sentResponses (trace st0)
    /\ contacted (trace st1) = contacted (trace st0) ++ pre ++ [st].
Proof.
  intros Hpolicy Hdisabled Hpre Hfail.
  induction pre as [|c pre IH]; intros st0.
  - simpl app. rewrite (openStores_failed r eligible st rest st0 e); [|rewrite Hpolicy; reflexivity|exact Hfail].
    cbv zeta. rewrite Hdisabled, Hpolicy. simpl.
    eexists. split; [reflexivity|]. simpl.
    rewrite sentResponses_app, contacted_app. simpl. rewrite app_nil_r. split; reflexivity.
  - simpl app. rewrite openStores_opened by (apply Hpre; left; reflexivity).
    destruct (IH (fun c' Hc' => Hpre c' (or_intror Hc'))
                 (keepRespSet (fst (newAsyncRespSet c r)) (logEvent (EvOpen c) st0)))
      as (st1 & Hrun & Hsent & Hcont).
    exists st1. split; [exact Hrun|]. rewrite Hsent, Hcont. simpl.
    rewrite sentResponses_app, contacted_app. simpl.
    rewrite app_nil_r, <- app_assoc. split; reflexivity.
Qed.

Lemma openStores_warn_loop (r : SeriesRequest) (eligible : gmap string (gmap string nat)) :
  is_GROUP_REPLICA (PartialResponseStrategy_ r) = false ->
  negb (PartialResponseDisabled r) || is_WARN (PartialResponseStrategy_ r) = true ->
  (forall sent resp, srvSend sent resp = None) ->
  forall sts st0, exists st1,
    openStores r eligible sts st0 = (None, st1)
    /\ sentResponses (trace st1) = sentResponses (trace st0) ++ openWarnings r sts
    /\ contacted (trace st1) = contacted (trace st0) ++ sts
    /\ storeResponses st1 = storeResponses st0 ++ openedSets r sts.
Proof.
  intros Hpolicy Hwarn Hsend.
  induction sts as [|st rest IH]; intros st0.
  - exists st0. simpl. rewrite !app_nil_r. repeat split; reflexivity.
  - unfold openWarnings, openedSets. cbn [flat_map].
    fold (openWarnings r rest). fold (openedSets r rest).
    destruct (openError r st) as [e|] eqn:Hopen.
    + rewrite (openStores_failed r eligible st rest st0 e Hpolicy Hopen).
      cbv zeta. rewrite Hwarn, Hsend.
      destruct (IH (logEvent (EvSend (NewWarnSeriesResponse e))
                      (recordFailure st (logEvent (EvOpen st) st0))))
        as (st1 & Hrun & Hsent & Hcont & Hsets).
      exists st1. split; [exact Hrun|]. rewrite Hsent, Hcont, Hsets. simpl.
      rewrite !sentResponses_app, !contacted_app. simpl.
      rewrite !app_nil_r, <- !app_assoc. repeat split; reflexivity.
    + rewrite (openStores_opened r eligible st rest st0 Hopen).
      destruct (IH (keepRespSet (fst (newAsyncRespSet st r)) (logEvent (EvOpen st) st0)))
        as (st1 & Hrun & Hsent & Hcont & Hsets).
      exists st1. split; [exact Hrun|]. rewrite Hsent, Hcont, Hsets. simpl.
      rewrite !sentResponses_app, !contacted_app. simpl.
      rewrite !app_nil_r, <- !app_assoc. repeat split; reflexivity.
Qed.


(** C2, as the code has it. For a frame with a non-empty warning pulled from
    the merged stream the failure total is incremented; then, under policy
    [group_replica] (whatever [partial_response_disabled] says), [Series]
    aborts with [Aborted] iff the total exceeds 1; under another policy it
    aborts with [Aborted] when the policy is [abort] or
    [partial_response_disabled] is set; under [warn] with the flag clear the
    frame is forwarded and the loop goes on. *)
Theorem stream_warning_policy (r : SeriesRequest) (resp : SeriesResponse)
    (rest : list SeriesResponse) (st0 : FanoutState) :
  GetWarning resp <> "" ->
  let counted := bumpTotal st0 in
  let aborted := (Some (StatusError Aborted (GetWarning resp)), counted) in
  let forwarded := mergeLoop r rest (logEvent (EvSend resp) counted) in
  totalFailedStores counted = S (totalFailedStores st0)
  /\ (PartialResponseStrategy_ r = PartialResponseStrategy_GROUP_REPLICA ->
      ((1 < totalFailedStores counted)%nat -> mergeLoop r (resp :: rest) st0 = aborted)
      /\ (~ (1 < totalFailedStores counted)%nat ->
          srvSend (sentResponses (trace st0)) resp = None ->
          mergeLoop r (resp :: rest) st0 = forwarded))
  /\ (PartialResponseStrategy_ r = PartialResponseStrategy_ABORT
      \/ (PartialResponseStrategy_ r = PartialResponseStrategy_WARN
          /\ PartialResponseDisabled r = true) ->
      mergeLoop r (resp :: rest) st0 = aborted)
  /\ (PartialResponseStrategy_ r = PartialResponseStrategy_WARN ->
      PartialResponseDisabled r = false ->
      srvSend (sentResponses (trace st0)) resp = None ->
      mergeLoop r (resp :: rest) st0 = forwarded).
Proof.
  intros Hwarning counted aborted forwarded.
  assert (Hnonempty : negb (String.eqb (GetWarning resp) "") = true).
  { destruct (String.eqb_spec (GetWarning resp) ""); [contradiction | reflexivity]. }
  split; [reflexivity|]. split; [|split].
  - intros Hpolicy. split.
    + intros Hmany. cbn [mergeLoop]. unfold onWarning. rewrite Hnonempty, Hpolicy.
      cbn [is_GROUP_REPLICA]. fold counted.
      apply Nat.ltb_lt in Hmany. rewrite Hmany. reflexivity.
    + intros Hfew Hsend. cbn [mergeLoop]. unfold onWarning. rewrite Hnonempty, Hpolicy.
      cbn [is_GROUP_REPLICA]. fold counted.
      apply Nat.ltb_nlt in Hfew. rewrite Hfew.
      change (trace counted) with (trace st0). rewrite Hsend. reflexivity.
  - intros Hcase. cbn [mergeLoop]. unfold onWarning. rewrite Hnonempty.
    destruct Hcase as [-> | [-> ->]]; cbn [is_GROUP_REPLICA is_ABORT orb].
    + rewrite orb_true_r. reflexivity.
    + reflexivity.
  - intros Hpolicy Hflag Hsend. cbn [mergeLoop]. unfold onWarning.
    rewrite Hnonempty, Hpolicy, Hflag. cbn [is_GROUP_REPLICA is_ABORT orb].
    change (trace (bumpTotal st0)) with (trace st0). rewrite Hsend. reflexivity.
Qed.

(** C4, as the code has it. Under policy [group_replica], with group [g] of
    replicas [a], [b] and group [h] of the single replica [c]: when [a] fails
    to open and then [c] fails to open, once each, the check tolerates both
    failures and the fan-out loop ends without an error and without a frame
    sent, two failures counted. *)
Theorem solitary_group_first_failure_tolerated (r : SeriesRequest) (a b c : Client)
    (rsa rsb rsc : respSet) (ea ec : error) :
  PartialResponseStrategy_ r = PartialResponseStrategy_GROUP_REPLICA ->
  GroupKey a = GroupKey b ->
  ReplicaKey a <> ReplicaKey b ->
  GroupKey c <> GroupKey a ->
  newAsyncRespSet a r = (rsa, Some ea) ->
  newAsyncRespSet b r = (rsb, None) ->
  newAsyncRespSet c r = (rsc, Some ec) ->
  let eligible := eligibleOf [a; b; c] in
  let failed :=
    bumpCounter (GroupKey c) (ReplicaKey c) (bumpCounter (GroupKey a) (ReplicaKey a) ∅) in
  replicasOf eligible (GroupKey c) = 1%nat
  /\ countOf failed (GroupKey c) (ReplicaKey c) = 1%nat
  /\ checkGroupReplicaErrors eligible failed c ec = None
  /\ exists st1,
       openStores r eligible [a; b; c] initialFanout = (None, st1)
       /\ failedStores st1 = failed
       /\ totalFailedStores st1 = 2%nat
       /\ sentResponses (trace st1) = []
       /\ contacted (trace st1) = [a; b; c].
Proof.
  intros Hpolicy Hgroup Hreplica Hother Ha Hb Hc eligible failed.
  assert (Hother' : GroupKey c <> GroupKey b) by congruence.
  assert (Helig_c : replicasOf eligible (GroupKey c) = 1%nat).
  { unfold eligible, eligibleOf. cbn [fold_left].
    rewrite replicasOf_bump_fresh.
    - rewrite !replicasOf_bump_other by congruence. rewrite replicasOf_empty. reflexivity.
    - rewrite !inner_bump_other by congruence. rewrite lookup_empty. reflexivity. }
  assert (Helig_a : replicasOf eligible (GroupKey a) = 2%nat).
  { unfold eligible, eligibleOf. cbn [fold_left].
    rewrite replicasOf_bump_other by exact Hother. rewrite <- Hgroup.
    rewrite replicasOf_bump_fresh.
    - rewrite replicasOf_bump_fresh; [rewrite replicasOf_empty; reflexivity|].
      rewrite lookup_empty. reflexivity.
    - rewrite inner_bump_same, lookup_insert_ne by exact Hreplica.
      rewrite lookup_empty. reflexivity. }
  assert (Hfailed_a : replicasOf (bumpCounter (GroupKey a) (ReplicaKey a) ∅) (GroupKey a) = 1%nat).
  { rewrite replicasOf_bump_fresh; [rewrite replicasOf_empty; reflexivity|].
    rewrite lookup_empty. reflexivity. }
  assert (Hfailed_c : replicasOf failed (GroupKey c) = 1%nat).
  { unfold failed. rewrite replicasOf_bump_fresh.
    - rewrite replicasOf_bump_other by congruence. rewrite replicasOf_empty. reflexivity.
    - rewrite inner_bump_other by congruence. rewrite lookup_empty. reflexivity. }
  assert (Hcount_c : countOf failed (GroupKey c) (ReplicaKey c) = 1%nat).
  { unfold failed. rewrite countOf_bump_same, countOf_bump_other_group by congruence.
    rewrite countOf_empty. reflexivity. }
  assert (Hcheck_a : checkGroupReplicaErrors eligible
                       (bumpCounter (GroupKey a) (ReplicaKey a) ∅) a ea = None).
  { apply checkGroupReplicaErrors_spec. unfold groupReplicaAbort.
    rewrite Hfailed_a, Helig_a. lia. }
  assert (Hcheck_c : checkGroupReplicaErrors eligible failed c ec = None).
  { apply checkGroupReplicaErrors_spec. unfold groupReplicaAbort.
    rewrite Hfailed_c, Helig_c, Hcount_c. lia. }
  split; [exact Helig_c|]. split; [exact Hcount_c|]. split; [exact Hcheck_c|].
  eexists. split.
  - rewrite (openStores_group_replica_step r eligible a _ _ rsa ea Hpolicy Ha).
    cbn [recordFailure logEvent failedStores initialFanout]. rewrite Hcheck_a.
    rewrite openStores_opened by (unfold openError; rewrite Hb; reflexivity).
    rewrite (openStores_group_replica_step r eligible c _ _ rsc ec Hpolicy Hc).
    cbn [recordFailure logEvent keepRespSet failedStores initialFanout]. fold failed.
    rewrite Hcheck_c.
    cbn [openStores]. reflexivity.
  - cbn. repeat split; reflexivity.
Qed.

End PartialResponse.

(** ** Info *)

Section InfoProperties.
Context {env : Collaborators}.

Lemma compare_Gt_neq (a b : string) : String.compare a b = Gt -> b <> a.
Proof.
  intros Hgt Heq. subst b.
  pose proof (String.compare_antisym a a) as H. rewrite Hgt in H. discriminate.
Qed.

Lemma compare_Lt_neq (a b : string) : String.compare a b = Lt -> b <> a.
Proof.
  intros Hlt Heq. subst b.
  pose proof (String.compare_antisym a a) as H. rewrite Hlt in H. discriminate.
Qed.

Lemma Get_setLabel_same (name value : string) (ls : Labels) :
  Get (setLabel name value ls) name = value /\ Has (setLabel name value ls) name = true.
Proof.
  induction ls as [|[n v] rest IH]; cbn [setLabel Get Has].
  - rewrite String.eqb_refl. split; reflexivity.
  - destruct (String.compare name n) eqn:Hcmp; cbn [Get Has].
    + rewrite String.eqb_refl. split; reflexivity.
    + rewrite String.eqb_refl. split; reflexivity.
    + apply compare_Gt_neq, String.eqb_neq in Hcmp. rewrite Hcmp. exact IH.
Qed.

Lemma Get_setLabel_other (name value other : string) (ls : Labels) :
  name <> other ->
  Get (setLabel name value ls) other = Get ls other
  /\ Has (setLabel name value ls) other = Has ls other.
Proof.
  intros Hne. apply String.eqb_neq in Hne.
  induction ls as [|[n v] rest IH]; cbn [setLabel Get Has].
  - rewrite Hne. split; reflexivity.
  - destruct (String.compare name n) eqn:Hcmp; cbn [Get Has].
    + apply String.compare_eq_iff in Hcmp. subst n. rewrite Hne. split; reflexivity.
    + rewrite Hne. split; reflexivity.
    + destruct (String.eqb n other); [split; reflexivity | exact IH].
Qed.

(** Names the selector does not carry keep the value of the label set. *)
Lemma ExtendSortedLabels_keeps (lset extend : Labels) (name : string) :
  Has extend name = false ->
  Get (ExtendSortedLabels lset extend) name = Get lset name
  /\ Has (ExtendSortedLabels lset extend) name = Has lset name.
Proof.
  unfold ExtendSortedLabels. revert lset.
  induction extend as [|[n v] rest IH]; intros lset Hhas; cbn [fold_left fst snd].
  - split; reflexivity.
  - cbn [Has] in Hhas. destruct (String.eqb_spec n name) as [Heq | Hne]; [discriminate|].
    destruct (IH (setLabel n v lset) Hhas) as [-> ->].
    apply Get_setLabel_other. exact Hne.
Qed.

(** Names the selector carries take the selector's value. *)
Lemma ExtendSortedLabels_selector_wins (lset extend : Labels) (name : string) :
  List.NoDup (map fst extend) ->
  Has extend name = true ->
  Get (ExtendSortedLabels lset extend) name = Get extend name
  /\ Has (ExtendSortedLabels lset extend) name = true.
Proof.
  unfold ExtendSortedLabels. revert lset.
  induction extend as [|[n v] rest IH]; intros lset Hnodup Hhas; cbn [fold_left fst snd].
  - discriminate.
  - cbn [Has Get] in *. inversion Hnodup as [|? ? Hnotin Hnodup']; subst.
    destruct (String.eqb_spec n name) as [Heq | Hne].
    + subst n.
      assert (Habsent : Has rest name = false).
      { clear -Hnotin. induction rest as [|[n' v'] rest IH]; [reflexivity|].
        cbn [Has]. destruct (String.eqb_spec n' name) as [-> | Hne].
        - exfalso. apply Hnotin. left. reflexivity.
        - apply IH. intros Hin. apply Hnotin. right. exact Hin. }
      destruct (ExtendSortedLabels_keeps (setLabel name v lset) rest name Habsent) as [Hg Hh].
      unfold ExtendSortedLabels in Hg, Hh. rewrite Hg, Hh. apply Get_setLabel_same.
    + apply IH; assumption.
Qed.

(** The two running bounds of the time-range loop. *)
Lemma timeRange_fold (sts : list Client) (mn mx : Z) :
  let res := fold_left timeRangeStep sts (mn, mx) in
  ((fst res <= mn)%Z
   /\ (forall st, In st sts -> (fst res <= fst (TimeRange st))%Z)
   /\ (fst res = mn \/ exists st, In st sts /\ fst res = fst (TimeRange st)))
  /\ ((mx <= snd res)%Z
      /\ (forall st, In st sts -> (snd (TimeRange st) <= snd res)%Z)
      /\ (snd res = mx \/ exists st, In st sts /\ snd res = snd (TimeRange st))).
Proof.
  revert mn mx. induction sts as [|st rest IH]; intros mn mx; cbn [fold_left].
  - simpl. repeat split; try lia; try (intros st []); left; reflexivity.
  - destruct (TimeRange st) as [mint maxt] eqn:Htr.
    assert (Hstep : timeRangeStep (mn, mx) st =
                    (if (mint <? mn)%Z then mint else mn, if (maxt >? mx)%Z then maxt else mx))
      by (unfold timeRangeStep; rewrite Htr; reflexivity).
    rewrite Hstep. clear Hstep.
    specialize (IH (if (mint <? mn)%Z then mint else mn) (if (maxt >? mx)%Z then maxt else mx)).
    cbv zeta in IH |- *.
    set (res := fold_left timeRangeStep rest
                  (if (mint <? mn)%Z then mint else mn, if (maxt >? mx)%Z then maxt else mx)) in *.
    destruct IH as [(Hle & Hall & Hin) (Hge & Hall' & Hin')].
    assert (Hmint : fst (TimeRange st) = mint) by (rewrite Htr; reflexivity).
    assert (Hmaxt : snd (TimeRange st) = maxt) by (rewrite Htr; reflexivity).
    split; (split; [|split]).
    + destruct (Z.ltb_spec mint mn); lia.
    + intros st' [<- | Hst']; [|apply Hall; exact Hst'].
      rewrite Hmint. destruct (Z.ltb_spec mint mn); lia.
    + destruct Hin as [Hin | (st' & Hst' & Hin)].
      * destruct (Z.ltb_spec mint mn); [|left; exact Hin].
        right. exists st. split; [left; reflexivity|]. rewrite Hmint. exact Hin.
      * right. exists st'. split; [right; exact Hst' | exact Hin].
    + destruct (Z.gtb_spec maxt mx); lia.
    + intros st' [<- | Hst']; [|apply Hall'; exact Hst'].
      rewrite Hmaxt. destruct (Z.gtb_spec maxt mx); lia.
    + destruct Hin' as [Hin' | (st' & Hst' & Hin')].
      * destruct (Z.gtb_spec maxt mx); [|left; exact Hin'].
        right. exists st. split; [left; reflexivity|]. rewrite Hmaxt. exact Hin'.
      * right. exists st'. split; [right; exact Hst' | exact Hin'].
Qed.

End InfoProperties.

Section InfoLabelSets.
Context {env : Collaborators}.

Lemma announce_fold (selector : Labels) (lsets : list Labels) (acc : gmap Z Labels) :
  fold_left (announce selector) lsets acc =
  byHash (map (fun lset => ExtendSortedLabels lset selector) lsets) acc.
Proof.
  unfold byHash. revert acc. induction lsets as [|lset rest IH]; intros acc; simpl.
  - reflexivity.
  - rewrite IH. reflexivity.
Qed.

Lemma mergedLabelSets_byHash (s : ProxyStore) :
  mergedLabelSets (selectorLabels s) (stores s) = byHash (mergedOf s) ∅.
Proof.
  unfold mergedLabelSets, mergedOf. generalize (∅ : gmap Z Labels).
  induction (stores s) as [|st rest IH]; intros acc; simpl.
  - reflexivity.
  - rewrite IH, announce_fold. unfold byHash. rewrite fold_left_app. reflexivity.
Qed.

(** Whatever the map holds under a key came from the list, under its own
    hash, or was there before. *)
Lemma byHash_lookup_inv (l : list Labels) (acc : gmap Z Labels) (k : Z) (v : Labels) :
  byHash l acc !! k = Some v -> (In v l /\ Hash v = k) \/ acc !! k = Some v.
Proof.
  unfold byHash. revert acc. induction l as [|x l IH]; intros acc; simpl.
  - intros H. right. exact H.
  - intros H. destruct (IH _ H) as [[Hin Hk] | Hacc].
    + left. split; [right; exact Hin | exact Hk].
    + destruct (decide (Hash x = k)) as [Heq | Hne].
      * rewrite Heq, lookup_insert_eq in Hacc. inversion Hacc; subst.
        left. split; [left; reflexivity | reflexivity].
      * rewrite lookup_insert_ne in Hacc by exact Hne. right. exact Hacc.
Qed.

(** Every hash of the list is a key of the map. *)
Lemma byHash_lookup_some (l : list Labels) (acc : gmap Z Labels) (k : Z) :
  is_Some (acc !! k) \/ (exists v, In v l /\ Hash v = k) -> is_Some (byHash l acc !! k).
Proof.
  unfold byHash. revert acc. induction l as [|x l IH]; intros acc; simpl.
  - intros [H | (v & [] & _)]. exact H.
  - intros H. apply IH. destruct (decide (Hash x = k)) as [Heq | Hne].
    + left. rewrite Heq, lookup_insert_eq. eexists. reflexivity.
    + rewrite lookup_insert_ne by exact Hne.
      destruct H as [H | (v & [<- | Hin] & Hk)]; [left; exact H | contradiction |].
      right. exists v. split; assumption.
Qed.

Lemma byHash_holds (l : list Labels) (v : Labels) :
  collisionFree l ->
  ((exists k, byHash l ∅ !! k = Some v) <-> In v l).
Proof.
  intros Hfree. split.
  - intros (k & Hk). destruct (byHash_lookup_inv l ∅ k v Hk) as [[Hin _] | Hempty].
    + exact Hin.
    + rewrite lookup_empty in Hempty. discriminate.
  - intros Hin. exists (Hash v).
    destruct (byHash_lookup_some l ∅ (Hash v)) as [v' Hv'].
    { right. exists v. split; [exact Hin | reflexivity]. }
    destruct (byHash_lookup_inv l ∅ (Hash v) v' Hv') as [[Hin' Hhash] | Hempty].
    + rewrite (Hfree v' v Hin' Hin Hhash) in Hv'. exact Hv'.
    + rewrite lookup_empty in Hempty. discriminate.
Qed.

Lemma In_map_to_list_values (m : gmap Z Labels) (v : Labels) :
  In v (map snd (map_to_list m)) <-> exists k, m !! k = Some v.
Proof.
  rewrite in_map_iff. split.
  - intros ([k v'] & Heq & Hin). simpl in Heq. subst v'. exists k.
    apply elem_of_map_to_list, list_elem_of_In. exact Hin.
  - intros (k & Hk). exists (k, v). split; [reflexivity|].
    apply list_elem_of_In, elem_of_map_to_list. exact Hk.
Qed.

(** Pairs with distinct keys, each key the hash of its value, have distinct
    values. *)
Lemma NoDup_values_of_keys (l : list (Z * Labels)) :
  (forall k v, In (k, v) l -> Hash v = k) ->
  List.NoDup (map fst l) -> List.NoDup (map snd l).
Proof.
  induction l as [|[k v] l IH]; intros Hkeyed Hnodup; simpl.
  - constructor.
  - inversion Hnodup as [|? ? Hnotin Hnodup']; subst. constructor.
    + intros Hin. apply in_map_iff in Hin. destruct Hin as ([k' v'] & Heq & Hin).
      simpl in Heq. subst v'. apply Hnotin.
      assert (Hk' : Hash v = k') by (apply Hkeyed; right; exact Hin).
      assert (Hk : Hash v = k) by (apply Hkeyed; left; reflexivity).
      apply in_map_iff. exists (k', v). split; [simpl; congruence | exact Hin].
    + apply IH; [|exact Hnodup']. intros k' v' Hin. apply Hkeyed. right. exact Hin.
Qed.

Lemma byHash_values_NoDup (l : list Labels) :
  List.NoDup (map snd (map_to_list (byHash l ∅))).
Proof.
  apply NoDup_values_of_keys.
  - intros k v Hin. apply list_elem_of_In, elem_of_map_to_list in Hin.
    destruct (byHash_lookup_inv l ∅ k v Hin) as [[_ Hk] | Hempty]; [exact Hk|].
    rewrite lookup_empty in Hempty. discriminate.
  - pose proof (NoDup_fst_map_to_list (byHash l ∅)) as Hkeys.
    apply NoDup_ListNoDup in Hkeys. exact Hkeys.
Qed.

Lemma byHash_values_nil (l : list Labels) :
  map snd (map_to_list (byHash l ∅)) = [] <-> l = [].
Proof.
  split.
  - intros Hnil. destruct l as [|v l]; [reflexivity|]. exfalso.
    destruct (byHash_lookup_some (v :: l) ∅ (Hash v)) as [v' Hv'].
    { right. exists v. split; [left; reflexivity | reflexivity]. }
    assert (Hin : In v' (map snd (map_to_list (byHash (v :: l) ∅))))
      by (apply In_map_to_list_values; exists (Hash v); exact Hv').
    rewrite Hnil in Hin. exact Hin.
  - intros ->. unfold byHash. simpl. rewrite map_to_list_empty. reflexivity.
Qed.

(** The announced label sets of a non-empty snapshot. *)
Lemma Info_LabelSets_nonempty (s : ProxyStore) :
  stores s <> [] ->
  info_LabelSets (Info s) =
  let announced := map snd (map_to_list (byHash (mergedOf s) ∅)) in
  if (length announced =? 0)%nat && (0 <? length (selectorLabels s))%nat
  then announced ++ [selectorLabels s] else announced.
Proof.
  intros Hne. unfold Info. destruct (stores s) as [|st rest] eqn:Hstores; [congruence|].
  change (length (st :: rest) =? 0)%nat with false. cbv iota.
  destruct (fold_left timeRangeStep (st :: rest) (MaxInt64, 0%Z)) as [minTime maxTime].
  cbn [info_LabelSets]. rewrite <- Hstores, mergedLabelSets_byHash. reflexivity.
Qed.

Lemma Info_times_nonempty (s : ProxyStore) :
  stores s <> [] ->
  info_MinTime (Info s) = fst (fold_left timeRangeStep (stores s) (MaxInt64, 0%Z))
  /\ info_MaxTime (Info s) = snd (fold_left timeRangeStep (stores s) (MaxInt64, 0%Z)).
Proof.
  intros Hne. unfold Info. destruct (stores s) as [|st rest] eqn:Hstores; [congruence|].
  change (length (st :: rest) =? 0)%nat with false. cbv iota.
  destruct (fold_left timeRangeStep (st :: rest) (MaxInt64, 0%Z)) as [minTime maxTime].
  split; reflexivity.
Qed.

(** C9, as the code has it. For an empty snapshot [Info] returns the range
    [0, 0] and announces no label set. For a non-empty snapshot of [int64]
    times, [min_time] is the least of the backends' [min_time]s, [max_time]
    the greatest of their [max_time]s when one of them is not negative, and,
    when no two merged label sets share a hash, the announced label sets are
    without repetition exactly the backends' label sets merged with the
    selector labels, or the selector labels alone when there is none and the
    selector is not empty. In a merged label set the selector's value wins. *)
Theorem Info_aggregates (s : ProxyStore) :
  (stores s = [] ->
   info_MinTime (Info s) = 0%Z /\ info_MaxTime (Info s) = 0%Z
   /\ info_LabelSets (Info s) = [])
  /\ (stores s <> [] ->
      (forall st, In st (stores s) -> (fst (TimeRange st) <= MaxInt64)%Z) ->
      isMinOf (info_MinTime (Info s)) (minTimes s)
      /\ ((exists st, In st (stores s) /\ (0 <= snd (TimeRange st))%Z) ->
          isMaxOf (info_MaxTime (Info s)) (maxTimes s)))
  /\ (stores s <> [] ->
      collisionFree (mergedOf s) ->
      (mergedOf s <> [] ->
       List.NoDup (info_LabelSets (Info s))
       /\ forall ls, In ls (info_LabelSets (Info s)) <-> In ls (mergedOf s))
      /\ (mergedOf s = [] -> selectorLabels s <> [] ->
          info_LabelSets (Info s) = [selectorLabels s]))
  /\ (forall lset name,
        List.NoDup (map fst (selectorLabels s)) ->
        (Has (selectorLabels s) name = true ->
         Get (ExtendSortedLabels lset (selectorLabels s)) name = Get (selectorLabels s) name)
        /\ (Has (selectorLabels s) name = false ->
            Get (ExtendSortedLabels lset (selectorLabels s)) name = Get lset name)).
Proof.
  split; [|split; [|split]].
  - intros Hempty. unfold Info. rewrite Hempty. simpl. repeat split; reflexivity.
  - intros Hne Hint64. destruct (Info_times_nonempty s Hne) as [-> ->].
    pose proof (timeRange_fold (stores s) MaxInt64 0%Z) as Hfold. cbv zeta in Hfold.
    destruct Hfold as [(Hle & Hall & Hin) (Hge & Hall' & Hin')].
    unfold isMinOf, isMaxOf, minTimes, maxTimes. split; [split|].
    + apply in_map_iff. destruct Hin as [Hinit | (st & Hst & Heq)].
      * destruct (stores s) as [|st rest] eqn:Hstores; [congruence|].
        exists st. split; [|left; reflexivity].
        pose proof (Hall st (or_introl eq_refl)). pose proof (Hint64 st (or_introl eq_refl)). lia.
      * exists st. split; [symmetry; exact Heq | exact Hst].
    + intros y Hy. apply in_map_iff in Hy. destruct Hy as (st & <- & Hst). apply Hall. exact Hst.
    + intros (st0 & Hst0 & Hpos). split.
      * apply in_map_iff. destruct Hin' as [Hinit | (st & Hst & Heq)].
        -- exists st0. split; [|exact Hst0]. pose proof (Hall' st0 Hst0). lia.
        -- exists st. split; [symmetry; exact Heq | exact Hst].
      * intros y Hy. apply in_map_iff in Hy. destruct Hy as (st & <- & Hst).
        apply Hall'. exact Hst.
  - intros Hne Hfree. rewrite (Info_LabelSets_nonempty s Hne). cbv zeta. split.
    + intros Hsome.
      assert (Hlen : (length (map snd (map_to_list (byHash (mergedOf s) ∅))) =? 0)%nat = false).
      { apply Nat.eqb_neq. intros Hlen. apply Hsome, byHash_values_nil.
        destruct (map snd (map_to_list (byHash (mergedOf s) ∅))); [reflexivity | discriminate]. }
      rewrite Hlen. cbn [andb]. split; [apply byHash_values_NoDup|].
      intros ls. rewrite In_map_to_list_values. apply byHash_holds. exact Hfree.
    + intros Hnone Hsel. rewrite (proj2 (byHash_values_nil (mergedOf s)) Hnone).
      destruct (selectorLabels s) as [|l sel]; [congruence | reflexivity].
  - intros lset name Hnodup. split.
    + intros Hhas. apply ExtendSortedLabels_selector_wins; assumption.
    + intros Hhas. apply ExtendSortedLabels_keeps. exact Hhas.
Qed.

End InfoLabelSets.

(** ** The scenarios of the specification, run on the model *)


(** Scenario S4, whole request: only the first backend is queried. *)
Example Series_S4 :
  contacted (snd (Series (env := quietEnv) (proxyOver [store1; store2; localStore] [])
                    (Some (CtxMatchers addressGroups))
                    (exampleRequest PartialResponseStrategy_WARN false)))
  = [store1].
Proof. vm_compute. reflexivity. Qed.

(** A backend out of the requested range: nothing is sent. *)
Lemma empty_selection_old_store :
  fst (Series (env := quietEnv) (proxyOver [oldStore] []) None
         (exampleRequest PartialResponseStrategy_WARN false)) = None
  /\ sentResponses (snd (Series (env := quietEnv) (proxyOver [oldStore] []) None
                           (exampleRequest PartialResponseStrategy_WARN false))) = []
  /\ contacted (snd (Series (env := quietEnv) (proxyOver [oldStore] []) None
                       (exampleRequest PartialResponseStrategy_WARN false))) = [].
Proof.
  apply (proj2 (time_filter_and_empty_selection (env := quietEnv)
                  (proxyOver [oldStore] []) None
                  (exampleRequest PartialResponseStrategy_WARN false)
                  [mkMatcher MatchEqual "a" "1"])).
  - vm_compute. reflexivity.
  - discriminate.
  - intros st [<- | []]. vm_compute. reflexivity.
Defined.

(** Scenario S3: the request for [env="dev"] is answered with an empty
    success and no backend is contacted. *)
Lemma preamble_S3 :
  fst (Series (env := quietEnv) prodProxy None devRequest) = None
  /\ sentResponses (snd (Series (env := quietEnv) prodProxy None devRequest)) = []
  /\ contacted (snd (Series (env := quietEnv) prodProxy None devRequest)) = []
  /\ snapshotTaken (snd (Series (env := quietEnv) prodProxy None devRequest)) = false.
Proof.
  apply (proj1 (Series_preamble (env := quietEnv) prodProxy None devRequest) []).
  vm_compute. reflexivity.
Defined.

(** The request for [env="prod"] alone leaves no matcher. *)
Example preamble_no_matcher_left :
  fst (Series (env := quietEnv) prodProxy None prodRequest) = Some noMatchersError
  /\ contacted (snd (Series (env := quietEnv) prodProxy None prodRequest)) = [].
Proof. vm_compute. split; reflexivity. Qed.

Lemma LabelValues_unnamed :
  fst (LabelValues (env := quietEnv) prodProxy None unnamedLabelRequest)
    = inr (StatusError InvalidArgument "label name parameter cannot be empty")
  /\ snapshotTaken (snd (LabelValues (env := quietEnv) prodProxy None unnamedLabelRequest)) = false
  /\ contacted (snd (LabelValues (env := quietEnv) prodProxy None unnamedLabelRequest)) = [].
Proof.
  apply (LabelValues_empty_label (env := quietEnv) prodProxy None unnamedLabelRequest).
  reflexivity.
Defined.

(** The first failure of scenario S6 is tolerated: the loop goes on with the
    remaining backends. *)
Lemma group_replica_check_S6_first :
  openStores (env := s6Env) (exampleRequest PartialResponseStrategy_GROUP_REPLICA false)
    (eligibleOf [g0; g1; h0]) (g0 :: [g1; h0]) initialFanout
  = openStores (env := s6Env) (exampleRequest PartialResponseStrategy_GROUP_REPLICA false)
      (eligibleOf [g0; g1; h0]) [g1; h0]
      (keepRespSet (env := s6Env) []
         (recordFailure (env := s6Env) g0
            (logEvent (env := s6Env) (EvOpen (env := s6Env) g0) initialFanout))).
Proof.
  apply (proj2 (proj2 (proj2
    (group_replica_check_decides (env := s6Env)
       (exampleRequest PartialResponseStrategy_GROUP_REPLICA false)
       (eligibleOf [g0; g1; h0]) g0 [g1; h0] initialFanout []
       (GoError "fetch series for g-0") eq_refl eq_refl)))).
  vm_compute. lia.
Defined.


(** A first warning in the stream under policy [group_replica] is forwarded. *)
Lemma stream_warning_first :
  mergeLoop (env := warningEnv) (exampleRequest PartialResponseStrategy_GROUP_REPLICA false)
    [RespWarning "store timeout"] initialFanout
  = mergeLoop (env := warningEnv) (exampleRequest PartialResponseStrategy_GROUP_REPLICA false)
      [] (logEvent (env := warningEnv) (EvSend (env := warningEnv) (RespWarning "store timeout"))
            (bumpTotal (env := warningEnv) initialFanout)).
Proof.
  assert (Hwarning : GetWarning (RespWarning "store timeout") <> "") by discriminate.
  destruct (stream_warning_policy (env := warningEnv)
              (exampleRequest PartialResponseStrategy_GROUP_REPLICA false)
              (RespWarning "store timeout") [] initialFanout Hwarning)
    as (_ & Hgroup & _ & _).
  apply (proj2 (Hgroup eq_refl)).
  - vm_compute. lia.
  - reflexivity.
Defined.

(** Scenario S6 through the fan-out loop: both failures are tolerated. *)
Lemma solitary_group_S6 :
  checkGroupReplicaErrors (eligibleOf [g0; g1; h0])
    (bumpCounter "h" "h-0" (bumpCounter "g" "g-0" ∅)) h0 (GoError "fetch series for h-0") = None
  /\ exists st1,
       openStores (env := s6Env) (exampleRequest PartialResponseStrategy_GROUP_REPLICA false)
         (eligibleOf [g0; g1; h0]) [g0; g1; h0] initialFanout = (None, st1)
       /\ totalFailedStores st1 = 2%nat
       /\ sentResponses (trace st1) = [].
Proof.
  assert (Hreplica : ReplicaKey g0 <> ReplicaKey g1) by (vm_compute; discriminate).
  assert (Hother : GroupKey h0 <> GroupKey g0) by (vm_compute; discriminate).
  assert (Ha : newAsyncRespSet (Collaborators := s6Env) g0
                 (exampleRequest PartialResponseStrategy_GROUP_REPLICA false)
               = ([], Some (GoError "fetch series for g-0"))) by (vm_compute; reflexivity).
  assert (Hb : newAsyncRespSet (Collaborators := s6Env) g1
                 (exampleRequest PartialResponseStrategy_GROUP_REPLICA false)
               = ([RespSeries [("a", "1")] "g-1"], None)) by (vm_compute; reflexivity).
  assert (Hc : newAsyncRespSet (Collaborators := s6Env) h0
                 (exampleRequest PartialResponseStrategy_GROUP_REPLICA false)
               = ([], Some (GoError "fetch series for h-0"))) by (vm_compute; reflexivity).
  destruct (solitary_group_first_failure_tolerated (env := s6Env)
              (exampleRequest PartialResponseStrategy_GROUP_REPLICA false) g0 g1 h0
              [] [RespSeries [("a", "1")] "g-1"] []
              (GoError "fetch series for g-0") (GoError "fetch series for h-0")
              eq_refl eq_refl Hreplica Hother Ha Hb Hc)
    as (_ & _ & Hcheck & st1 & Hrun & _ & Htotal & Hsent & _).
  split; [exact Hcheck|]. exists st1. repeat split; assumption.
Defined.

(** Scenario S5 and a labelled variant through [Info]. *)
Lemma Info_regions :
  isMinOf (info_MinTime (Info (env := quietEnv) regionProxy)) (minTimes regionProxy)
  /\ isMaxOf (info_MaxTime (Info (env := quietEnv) regionProxy)) (maxTimes regionProxy)
  /\ List.NoDup (info_LabelSets (Info (env := quietEnv) regionProxy))
  /\ (forall ls, In ls (info_LabelSets (Info (env := quietEnv) regionProxy))
                 <-> In ls (mergedOf regionProxy)).
Proof.
  destruct (Info_aggregates (env := quietEnv) regionProxy) as (_ & Htimes & Hsets & _).
  assert (Hne : stores regionProxy <> []) by discriminate.
  assert (Hint64 : forall st, In st (stores regionProxy) -> (fst (TimeRange st) <= MaxInt64)%Z).
  { intros st [<- | [<- | [<- | []]]]; vm_compute; discriminate. }
  assert (Hfree : collisionFree (env := quietEnv) (mergedOf regionProxy)).
  { intros a b [<- | [<- | [<- | []]]] [<- | [<- | [<- | []]]] Hhash;
      try reflexivity; vm_compute in Hhash; discriminate. }
  destruct (Htimes Hne Hint64) as [Hmin Hmax].
  destruct (proj1 (Hsets Hne Hfree)) as [Hnodup Hin]; [discriminate|].
  split; [exact Hmin|]. split; [|split; [exact Hnodup | exact Hin]].
  apply Hmax. exists (regionStore "eu-0" "eu" 100 200).
  split; [left; reflexivity | vm_compute; discriminate].
Defined.

Example Info_S5 :
  Info (env := quietEnv) s5Proxy
  = {| info_Labels := [("r", "x")]; info_MinTime := 100; info_MaxTime := 300;
       info_LabelSets := [[("r", "x")]] |}.
Proof. vm_compute. reflexivity. Qed.

(** ** Where the code departs from the specification *)


(** The disabled flag does not force [abort] either when the policy is
    [warn]: the failure is answered with a warning. *)
Example disabled_flag_with_warn_policy :
  fst (Series (env := s6Env) (proxyOver [g0; g1] []) None
         (exampleRequest PartialResponseStrategy_WARN true)) = None
  /\ sentResponses (snd (Series (env := s6Env) (proxyOver [g0; g1] []) None
                           (exampleRequest PartialResponseStrategy_WARN true)))
     = [RespWarning "fetch series for g-0"; RespSeries [("a", "1")] "g-1"].
Proof. vm_compute. split; reflexivity. Qed.

(** C2 as stated fails: with [partial_response_disabled] set under policy
    [group_replica], a first warning in the stream does not abort the
    request; it is forwarded and [Series] succeeds. *)
Lemma disabled_flag_ignored_under_group_replica :
  PartialResponseDisabled (exampleRequest PartialResponseStrategy_GROUP_REPLICA true) = true
  /\ mergedResponses (Collaborators := warningEnv) [[RespWarning "store timeout"]]
     = [RespWarning "store timeout"]
  /\ fst (Series (env := warningEnv) (proxyOver [g0] []) None
            (exampleRequest PartialResponseStrategy_GROUP_REPLICA true)) = None
  /\ sentResponses (snd (Series (env := warningEnv) (proxyOver [g0] []) None
                           (exampleRequest PartialResponseStrategy_GROUP_REPLICA true)))
     = [RespWarning "store timeout"].
Proof. vm_compute. repeat split; reflexivity. Qed.

(** C4 as stated fails: in scenario S6 the request is not aborted; [Series]
    returns success after forwarding the series of [g-1]. *)
Lemma S6_not_aborted :
  openError (env := s6Env) (exampleRequest PartialResponseStrategy_GROUP_REPLICA false) g0
    = Some (GoError "fetch series for g-0")
  /\ openError (env := s6Env) (exampleRequest PartialResponseStrategy_GROUP_REPLICA false) h0
     = Some (GoError "fetch series for h-0")
  /\ fst (Series (env := s6Env) (proxyOver [g0; g1; h0] []) None
            (exampleRequest PartialResponseStrategy_GROUP_REPLICA false)) = None
  /\ sentResponses (snd (Series (env := s6Env) (proxyOver [g0; g1; h0] []) None
                           (exampleRequest PartialResponseStrategy_GROUP_REPLICA false)))
     = [RespSeries [("a", "1")] "g-1"].
Proof. vm_compute. repeat split; reflexivity. Qed.

(** The request is aborted once a second endpoint of replica [h-0] fails. *)
Example S6_second_failure_aborts :
  fst (Series (env := exampleEnv (openingWith ["g-0"; "h-0"; "h-0b"]))
         (proxyOver [g0; g1; h0; h0'] []) None
         (exampleRequest PartialResponseStrategy_GROUP_REPLICA false))
  = Some (GoError "fetch series for h-0b").
Proof. vm_compute. reflexivity. Qed.

(** C9 as stated fails: with no backend, the selector labels are not
    announced although they are not empty. *)
Lemma Info_empty_snapshot_announces_nothing :
  stores emptyProxy = []
  /\ selectorLabels emptyProxy <> []
  /\ info_LabelSets (Info (env := quietEnv) emptyProxy) = []
  /\ info_LabelSets (Info (env := quietEnv) emptyProxy) <> [selectorLabels emptyProxy].
Proof. vm_compute. repeat split; try reflexivity; discriminate. Qed.

(** The running maximum of [Info] starts at 0: a snapshot whose times are
    all negative is reported as ending at 0. *)
Example Info_negative_max_time :
  info_MinTime (Info (env := quietEnv) (proxyOver [oldStore] [])) = (-300)%Z
  /\ info_MaxTime (Info (env := quietEnv) (proxyOver [oldStore] [])) = 0%Z.
Proof. vm_compute. split; reflexivity. Qed.

(** ** More on the filters *)

Section MoreFilters.
Context {env : Collaborators}.

(** Matchers on names that no announced label set carries never reject a
    backend; in particular a request without matchers rejects none. *)
Theorem labelSetsMatch_unannounced_names (matchers : list Matcher) (lset : list Labels) :
  (forall m ls, In m matchers -> In ls lset -> Has ls (m_Name m) = false) ->
  labelSetsMatch matchers lset = true.
Proof.
  intros Hnone. apply labelSetsMatch_true. destruct lset as [|ls rest].
  - left. reflexivity.
  - right. exists ls. split; [left; reflexivity|].
    intros m Hm [Hhas _]. rewrite (Hnone m ls Hm (or_introl eq_refl)) in Hhas. discriminate.
Qed.

Lemma notMatched_app (ms1 ms2 : list Matcher) (ls : Labels) :
  notMatched (ms1 ++ ms2) ls = notMatched ms1 ls || notMatched ms2 ls.
Proof.
  induction ms1 as [|m ms1 IH]; simpl; [reflexivity|].
  destruct (Has ls (m_Name m) && negb (Matches m (Get ls (m_Name m)))); [reflexivity | exact IH].
Qed.

(** Matchers are conjoined within one label set, and a backend accepted
    under a list of matchers is accepted under each part of the list. *)
Theorem labelSetsMatch_matchers_conjoin (ms1 ms2 : list Matcher) (lset : list Labels)
    (ls : Labels) :
  labelSetsMatch (ms1 ++ ms2) [ls] = labelSetsMatch ms1 [ls] && labelSetsMatch ms2 [ls]
  /\ (labelSetsMatch (ms1 ++ ms2) lset = true ->
      labelSetsMatch ms1 lset = true /\ labelSetsMatch ms2 lset = true).
Proof.
  split.
  - unfold labelSetsMatch. simpl. rewrite notMatched_app.
    destruct (notMatched ms1 ls), (notMatched ms2 ls); reflexivity.
  - rewrite !labelSetsMatch_true. intros [Hnil | (l & Hin & Hall)].
    + split; left; exact Hnil.
    + split; right; exists l; (split; [exact Hin|]); intros m Hm; apply Hall;
        apply in_or_app; [left | right]; exact Hm.
Qed.

(** Without matcher groups in the context and without request matchers, as
    in [LabelNames] and [LabelValues], [storeMatches] is the time overlap. *)
Theorem storeMatches_without_matchers (st : Client) (mint maxt : Z) :
  (storeMatches None st mint maxt [] = true <->
   (mint <= snd (TimeRange st))%Z /\ (maxt >= fst (TimeRange st))%Z)
  /\ storeMatches (Some CtxOther) st mint maxt [] = storeMatches None st mint maxt [].
Proof.
  split; [|reflexivity].
  destruct (storeMatches_time None st mint maxt []) as [Hno Hyes].
  unfold timeOverlap in Hno, Hyes. split.
  - intros Hkept.
    destruct (Z.le_gt_cases mint (snd (TimeRange st))) as [H1 | H1];
      destruct (Z.le_gt_cases (fst (TimeRange st)) maxt) as [H2 | H2];
      try (split; lia); rewrite Hno in Hkept by lia; discriminate.
  - intros Hover. rewrite (Hyes Hover).
    assert (Hlabels : labelSetsMatch [] (LabelSets st) = true).
    { apply labelSetsMatch_true. destruct (LabelSets st) as [|ls rest]; [left; reflexivity|].
      right. exists ls. split; [left; reflexivity | intros m []]. }
    rewrite Hlabels. reflexivity.
Qed.

(** A backend whose TSDB is not initialised is not queried by a request
    that ends before the end of time. *)
Theorem storeMatches_uninitialized (ctx : option CtxValue) (st : Client) (mint maxt : Z)
    (matchers : list Matcher) :
  fst (TimeRange st) = UninitializedTSDBTime ->
  (maxt < MaxInt64)%Z ->
  storeMatches ctx st mint maxt matchers = false.
Proof.
  intros Hinit Hmaxt. apply storeMatches_time. unfold timeOverlap.
  rewrite Hinit. unfold UninitializedTSDBTime. lia.
Qed.

(** Adding matcher groups to a non-empty list keeps every kept backend. *)
Theorem storeMatchDebugMetadata_more_groups (s : Client) (groups more : list (list Matcher)) :
  groups <> [] ->
  storeMatchDebugMetadata s groups = true ->
  storeMatchDebugMetadata s (groups ++ more) = true
  /\ storeMatchDebugMetadata s (more ++ groups) = true.
Proof.
  intros Hne Hkept.
  assert (Hne1 : groups ++ more <> []) by (destruct groups; [congruence | discriminate]).
  assert (Hne2 : more ++ groups <> []).
  { destruct more; [exact Hne | discriminate]. }
  rewrite (storeMatchDebugMetadata_groups s groups Hne) in Hkept.
  rewrite (storeMatchDebugMetadata_groups s _ Hne1), (storeMatchDebugMetadata_groups s _ Hne2).
  apply andb_true_iff in Hkept. destruct Hkept as [-> Hsome].
  rewrite !existsb_app, Hsome, orb_true_r. split; reflexivity.
Qed.

End MoreFilters.

(** ** The counters of [Series] *)

Section MoreCounters.
Context {env : Collaborators}.

Lemma countOf_bump (g r g' r' : string) (mp : gmap string (gmap string nat)) :
  countOf (bumpCounter g r mp) g' r' =
  (countOf mp g' r' + if String.eqb g g' && String.eqb r r' then 1 else 0)%nat.
Proof.
  destruct (String.eqb_spec g g') as [<- | Hg]; simpl.
  - destruct (String.eqb_spec r r') as [<- | Hr].
    + rewrite countOf_bump_same. lia.
    + rewrite countOf_bump_other_replica by exact Hr. lia.
  - rewrite countOf_bump_other_group by exact Hg. lia.
Qed.

Lemma countOf_failuresOf (sts : list Client) (acc : gmap string (gmap string nat))
    (g r : string) :
  countOf (failuresOf sts acc) g r
  = (countOf acc g r + length (List.filter (sameKeys g r) sts))%nat.
Proof.
  unfold failuresOf. revert acc. induction sts as [|st rest IH]; intros acc; simpl.
  - lia.
  - rewrite IH, countOf_bump. unfold sameKeys.
    destruct (String.eqb (GroupKey st) g && String.eqb (ReplicaKey st) r); simpl; lia.
Qed.

Lemma dom_inner_bump (g r g' : string) (mp : gmap string (gmap string nat)) :
  dom (default (∅ : gmap string nat) (bumpCounter g r mp !! g'))
  = (if String.eqb g g' then {[r]} else ∅) ∪ dom (default (∅ : gmap string nat) (mp !! g')).
Proof.
  destruct (String.eqb_spec g g') as [<- | Hg].
  - rewrite inner_bump_same, dom_insert_L. reflexivity.
  - rewrite inner_bump_other by exact Hg. rewrite union_empty_l_L. reflexivity.
Qed.

Lemma dom_inner_failuresOf (sts : list Client) (acc : gmap string (gmap string nat))
    (g : string) :
  dom (default (∅ : gmap string nat) (failuresOf sts acc !! g))
  = list_to_set (map ReplicaKey (List.filter (fun st => String.eqb (GroupKey st) g) sts))
    ∪ dom (default (∅ : gmap string nat) (acc !! g)).
Proof.
  unfold failuresOf. revert acc. induction sts as [|st rest IH]; intros acc; simpl.
  - rewrite union_empty_l_L. reflexivity.
  - rewrite IH, dom_inner_bump.
    destruct (String.eqb (GroupKey st) g); simpl.
    + rewrite (assoc_L (∪)), (comm_L (∪) _ {[ReplicaKey st]}). reflexivity.
    + rewrite union_empty_l_L. reflexivity.
Qed.

Lemma replicasOf_failuresOf (sts : list Client) (g : string) :
  replicasOf (failuresOf sts ∅) g
  = size (list_to_set (map ReplicaKey (List.filter (fun st => String.eqb (GroupKey st) g) sts))
          : gset string).
Proof.
  unfold replicasOf. rewrite <- size_dom, dom_inner_failuresOf, lookup_empty. simpl.
  rewrite dom_empty_L, union_empty_r_L. reflexivity.
Qed.

Lemma selectStores_counters (s : ProxyStore) (ctx : option CtxValue) (req : SeriesRequest)
    (matchers : list Matcher) (snapshot : list Client) (acc : Selection) :
  sel_groupReplicaStores (selectStores s ctx req matchers snapshot acc)
  = failuresOf (List.filter (survives s ctx req matchers) snapshot) (sel_groupReplicaStores acc).
Proof.
  unfold failuresOf. revert acc. induction snapshot as [|st rest IH]; intros acc; simpl.
  - reflexivity.
  - unfold survives at 1.
    destruct (storeMatches ctx st (MinTime req) (MaxTime req) matchers); simpl.
    + destruct (tsdbSelector s (LabelSets st)) as [matches extraMatchers]. simpl.
      destruct matches; simpl; rewrite IH; reflexivity.
    + apply IH.
Qed.

Lemma selectStores_labelSets (s : ProxyStore) (ctx : option CtxValue) (req : SeriesRequest)
    (matchers : list Matcher) (snapshot : list Client) (acc : Selection) :
  sel_storeLabelSets (selectStores s ctx req matchers snapshot acc)
  = sel_storeLabelSets acc
    ++ flat_map (fun st => snd (tsdbSelector s (LabelSets st)))
         (List.filter (survives s ctx req matchers) snapshot).
Proof.
  revert acc. induction snapshot as [|st rest IH]; intros acc; simpl.
  - rewrite app_nil_r. reflexivity.
  - unfold survives at 1.
    destruct (storeMatches ctx st (MinTime req) (MaxTime req) matchers); simpl.
    + destruct (tsdbSelector s (LabelSets st)) as [matches extraMatchers] eqn:Hsel. simpl.
      destruct matches; simpl.
      * rewrite IH. simpl. rewrite Hsel. simpl. rewrite <- app_assoc. reflexivity.
      * apply IH.
    + apply IH.
Qed.

(** The selection of [Series] keeps, in snapshot order, the backends that
    pass [storeMatches] and the TSDB selector; [groupReplicaStores[g][r]] is
    the number of kept backends of replica [r] of group [g], the size of
    [groupReplicaStores[g]] the number of distinct replicas kept for [g], and
    the extra matchers are those the selector gave for the kept backends. *)
Theorem selection_counts_survivors (s : ProxyStore) (ctx : option CtxValue)
    (req : SeriesRequest) (matchers : list Matcher) :
  let sel := selectStores s ctx req matchers (stores s) emptySelection in
  sel_stores sel = List.filter (survives s ctx req matchers) (stores s)
  /\ (forall g r,
        countOf (sel_groupReplicaStores sel) g r
        = length (List.filter (sameKeys g r) (sel_stores sel)))
  /\ (forall g,
        replicasOf (sel_groupReplicaStores sel) g
        = size (list_to_set
                  (map ReplicaKey
                     (List.filter (fun st => String.eqb (GroupKey st) g) (sel_stores sel)))
                : gset string))
  /\ sel_storeLabelSets sel
     = flat_map (fun st => snd (tsdbSelector s (LabelSets st))) (sel_stores sel).
Proof.
  intros sel. unfold sel.
  rewrite selectStores_stores, selectStores_counters, selectStores_labelSets. simpl.
  split; [reflexivity|]. split; [|split; [|reflexivity]].
  - intros g r. rewrite countOf_failuresOf, countOf_empty. reflexivity.
  - intros g. apply replicasOf_failuresOf.
Qed.

End MoreCounters.

(** ** What the loops of [Series] do to the state *)

Section Runs.
Context {env : Collaborators}.

Lemma closed_app (tr1 tr2 : list Event) : closed (tr1 ++ tr2) = closed tr1 ++ closed tr2.
Proof.
  induction tr1 as [|ev tr1 IH]; simpl; [reflexivity|].
  destruct ev; simpl; rewrite IH; reflexivity.
Qed.

Lemma failsToOpen_failed (r : SeriesRequest) (c : Client) (rs : respSet) (e : error) :
  newAsyncRespSet c r = (rs, Some e) -> failsToOpen r c = true /\ openError r c = Some e.
Proof. unfold failsToOpen, openError. intros ->. split; reflexivity. Qed.

Lemma failsToOpen_opened (r : SeriesRequest) (c : Client) (rs : respSet) :
  newAsyncRespSet c r = (rs, None) ->
  failsToOpen r c = false /\ openError r c = None /\ fst (newAsyncRespSet c r) = rs.
Proof. unfold failsToOpen, openError. intros ->. repeat split; reflexivity. Qed.

(** The part of the state of the fan-out loop that does not depend on the
    policy: the backends contacted are a prefix of the list, all of it when
    the loop ends without an error; the counters count the failures among
    them; nothing is closed. *)
Lemma openStores_run (r : SeriesRequest) (elig : gmap string (gmap string nat))
    (sts : list Client) :
  forall st0 res st1,
    openStores r elig sts st0 = (res, st1) ->
    exists pre post,
      sts = pre ++ post
      /\ contacted (trace st1) = contacted (trace st0) ++ pre
      /\ (res = None -> post = [])
      /\ totalFailedStores st1
         = (totalFailedStores st0 + length (List.filter (failsToOpen r) pre))%nat
      /\ failedStores st1 = failuresOf (List.filter (failsToOpen r) pre) (failedStores st0)
      /\ closed (trace st1) = closed (trace st0).
Proof.
  induction sts as [|c rest IH]; intros st0 res st1 Hrun.
  - simpl in Hrun. inversion Hrun; subst. exists [], []. simpl. rewrite app_nil_r.
    repeat split; try reflexivity. lia.
  - cbn [openStores] in Hrun.
    destruct (newAsyncRespSet c r) as [rs [e|]] eqn:Hopen.
    + destruct (failsToOpen_failed r c rs e Hopen) as [Hfails _].
      assert (Hstop : forall st2 e',
                (Some e', st2) = (res, st1) ->
                contacted (trace st2) = contacted (trace st0) ++ [c] ->
                totalFailedStores st2 = S (totalFailedStores st0) ->
                failedStores st2 = bumpCounter (GroupKey c) (ReplicaKey c) (failedStores st0) ->
                closed (trace st2) = closed (trace st0) ->
                exists pre post,
                  c :: rest = pre ++ post
                  /\ contacted (trace st1) = contacted (trace st0) ++ pre
                  /\ (res = None -> post = [])
                  /\ totalFailedStores st1
                     = (totalFailedStores st0 + length (List.filter (failsToOpen r) pre))%nat
                  /\ failedStores st1
                     = failuresOf (List.filter (failsToOpen r) pre) (failedStores st0)
                  /\ closed (trace st1) = closed (trace st0)).
      { intros st2 e' Heq Hc Ht Hf Hcl. inversion Heq; subst. exists [c], rest.
        simpl. rewrite Hfails. simpl. repeat split; try assumption; try discriminate. lia. }
      assert (Hgo : forall st2,
                openStores r elig rest st2 = (res, st1) ->
                contacted (trace st2) = contacted (trace st0) ++ [c] ->
                totalFailedStores st2 = S (totalFailedStores st0) ->
                failedStores st2 = bumpCounter (GroupKey c) (ReplicaKey c) (failedStores st0) ->
                closed (trace st2) = closed (trace st0) ->
                exists pre post,
                  c :: rest = pre ++ post
                  /\ contacted (trace st1) = contacted (trace st0) ++ pre
                  /\ (res = None -> post = [])
                  /\ totalFailedStores st1
                     = (totalFailedStores st0 + length (List.filter (failsToOpen r) pre))%nat
                  /\ failedStores st1
                     = failuresOf (List.filter (failsToOpen r) pre) (failedStores st0)
                  /\ closed (trace st1) = closed (trace st0)).
      { intros st2 Hrest Hc Ht Hf Hcl.
        destruct (IH st2 res st1 Hrest) as (pre & post & -> & Hc' & Hend & Ht' & Hf' & Hcl').
        exists (c :: pre), post. simpl. rewrite Hfails. simpl.
        rewrite Hc', Hc, <- app_assoc, Ht', Ht, Hf', Hf, Hcl', Hcl.
        repeat split; try assumption; try reflexivity. lia. }
      destruct (is_GROUP_REPLICA (PartialResponseStrategy_ r)).
      * destruct (checkGroupReplicaErrors elig _ c e).
        -- eapply Hstop; [exact Hrun | | | |]; simpl; try reflexivity.
           ++ rewrite contacted_app. reflexivity.
           ++ rewrite closed_app. simpl. rewrite app_nil_r. reflexivity.
        -- eapply Hgo; [exact Hrun | | | |]; simpl; try reflexivity.
           ++ rewrite contacted_app. reflexivity.
           ++ rewrite closed_app. simpl. rewrite app_nil_r. reflexivity.
      * destruct (negb (PartialResponseDisabled r) || is_WARN (PartialResponseStrategy_ r)).
        -- destruct (srvSend _ _) as [e'|].
           ++ eapply Hstop; [exact Hrun | | | |]; simpl; try reflexivity.
              ** rewrite !contacted_app. simpl. rewrite app_nil_r. reflexivity.
              ** rewrite !closed_app. simpl. rewrite !app_nil_r. reflexivity.
           ++ eapply Hgo; [exact Hrun | | | |]; simpl; try reflexivity.
              ** rewrite !contacted_app. simpl. rewrite app_nil_r. reflexivity.
              ** rewrite !closed_app. simpl. rewrite !app_nil_r. reflexivity.
        -- eapply Hstop; [exact Hrun | | | |]; simpl; try reflexivity.
           ++ rewrite contacted_app. reflexivity.
           ++ rewrite closed_app. simpl. rewrite app_nil_r. reflexivity.
    + destruct (failsToOpen_opened r c rs Hopen) as [Hfails _].
      destruct (IH _ res st1 Hrun) as (pre & post & -> & Hc' & Hend & Ht' & Hf' & Hcl').
      exists (c :: pre), post. simpl. rewrite Hfails.
      rewrite Hc', Ht', Hf', Hcl'. simpl.
      rewrite contacted_app, closed_app. simpl. rewrite app_nil_r, <- app_assoc.
      repeat split; try assumption; reflexivity.
Qed.

(** Outside policy [group_replica] the loop keeps the response sets of the
    backends that opened and sends warnings only. *)
Lemma openStores_kept (r : SeriesRequest) (elig : gmap string (gmap string nat))
    (sts : list Client) :
  is_GROUP_REPLICA (PartialResponseStrategy_ r) = false ->
  forall st0 res st1,
    openStores r elig sts st0 = (res, st1) ->
    exists pre ws,
      contacted (trace st1) = contacted (trace st0) ++ pre
      /\ storeResponses st1 = storeResponses st0 ++ openedSets r pre
      /\ sentResponses (trace st1) = sentResponses (trace st0) ++ ws
      /\ (res = None -> ws = openWarnings r pre).
Proof.
  intros Hpolicy. induction sts as [|c rest IH]; intros st0 res st1 Hrun.
  - simpl in Hrun. inversion Hrun; subst. exists [], []. simpl. rewrite !app_nil_r.
    repeat split; reflexivity.
  - assert (Hsets_cons : forall pre, openedSets r (c :: pre)
              = match openError r c with
                | Some _ => []
                | None => [fst (newAsyncRespSet c r)]
                end ++ openedSets r pre) by reflexivity.
    assert (Hwarn_cons : forall pre, openWarnings r (c :: pre)
              = match openError r c with
                | Some e => [NewWarnSeriesResponse e]
                | None => []
                end ++ openWarnings r pre) by reflexivity.
    destruct (openError r c) as [e|] eqn:Hopen.
    + rewrite (openStores_failed r elig c rest st0 e Hpolicy Hopen) in Hrun. cbv zeta in Hrun.
      destruct (negb (PartialResponseDisabled r) || is_WARN (PartialResponseStrategy_ r)).
      * destruct (srvSend _ _) as [e'|].
        -- inversion Hrun; subst. exists [c], [NewWarnSeriesResponse e].
           rewrite Hsets_cons. cbn [logEvent recordFailure trace storeResponses].
           rewrite !sentResponses_app, !contacted_app. simpl.
           rewrite !app_nil_r. repeat split; try reflexivity. discriminate.
        -- destruct (IH _ res st1 Hrun) as (pre & ws & Hc & Hsets & Hsent & Hws).
           exists (c :: pre), (NewWarnSeriesResponse e :: ws).
           rewrite Hsets_cons, Hwarn_cons, Hc, Hsets, Hsent.
           cbn [logEvent recordFailure trace storeResponses].
           rewrite !sentResponses_app, !contacted_app. simpl.
           rewrite !app_nil_r, <- !app_assoc. repeat split; try reflexivity.
           intros Hres. rewrite (Hws Hres). reflexivity.
      * inversion Hrun; subst. exists [c], [].
        rewrite Hsets_cons. cbn [logEvent recordFailure trace storeResponses].
        rewrite !sentResponses_app, !contacted_app. simpl.
        rewrite !app_nil_r. repeat split; try reflexivity. discriminate.
    + rewrite (openStores_opened r elig c rest st0 Hopen) in Hrun.
      destruct (IH _ res st1 Hrun) as (pre & ws & Hc & Hsets & Hsent & Hws).
      exists (c :: pre), ws. rewrite Hsets_cons, Hwarn_cons, Hc, Hsets, Hsent.
      cbn [logEvent keepRespSet trace storeResponses].
      rewrite !sentResponses_app, !contacted_app. simpl.
      rewrite !app_nil_r, <- !app_assoc. repeat split; try reflexivity. exact Hws.
Qed.

(** Under policy [group_replica] the loop sends nothing and keeps one
    response set per backend it went past, failed or not. *)
Lemma openStores_kept_group_replica (r : SeriesRequest)
    (elig : gmap string (gmap string nat)) (sts : list Client) :
  is_GROUP_REPLICA (PartialResponseStrategy_ r) = true ->
  forall st0 res st1,
    openStores r elig sts st0 = (res, st1) ->
    sentResponses (trace st1) = sentResponses (trace st0)
    /\ exists kept,
         storeResponses st1
         = storeResponses st0 ++ map (fun c => fst (newAsyncRespSet c r)) kept
         /\ ((res = None /\ contacted (trace st1) = contacted (trace st0) ++ kept)
             \/ (exists c e, res = Some e /\ openError r c = Some e
                             /\ contacted (trace st1) = contacted (trace st0) ++ kept ++ [c])).
Proof.
  intros Hpolicy. induction sts as [|c rest IH]; intros st0 res st1 Hrun.
  - simpl in Hrun. inversion Hrun; subst. split; [reflexivity|]. exists []. simpl.
    rewrite !app_nil_r. split; [reflexivity|]. left. split; reflexivity.
  - cbn [openStores] in Hrun. rewrite Hpolicy in Hrun.
    destruct (newAsyncRespSet c r) as [rs [e|]] eqn:Hopen.
    + destruct (checkGroupReplicaErrors elig _ c e).
      * inversion Hrun; subst. simpl. rewrite sentResponses_app, contacted_app. simpl.
        rewrite app_nil_r. split; [reflexivity|]. exists []. simpl. rewrite app_nil_r.
        split; [reflexivity|]. right. exists c, e.
        unfold openError. rewrite Hopen. repeat split; reflexivity.
      * destruct (IH _ res st1 Hrun) as (Hsent & kept & Hsets & Hcase).
        simpl in Hsent, Hsets, Hcase.
        rewrite sentResponses_app in Hsent. simpl in Hsent. rewrite app_nil_r in Hsent.
        rewrite contacted_app in Hcase. simpl in Hcase.
        split; [exact Hsent|]. exists (c :: kept). simpl. rewrite Hopen. simpl.
        rewrite Hsets, <- app_assoc. split; [reflexivity|].
        destruct Hcase as [[Hres Hc] | (c' & e' & Hres & Herr & Hc)].
        -- left. split; [exact Hres|]. rewrite Hc, <- app_assoc. reflexivity.
        -- right. exists c', e'. repeat split; try assumption.
           rewrite Hc, <- app_assoc. reflexivity.
    + destruct (IH _ res st1 Hrun) as (Hsent & kept & Hsets & Hcase).
      simpl in Hsent, Hsets, Hcase.
      rewrite sentResponses_app in Hsent. simpl in Hsent. rewrite app_nil_r in Hsent.
      rewrite contacted_app in Hcase. simpl in Hcase.
      split; [exact Hsent|]. exists (c :: kept). simpl. rewrite Hopen. simpl.
      rewrite Hsets, <- app_assoc. split; [reflexivity|].
      destruct Hcase as [[Hres Hc] | (c' & e' & Hres & Herr & Hc)].
      * left. split; [exact Hres|]. rewrite Hc, <- app_assoc. reflexivity.
      * right. exists c', e'. repeat split; try assumption.
        rewrite Hc, <- app_assoc. reflexivity.
Qed.

(** An error of the fan-out loop is the open error of one of the backends or
    the error of a [Send]. *)
Lemma openStores_error_origin (r : SeriesRequest) (elig : gmap string (gmap string nat))
    (sts : list Client) :
  forall st0 e st1,
    openStores r elig sts st0 = (Some e, st1) ->
    (exists c, In c sts /\ openError r c = Some e)
    \/ (exists sent resp, srvSend sent resp = Some e).
Proof.
  induction sts as [|c rest IH]; intros st0 e st1 Hrun.
  - simpl in Hrun. discriminate.
  - assert (Hrest : forall st2, openStores r elig rest st2 = (Some e, st1) ->
                      (exists c', In c' (c :: rest) /\ openError r c' = Some e)
                      \/ (exists sent resp, srvSend sent resp = Some e)).
    { intros st2 H2. destruct (IH _ _ _ H2) as [(c' & Hin & Herr) | Hsend].
      - left. exists c'. split; [right; exact Hin | exact Herr].
      - right. exact Hsend. }
    cbn [openStores] in Hrun.
    destruct (newAsyncRespSet c r) as [rs [e0|]] eqn:Hopen; [|exact (Hrest _ Hrun)].
    assert (Hthis : (Some e0 : option error) = Some e ->
                    (exists c', In c' (c :: rest) /\ openError r c' = Some e)
                    \/ (exists sent resp, srvSend sent resp = Some e)).
    { intros Heq. inversion Heq; subst. left. exists c. split; [left; reflexivity|].
      unfold openError. rewrite Hopen. reflexivity. }
    destruct (is_GROUP_REPLICA (PartialResponseStrategy_ r)).
    + destruct (checkGroupReplicaErrors elig _ c e0); [|exact (Hrest _ Hrun)].
      inversion Hrun; subst. apply Hthis. reflexivity.
    + destruct (negb (PartialResponseDisabled r) || is_WARN (PartialResponseStrategy_ r)).
      * destruct (srvSend _ _) as [e'|] eqn:Hsend; [|exact (Hrest _ Hrun)].
        inversion Hrun; subst. right. eexists _, _. exact Hsend.
      * inversion Hrun; subst. apply Hthis. reflexivity.
Qed.

(** The state after the loop over the merged frames: the frames passed to
    [Send] are a prefix of the stream, all of it when the loop ends without
    an error; no backend is contacted, nothing is closed, and the failure
    total grows by the number of warnings when the loop ends without an
    error. *)
Lemma mergeLoop_run (r : SeriesRequest) (resps : list SeriesResponse) :
  forall st0 res st1,
    mergeLoop r resps st0 = (res, st1) ->
    exists pre post,
      resps = pre ++ post
      /\ sentResponses (trace st1) = sentResponses (trace st0) ++ pre
      /\ (res = None -> post = [])
      /\ contacted (trace st1) = contacted (trace st0)
      /\ closed (trace st1) = closed (trace st0)
      /\ storeResponses st1 = storeResponses st0
      /\ (res = None ->
          totalFailedStores st1
          = (totalFailedStores st0 + length (List.filter isWarning resps))%nat).
Proof.
  induction resps as [|resp rest IH]; intros st0 res st1 Hrun.
  - simpl in Hrun. inversion Hrun; subst. exists [], []. simpl. rewrite app_nil_r.
    repeat split; try reflexivity. intros _. lia.
  - cbn [mergeLoop] in Hrun.
    destruct (onWarning r resp st0) as [[e|] st2] eqn:Hon.
    + inversion Hrun; subst. exists [], (resp :: rest). simpl. rewrite app_nil_r.
      unfold onWarning in Hon.
      destruct (negb (String.eqb (GetWarning resp) "")); [|discriminate].
      destruct (is_GROUP_REPLICA (PartialResponseStrategy_ r)).
      * destruct (1 <? totalFailedStores (bumpTotal st0))%nat; inversion Hon; subst.
        simpl. repeat split; try reflexivity; discriminate.
      * destruct (PartialResponseDisabled r || is_ABORT (PartialResponseStrategy_ r));
          inversion Hon; subst. simpl. repeat split; try reflexivity; discriminate.
    + assert (Hst2 : trace st2 = trace st0 /\ storeResponses st2 = storeResponses st0
                     /\ totalFailedStores st2
                        = (totalFailedStores st0 + if isWarning resp then 1 else 0)%nat).
      { unfold onWarning in Hon. unfold isWarning.
        destruct (negb (String.eqb (GetWarning resp) "")).
        - destruct (is_GROUP_REPLICA (PartialResponseStrategy_ r)).
          + destruct (1 <? totalFailedStores (bumpTotal st0))%nat; inversion Hon; subst.
            simpl. repeat split; try reflexivity. lia.
          + destruct (PartialResponseDisabled r || is_ABORT (PartialResponseStrategy_ r));
              inversion Hon; subst. simpl. repeat split; try reflexivity. lia.
        - inversion Hon; subst. repeat split; try reflexivity. lia. }
      destruct Hst2 as (Htr & Hsets & Htotal).
      destruct (srvSend (sentResponses (trace st2)) resp) as [e|].
      * inversion Hrun; subst. exists [resp], rest. simpl.
        rewrite sentResponses_app, contacted_app, closed_app, Htr. simpl.
        rewrite !app_nil_r. repeat split; try reflexivity; try assumption; discriminate.
      * destruct (IH _ res st1 Hrun) as (pre & post & -> & Hsent & Hend & Hc & Hcl & Hs & Ht).
        exists (resp :: pre), post. simpl in *.
        rewrite Hsent, Hc, Hcl, Hs, sentResponses_app, contacted_app, closed_app, Htr. simpl.
        rewrite !app_nil_r, <- app_assoc. repeat split; try reflexivity; try assumption.
        intros Hres. rewrite (Ht Hres), Htotal.
        destruct (isWarning resp); simpl; lia.
Qed.

(** An error of the loop over the merged frames is [Aborted], with the text
    of a warning of the stream, or [Unknown], after a failed [Send]. *)
Lemma mergeLoop_error_origin (r : SeriesRequest) (resps : list SeriesResponse) :
  forall st0 e st1,
    mergeLoop r resps st0 = (Some e, st1) ->
    (exists resp, In resp resps /\ isWarning resp = true
                  /\ e = StatusError Aborted (GetWarning resp)
                  /\ (is_GROUP_REPLICA (PartialResponseStrategy_ r) = true
                      \/ PartialResponseDisabled r = true
                      \/ is_ABORT (PartialResponseStrategy_ r) = true))
    \/ (exists sent resp e', srvSend sent resp = Some e'
                             /\ e = StatusError Unknown
                                      (ErrorText (Wrap e' "send series response"))).
Proof.
  induction resps as [|resp rest IH]; intros st0 e st1 Hrun.
  - simpl in Hrun. discriminate.
  - cbn [mergeLoop] in Hrun.
    destruct (onWarning r resp st0) as [[e0|] st2] eqn:Hon.
    + inversion Hrun; subst. left. exists resp. split; [left; reflexivity|].
      unfold onWarning in Hon. unfold isWarning.
      destruct (negb (String.eqb (GetWarning resp) "")); [|discriminate].
      destruct (is_GROUP_REPLICA (PartialResponseStrategy_ r)).
      * destruct (1 <? totalFailedStores (bumpTotal st0))%nat; inversion Hon; subst.
        repeat split; try reflexivity. left. reflexivity.
      * destruct (PartialResponseDisabled r || is_ABORT (PartialResponseStrategy_ r)) eqn:Hor;
          inversion Hon; subst. repeat split; try reflexivity. right.
        apply orb_true_iff in Hor. exact Hor.
    + destruct (srvSend (sentResponses (trace st2)) resp) as [e'|] eqn:Hsend.
      * inversion Hrun; subst. right. eexists _, _, _. split; [exact Hsend | reflexivity].
      * destruct (IH _ _ _ Hrun) as [(resp' & Hin & Hrest) | Hsendfail].
        -- left. exists resp'. split; [right; exact Hin | exact Hrest].
        -- right. exact Hsendfail.
Qed.

(** Under policy [group_replica], the loop over the merged frames ends
    without an error only if the failures counted before it and the warnings
    of the stream are at most one together, or the stream has no warning. *)
Lemma mergeLoop_group_replica_budget (r : SeriesRequest) (resps : list SeriesResponse) :
  is_GROUP_REPLICA (PartialResponseStrategy_ r) = true ->
  forall st0 st1,
    mergeLoop r resps st0 = (None, st1) ->
    List.filter isWarning resps = []
    \/ (totalFailedStores st0 + length (List.filter isWarning resps) <= 1)%nat.
Proof.
  intros Hpolicy. induction resps as [|resp rest IH]; intros st0 st1 Hrun.
  - left. reflexivity.
  - cbn [mergeLoop] in Hrun. unfold onWarning in Hrun. rewrite Hpolicy in Hrun.
    change (negb (String.eqb (GetWarning resp) "")) with (isWarning resp) in Hrun.
    simpl List.filter. destruct (isWarning resp).
    + destruct (1 <? totalFailedStores (bumpTotal st0))%nat eqn:Hfew; [discriminate|].
      apply Nat.ltb_ge in Hfew. simpl in Hfew.
      destruct (srvSend _ resp); [discriminate|].
      destruct (IH _ _ Hrun) as [Hnone | Hle].
      * right. rewrite Hnone. simpl. lia.
      * right. simpl in Hle |- *. lia.
    + destruct (srvSend _ resp); [discriminate|].
      destruct (IH _ _ Hrun) as [Hnone | Hle]; [left; exact Hnone | right].
      simpl in Hle. exact Hle.
Qed.

(** What [Series] does once the preamble has passed. *)
Lemma Series_fanout (s : ProxyStore) (ctx : option CtxValue) (req : SeriesRequest)
    (matchers : list Matcher) :
  matchesExternalLabels (Matchers req) (selectorLabels s) = (true, matchers, None) ->
  matchers <> [] ->
  Series s ctx req =
  if (length (survivorsOf s ctx req matchers) =? 0)%nat then (None, [EvSnapshot])
  else
    match openStores (subRequestOf s ctx req matchers)
            (eligibleOf (survivorsOf s ctx req matchers))
            (survivorsOf s ctx req matchers) initialFanout with
    | (Some e, st) => (Some e, trace st ++ runDeferred st)
    | (None, st) =>
        let '(res, st') :=
          mergeLoop (subRequestOf s ctx req matchers)
            (mergedResponses (storeResponses st)) st in
        (res, trace st' ++ runDeferred st')
    end.
Proof.
  intros Hpre Hne. unfold Series. rewrite Hpre. simpl negb. cbv iota.
  destruct matchers as [|m ms]; [congruence|].
  change (length (m :: ms) =? 0)%nat with false. cbv iota. cbv zeta.
  unfold subRequestOf, selectionOf, survivorsOf, eligibleOf.
  rewrite selectStores_stores, selectStores_counters. simpl. reflexivity.
Qed.

Lemma closed_runDeferred (st : FanoutState) : closed (runDeferred st) = rev (storeResponses st).
Proof.
  unfold runDeferred. induction (rev (storeResponses st)) as [|rs l IH]; simpl;
    [reflexivity | rewrite IH; reflexivity].
Qed.

Lemma sentResponses_runDeferred (st : FanoutState) :
  sentResponses (runDeferred st) = [] /\ contacted (runDeferred st) = [].
Proof.
  unfold runDeferred. induction (rev (storeResponses st)) as [|rs l IH]; simpl;
    [split; reflexivity | exact IH].
Qed.

End Runs.

(** ** [Series] as a whole *)

Section SeriesAsAWhole.
Context {env : Collaborators}.

Lemma length_zero_nil {A : Type} (l : list A) : (length l =? 0)%nat = true <-> l = [].
Proof. destruct l; simpl; split; intros H; try reflexivity; discriminate. Qed.

(** [Series] queries backends that survive the filters only, in snapshot
    order and each once: the backends contacted are a prefix of the
    survivors, and all of them when [Series] succeeds. *)
Theorem Series_queries_survivors_in_order (s : ProxyStore) (ctx : option CtxValue)
    (req : SeriesRequest) (matchers : list Matcher) :
  matchesExternalLabels (Matchers req) (selectorLabels s) = (true, matchers, None) ->
  matchers <> [] ->
  exists post,
    List.filter (survives s ctx req matchers) (stores s)
    = contacted (snd (Series s ctx req)) ++ post
    /\ (fst (Series s ctx req) = None -> post = []).
Proof.
  intros Hpre Hne. rewrite (Series_fanout s ctx req matchers Hpre Hne).
  fold (survivorsOf s ctx req matchers).
  destruct (length (survivorsOf s ctx req matchers) =? 0)%nat eqn:Hlen.
  - apply length_zero_nil in Hlen. rewrite Hlen. exists []. split; reflexivity.
  - destruct (openStores _ _ _ initialFanout) as [res st] eqn:Hopen.
    destruct (openStores_run _ _ _ _ _ _ Hopen) as (pre & post & Hsplit & Hc & Hend & _).
    simpl in Hc. destruct res as [e|].
    + exists post. simpl. rewrite contacted_app, Hc.
      rewrite (proj2 (sentResponses_runDeferred st)), app_nil_r.
      split; [exact Hsplit | discriminate].
    + destruct (mergeLoop _ _ st) as [res' st'] eqn:Hmerge.
      destruct (mergeLoop_run _ _ _ _ _ Hmerge) as (_ & _ & _ & _ & _ & Hc' & _).
      exists post. simpl. rewrite contacted_app, Hc', Hc.
      rewrite (proj2 (sentResponses_runDeferred st')), app_nil_r.
      split; [exact Hsplit|]. intros _. apply Hend. reflexivity.
Qed.

(** When [Series] succeeds the caller has received, in order: outside policy
    [group_replica], one warning per backend that failed to open followed by
    every frame of the merge of the response sets that opened; under policy
    [group_replica], every frame of the merge of the response sets of all the
    survivors, those returned with a tolerated failure included. *)
Theorem Series_success_forwards_whole_stream (s : ProxyStore) (ctx : option CtxValue)
    (req : SeriesRequest) (matchers : list Matcher) :
  matchesExternalLabels (Matchers req) (selectorLabels s) = (true, matchers, None) ->
  matchers <> [] ->
  survivorsOf s ctx req matchers <> [] ->
  fst (Series s ctx req) = None ->
  let r := subRequestOf s ctx req matchers in
  let sts := survivorsOf s ctx req matchers in
  (is_GROUP_REPLICA (PartialResponseStrategy_ req) = false ->
   sentResponses (snd (Series s ctx req))
   = openWarnings r sts ++ mergedResponses (openedSets r sts))
  /\ (is_GROUP_REPLICA (PartialResponseStrategy_ req) = true ->
      sentResponses (snd (Series s ctx req))
      = mergedResponses (map (fun c => fst (newAsyncRespSet c r)) sts)).
Proof.
  intros Hpre Hne Hsome. rewrite (Series_fanout s ctx req matchers Hpre Hne).
  destruct (length (survivorsOf s ctx req matchers) =? 0)%nat eqn:Hlen;
    [apply length_zero_nil in Hlen; congruence|].
  intros Hok r sts. fold r sts in Hok |- *.
  destruct (openStores r _ sts initialFanout) as [res st] eqn:Hopen.
  destruct res as [e|]; [discriminate|].
  destruct (openStores_run _ _ _ _ _ _ Hopen) as (pre & post & Hsplit & Hc & Hend & _).
  rewrite (Hend eq_refl), app_nil_r in Hsplit. subst pre. simpl in Hc.
  destruct (mergeLoop r _ st) as [res' st'] eqn:Hmerge. simpl in Hok. subst res'.
  destruct (mergeLoop_run _ _ _ _ _ Hmerge) as (mpre & mpost & Hmsplit & Hsent & Hmend & _).
  rewrite (Hmend eq_refl), app_nil_r in Hmsplit. subst mpre.
  simpl snd. rewrite sentResponses_app, (proj1 (sentResponses_runDeferred st')), app_nil_r, Hsent.
  split; intros Hpolicy.
  - destruct (openStores_kept r _ sts Hpolicy _ _ _ Hopen) as (pre & ws & Hc' & Hsets & Hws & Hall).
    simpl in Hc', Hsets, Hws. rewrite Hc in Hc'. subst pre.
    rewrite Hws, Hsets, (Hall eq_refl). reflexivity.
  - destruct (openStores_kept_group_replica r _ sts Hpolicy _ _ _ Hopen)
      as (Hnosend & kept & Hsets & [[_ Hc'] | (c & e & Hres & _)]); [|discriminate].
    simpl in Hnosend, Hsets, Hc'. rewrite Hc in Hc'. subst kept.
    rewrite Hnosend, Hsets. reflexivity.
Qed.

(** Outside policy [group_replica], on every return path of [Series]: the
    [Close] calls come last, and the response sets closed are exactly those
    of the contacted backends that opened, each once, last opened first. *)
Theorem Series_closes_what_it_opened (s : ProxyStore) (ctx : option CtxValue)
    (req : SeriesRequest) (matchers : list Matcher) :
  matchesExternalLabels (Matchers req) (selectorLabels s) = (true, matchers, None) ->
  matchers <> [] ->
  is_GROUP_REPLICA (PartialResponseStrategy_ req) = false ->
  exists body,
    snd (Series s ctx req) = body ++ map EvClose (closed (snd (Series s ctx req)))
    /\ closed body = []
    /\ closed (snd (Series s ctx req))
       = rev (openedSets (subRequestOf s ctx req matchers) (contacted (snd (Series s ctx req)))).
Proof.
  intros Hpre Hne Hpolicy. rewrite (Series_fanout s ctx req matchers Hpre Hne).
  destruct (length (survivorsOf s ctx req matchers) =? 0)%nat eqn:Hlen.
  - exists [EvSnapshot]. simpl. repeat split; reflexivity.
  - assert (Hfinish : forall st : FanoutState,
              closed (trace st) = [] ->
              storeResponses st
              = openedSets (subRequestOf s ctx req matchers) (contacted (trace st)) ->
              exists body,
                trace st ++ runDeferred st
                = body ++ map EvClose (closed (trace st ++ runDeferred st))
                /\ closed body = []
                /\ closed (trace st ++ runDeferred st)
                   = rev (openedSets (subRequestOf s ctx req matchers)
                            (contacted (trace st ++ runDeferred st)))).
    { intros st Hcl Hsets. exists (trace st).
      rewrite closed_app, contacted_app, Hcl, closed_runDeferred.
      rewrite (proj2 (sentResponses_runDeferred st)), app_nil_r, <- Hsets. simpl.
      repeat split; try reflexivity; try exact Hcl. }
    destruct (openStores _ _ _ initialFanout) as [res st] eqn:Hopen.
    destruct (openStores_run _ _ _ _ _ _ Hopen) as (_ & _ & _ & _ & _ & _ & _ & Hcl).
    destruct (openStores_kept (subRequestOf s ctx req matchers) _ _ Hpolicy _ _ _ Hopen)
      as (pre & ws & Hc & Hsets & _).
    simpl in Hcl, Hc, Hsets. rewrite <- Hc in Hsets.
    destruct res as [e|].
    + simpl snd. apply Hfinish; assumption.
    + destruct (mergeLoop _ _ st) as [res' st'] eqn:Hmerge.
      destruct (mergeLoop_run _ _ _ _ _ Hmerge) as (_ & _ & _ & _ & _ & Hc' & Hcl' & Hsets' & _).
      simpl snd. apply Hfinish.
      * rewrite Hcl'. exact Hcl.
      * rewrite Hsets', Hc'. exact Hsets.
Qed.

(** Under policy [group_replica] a successful [Series] closes one response
    set per contacted backend, last opened first: the response set that came
    with a tolerated open failure is closed like the others. *)
Theorem Series_group_replica_closes_every_set (s : ProxyStore) (ctx : option CtxValue)
    (req : SeriesRequest) (matchers : list Matcher) :
  matchesExternalLabels (Matchers req) (selectorLabels s) = (true, matchers, None) ->
  matchers <> [] ->
  survivorsOf s ctx req matchers <> [] ->
  is_GROUP_REPLICA (PartialResponseStrategy_ req) = true ->
  fst (Series s ctx req) = None ->
  closed (snd (Series s ctx req))
  = rev (map (fun c => fst (newAsyncRespSet c (subRequestOf s ctx req matchers)))
           (survivorsOf s ctx req matchers))
  /\ contacted (snd (Series s ctx req)) = survivorsOf s ctx req matchers.
Proof.
  intros Hpre Hne Hsome Hpolicy. rewrite (Series_fanout s ctx req matchers Hpre Hne).
  destruct (length (survivorsOf s ctx req matchers) =? 0)%nat eqn:Hlen;
    [apply length_zero_nil in Hlen; congruence|].
  intros Hok.
  destruct (openStores _ _ _ initialFanout) as [res st] eqn:Hopen.
  destruct res as [e|]; [discriminate|].
  destruct (openStores_run _ _ _ _ _ _ Hopen) as (pre & post & Hsplit & Hc & Hend & _ & _ & Hcl).
  rewrite (Hend eq_refl), app_nil_r in Hsplit. subst pre. simpl in Hc, Hcl.
  destruct (openStores_kept_group_replica (subRequestOf s ctx req matchers) _ _ Hpolicy
              _ _ _ Hopen)
    as (_ & kept & Hsets & [[_ Hc'] | (c & e & Hres & _)]); [|discriminate].
  simpl in Hsets, Hc'. rewrite Hc in Hc'. subst kept.
  destruct (mergeLoop _ _ st) as [res' st'] eqn:Hmerge.
  destruct (mergeLoop_run _ _ _ _ _ Hmerge) as (_ & _ & _ & _ & _ & Hc' & Hcl' & Hsets' & _).
  simpl snd. rewrite closed_app, contacted_app, closed_runDeferred.
  rewrite (proj2 (sentResponses_runDeferred st')), app_nil_r.
  rewrite Hcl', Hcl, Hsets', Hsets, Hc', Hc. split; reflexivity.
Qed.

(** Under policy [warn] with [partial_response_disabled] clear and an
    outbound stream that accepts every frame, [Series] cannot fail once the
    preamble has passed: it queries every survivor, warns once per backend
    that fails to open and forwards the whole merged stream. *)
Theorem Series_warn_policy_never_fails (s : ProxyStore) (ctx : option CtxValue)
    (req : SeriesRequest) (matchers : list Matcher) :
  matchesExternalLabels (Matchers req) (selectorLabels s) = (true, matchers, None) ->
  matchers <> [] ->
  survivorsOf s ctx req matchers <> [] ->
  PartialResponseStrategy_ req = PartialResponseStrategy_WARN ->
  PartialResponseDisabled req = false ->
  (forall sent resp, srvSend sent resp = None) ->
  let r := subRequestOf s ctx req matchers in
  let sts := survivorsOf s ctx req matchers in
  fst (Series s ctx req) = None
  /\ contacted (snd (Series s ctx req)) = sts
  /\ sentResponses (snd (Series s ctx req))
     = openWarnings r sts ++ mergedResponses (openedSets r sts).
Proof.
  intros Hpre Hne Hsome Hpolicy Hflag Hsend r sts.
  rewrite (Series_fanout s ctx req matchers Hpre Hne).
  destruct (length (survivorsOf s ctx req matchers) =? 0)%nat eqn:Hlen;
    [apply length_zero_nil in Hlen; congruence|].
  fold r sts.
  assert (Hr1 : is_GROUP_REPLICA (PartialResponseStrategy_ r) = false)
    by (simpl; rewrite Hpolicy; reflexivity).
  assert (Hr2 : negb (PartialResponseDisabled r) || is_WARN (PartialResponseStrategy_ r) = true)
    by (simpl; rewrite Hpolicy; apply orb_true_r).
  destruct (openStores_warn_loop r (eligibleOf sts) Hr1 Hr2 Hsend sts initialFanout)
    as (st & Hopen & Hsent & Hc & Hsets).
  rewrite Hopen. simpl in Hsent, Hc, Hsets.
  destruct (mergeLoop r _ st) as [res' st'] eqn:Hmerge.
  assert (Hres : res' = None).
  { destruct res' as [e|]; [|reflexivity]. exfalso.
    destruct (mergeLoop_error_origin _ _ _ _ _ Hmerge)
      as [(resp & _ & _ & _ & Hcase) | (sent & resp & e' & Hfail & _)].
    - simpl in Hcase. rewrite Hpolicy, Hflag in Hcase.
      destruct Hcase as [H | [H | H]]; discriminate.
    - rewrite Hsend in Hfail. discriminate. }
  subst res'.
  destruct (mergeLoop_run _ _ _ _ _ Hmerge) as (mpre & mpost & Hmsplit & Hsent' & Hmend & Hc' & _).
  rewrite (Hmend eq_refl), app_nil_r in Hmsplit. subst mpre.
  simpl. rewrite sentResponses_app, contacted_app.
  destruct (sentResponses_runDeferred st') as [-> ->]. rewrite !app_nil_r.
  rewrite Hsent', Hsent, Hc', Hc, Hsets. repeat split; reflexivity.
Qed.

(** Every error [Series] returns is an [InvalidArgument] status of the
    preamble, the open error of a backend of the snapshot, the error of a
    [Send] of a warning, or a status [Aborted] or [Unknown]. *)
Theorem Series_error_origin (s : ProxyStore) (ctx : option CtxValue) (req : SeriesRequest)
    (e : error) :
  fst (Series s ctx req) = Some e ->
  (exists d, e = StatusError InvalidArgument d)
  \/ (exists c r, In c (stores s) /\ openError r c = Some e)
  \/ (exists sent resp, srvSend sent resp = Some e)
  \/ (exists d, e = StatusError Aborted d)
  \/ (exists d, e = StatusError Unknown d).
Proof.
  destruct (matchesExternalLabels (Matchers req) (selectorLabels s)) as [[m ms] err] eqn:Hpre.
  destruct err as [e0|].
  { unfold Series. rewrite Hpre. simpl. intros H. inversion H. left. eexists. reflexivity. }
  destruct m.
  2:{ unfold Series. rewrite Hpre. simpl. discriminate. }
  destruct ms as [|m0 ms].
  { unfold Series. rewrite Hpre. simpl. intros H. inversion H. left. eexists. reflexivity. }
  rewrite (Series_fanout s ctx req (m0 :: ms) Hpre) by discriminate.
  destruct (length (survivorsOf s ctx req (m0 :: ms)) =? 0)%nat; [discriminate|].
  destruct (openStores _ _ _ initialFanout) as [res st] eqn:Hopen.
  destruct res as [e1|].
  - simpl. intros H. inversion H; subst.
    destruct (openStores_error_origin _ _ _ _ _ _ Hopen) as [(c & Hin & Herr) | Hsend].
    + right. left. exists c, (subRequestOf s ctx req (m0 :: ms)). split; [|exact Herr].
      unfold survivorsOf in Hin. apply filter_In in Hin. exact (proj1 Hin).
    + right. right. left. exact Hsend.
  - destruct (mergeLoop _ _ st) as [res' st'] eqn:Hmerge. simpl. intros ->.
    destruct (mergeLoop_error_origin _ _ _ _ _ Hmerge)
      as [(resp & _ & _ & -> & _) | (sent & resp & e' & _ & ->)].
    + right. right. right. left. eexists. reflexivity.
    + right. right. right. right. eexists. reflexivity.
Qed.

(** Under policy [group_replica] a successful [Series] has seen no warning
    in the merged stream, or exactly one and then no backend failed to open:
    open failures and streamed warnings share a budget of one. *)
Theorem Series_group_replica_budget (s : ProxyStore) (ctx : option CtxValue)
    (req : SeriesRequest) (matchers : list Matcher) :
  matchesExternalLabels (Matchers req) (selectorLabels s) = (true, matchers, None) ->
  matchers <> [] ->
  survivorsOf s ctx req matchers <> [] ->
  is_GROUP_REPLICA (PartialResponseStrategy_ req) = true ->
  fst (Series s ctx req) = None ->
  let r := subRequestOf s ctx req matchers in
  let sts := survivorsOf s ctx req matchers in
  let streamed :=
    List.filter isWarning (mergedResponses (map (fun c => fst (newAsyncRespSet c r)) sts)) in
  streamed = []
  \/ (List.filter (failsToOpen r) sts = [] /\ length streamed = 1%nat).
Proof.
  intros Hpre Hne Hsome Hpolicy. rewrite (Series_fanout s ctx req matchers Hpre Hne).
  destruct (length (survivorsOf s ctx req matchers) =? 0)%nat eqn:Hlen;
    [apply length_zero_nil in Hlen; congruence|].
  intros Hok r sts streamed. fold r sts in Hok.
  destruct (openStores r _ sts initialFanout) as [res st] eqn:Hopen.
  destruct res as [e|]; [discriminate|].
  destruct (openStores_run _ _ _ _ _ _ Hopen) as (pre & post & Hsplit & Hc & Hend & Htotal & _).
  rewrite (Hend eq_refl), app_nil_r in Hsplit. subst pre. simpl in Hc, Htotal.
  destruct (openStores_kept_group_replica r _ sts Hpolicy _ _ _ Hopen)
    as (_ & kept & Hsets & [[_ Hc'] | (c & e & Hres & _)]); [|discriminate].
  simpl in Hsets, Hc'. rewrite Hc in Hc'. subst kept.
  destruct (mergeLoop r _ st) as [res' st'] eqn:Hmerge. simpl in Hok. subst res'.
  rewrite Hsets in Hmerge.
  destruct (mergeLoop_group_replica_budget r _ Hpolicy _ _ Hmerge) as [Hnone | Hle].
  - left. exact Hnone.
  - fold streamed in Hle. rewrite Htotal in Hle.
    destruct streamed as [|w ws] eqn:Hstreamed; [left; reflexivity|]. right.
    simpl in Hle |- *. split.
    + destruct (List.filter (failsToOpen r) sts); [reflexivity | simpl in Hle; lia].
    + destruct ws; [reflexivity | simpl in Hle; lia].
Qed.

(** The counters of the fan-out loop count the contacted backends that
    failed to open: [totalFailedStores] all of them, [failedStores[g][k]]
    those of replica [k] of group [g]; the loop closes nothing. *)
Theorem fanout_counters_count_failures (r : SeriesRequest)
    (elig : gmap string (gmap string nat)) (sts : list Client) :
  let st1 := snd (openStores r elig sts initialFanout) in
  let queried := contacted (trace st1) in
  (exists post, sts = queried ++ post)
  /\ totalFailedStores st1 = length (List.filter (failsToOpen r) queried)
  /\ (forall g k,
        countOf (failedStores st1) g k
        = length (List.filter (sameKeys g k) (List.filter (failsToOpen r) queried)))
  /\ closed (trace st1) = [].
Proof.
  cbv zeta. destruct (openStores r elig sts initialFanout) as [res st] eqn:Hopen. simpl snd.
  destruct (openStores_run _ _ _ _ _ _ Hopen)
    as (pre & post & Hsplit & Hc & _ & Htotal & Hfailed & Hcl).
  simpl in Hc, Htotal, Hfailed, Hcl. rewrite Hc, Htotal, Hfailed.
  split; [exists post; exact Hsplit|]. split; [reflexivity|]. split; [|exact Hcl].
  intros g k. rewrite countOf_failuresOf, countOf_empty. reflexivity.
Qed.

End SeriesAsAWhole.

(** ** The stream under an aborting policy *)

Section AbortingStream.
Context {env : Collaborators}.

(** Outside policy [group_replica], with policy [abort] or with
    [partial_response_disabled] set, the first warning of the merged stream
    ends the request with [Aborted] and the text of that warning: the frames
    before it have been forwarded, the warning and the frames after it have
    not. *)
Theorem stream_aborts_at_first_warning (r : SeriesRequest)
    (pre : list SeriesResponse) (resp : SeriesResponse) (post : list SeriesResponse)
    (st0 : FanoutState) :
  is_GROUP_REPLICA (PartialResponseStrategy_ r) = false ->
  PartialResponseDisabled r = true
  \/ PartialResponseStrategy_ r = PartialResponseStrategy_ABORT ->
  (forall x, In x pre -> isWarning x = false) ->
  isWarning resp = true ->
  (forall sent x, srvSend sent x = None) ->
  fst (mergeLoop r (pre ++ resp :: post) st0) = Some (StatusError Aborted (GetWarning resp))
  /\ sentResponses (trace (snd (mergeLoop r (pre ++ resp :: post) st0)))
     = sentResponses (trace st0) ++ pre.
Proof.
  intros Hpolicy Hcase Hquiet Hwarning Hsend.
  assert (Habort : PartialResponseDisabled r || is_ABORT (PartialResponseStrategy_ r) = true).
  { destruct Hcase as [-> | ->]; [reflexivity | apply orb_true_r]. }
  revert st0. induction pre as [|x pre IH]; intros st0.
  - simpl app. cbn [mergeLoop]. unfold onWarning.
    change (negb (String.eqb (GetWarning resp) "")) with (isWarning resp).
    rewrite Hwarning, Hpolicy, Habort. simpl. rewrite app_nil_r. split; reflexivity.
  - simpl app. cbn [mergeLoop]. unfold onWarning.
    change (negb (String.eqb (GetWarning x) "")) with (isWarning x).
    rewrite (Hquiet x (or_introl eq_refl)), Hsend.
    destruct (IH (fun y Hy => Hquiet y (or_intror Hy)) (logEvent (EvSend x) st0)) as [Hres Hsent].
    split; [exact Hres|]. rewrite Hsent. simpl. rewrite sentResponses_app. simpl.
    rewrite <- app_assoc. reflexivity.
Qed.

End AbortingStream.

(** ** The announced time range and label sets *)

Section Announcements.
Context {env : Collaborators}.

Lemma timeRange_fold_split (sts : list Client) (mn mx : Z) :
  fold_left timeRangeStep sts (mn, mx)
  = (fold_left Z.min (map (fun st => fst (TimeRange st)) sts) mn,
     fold_left Z.max (map (fun st => snd (TimeRange st)) sts) mx).
Proof.
  revert mn mx. induction sts as [|st rest IH]; intros mn mx; simpl; [reflexivity|].
  destruct (TimeRange st) as [mint maxt]. simpl. rewrite <- IH. f_equal. f_equal.
  - destruct (Z.ltb_spec mint mn); lia.
  - destruct (Z.gtb_spec maxt mx); lia.
Qed.

Lemma fold_max_init (l : list Z) (a b : Z) :
  fold_left Z.max l (Z.max a b) = Z.max a (fold_left Z.max l b).
Proof.
  revert b. induction l as [|x l IH]; intros b; simpl; [reflexivity|].
  rewrite <- Z.max_assoc. apply IH.
Qed.

(** [TimeRange] of the proxy: the widest range when there is no backend,
    otherwise the least [min_time] and the greatest [max_time] of the
    backends, negative times included. *)
Theorem ProxyStore_TimeRange_spans (s : ProxyStore) :
  (stores s = [] -> ProxyStore_TimeRange s = (MinInt64, MaxInt64))
  /\ (stores s <> [] ->
      (forall st, In st (stores s) ->
         (fst (TimeRange st) <= MaxInt64)%Z /\ (MinInt64 <= snd (TimeRange st))%Z) ->
      isMinOf (fst (ProxyStore_TimeRange s)) (minTimes s)
      /\ isMaxOf (snd (ProxyStore_TimeRange s)) (maxTimes s)).
Proof.
  unfold ProxyStore_TimeRange. split.
  - intros ->. reflexivity.
  - intros Hne Hint64. destruct (stores s) as [|st0 rest] eqn:Hstores; [congruence|].
    change (length (st0 :: rest) =? 0)%nat with false. cbv iota. rewrite <- Hstores in *.
    pose proof (timeRange_fold (stores s) MaxInt64 MinInt64) as Hfold. cbv zeta in Hfold.
    destruct Hfold as [(Hle & Hall & Hin) (Hge & Hall' & Hin')].
    unfold isMinOf, isMaxOf, minTimes, maxTimes. split; split.
    + apply in_map_iff. destruct Hin as [Hinit | (st & Hst & Heq)].
      * exists st0. assert (Hst0 : In st0 (stores s)) by (rewrite Hstores; left; reflexivity).
        split; [|exact Hst0]. pose proof (Hall st0 Hst0). pose proof (Hint64 st0 Hst0). lia.
      * exists st. split; [symmetry; exact Heq | exact Hst].
    + intros y Hy. apply in_map_iff in Hy. destruct Hy as (st & <- & Hst). apply Hall. exact Hst.
    + apply in_map_iff. destruct Hin' as [Hinit | (st & Hst & Heq)].
      * exists st0. assert (Hst0 : In st0 (stores s)) by (rewrite Hstores; left; reflexivity).
        split; [|exact Hst0]. pose proof (Hall' st0 Hst0). pose proof (Hint64 st0 Hst0). lia.
      * exists st. split; [symmetry; exact Heq | exact Hst].
    + intros y Hy. apply in_map_iff in Hy. destruct Hy as (st & <- & Hst). apply Hall'. exact Hst.
Qed.

(** With at least one backend, [Info] announces the [min_time] of
    [TimeRange] and the greater of 0 and its [max_time]; with none, the two
    differ: [Info] says [0, 0] and [TimeRange] the widest range. *)
Theorem Info_range_against_TimeRange (s : ProxyStore) :
  (stores s <> [] ->
   info_MinTime (Info s) = fst (ProxyStore_TimeRange s)
   /\ info_MaxTime (Info s) = Z.max 0 (snd (ProxyStore_TimeRange s)))
  /\ (stores s = [] ->
      (info_MinTime (Info s), info_MaxTime (Info s)) = (0%Z, 0%Z)
      /\ ProxyStore_TimeRange s = (MinInt64, MaxInt64)).
Proof.
  split.
  - intros Hne. destruct (Info_times_nonempty s Hne) as [-> ->].
    unfold ProxyStore_TimeRange. destruct (stores s) as [|st0 rest] eqn:Hstores; [congruence|].
    change (length (st0 :: rest) =? 0)%nat with false. cbv iota.
    rewrite !timeRange_fold_split. cbn [fst snd]. split; [reflexivity|].
    rewrite <- fold_max_init. reflexivity.
  - intros Hempty. unfold Info, ProxyStore_TimeRange. rewrite Hempty. simpl. split; reflexivity.
Qed.

Lemma LabelSet_nonempty (s : ProxyStore) :
  stores s <> [] ->
  LabelSet s =
  let announced := map snd (map_to_list (byHash (mergedOf s) ∅)) in
  if (length announced =? 0)%nat && (0 <? length (selectorLabels s))%nat
  then announced ++ [selectorLabels s] else announced.
Proof.
  intros Hne. unfold LabelSet. destruct (stores s) as [|st rest] eqn:Hstores; [congruence|].
  change (length (st :: rest) =? 0)%nat with false. cbv iota.
  rewrite <- Hstores, mergedLabelSets_byHash. reflexivity.
Qed.

(** [LabelSet] announces the label sets [Info] announces. It never announces
    a label set twice; each announced label set is a backend's label set
    merged with the selector labels, or the selector labels themselves; it
    announces nothing without a backend, and something whenever there is a
    backend and the selector labels are not empty. *)
Theorem LabelSet_announcements (s : ProxyStore) :
  Permutation (LabelSet s) (info_LabelSets (Info s))
  /\ List.NoDup (LabelSet s)
  /\ (forall ls, In ls (LabelSet s) -> In ls (mergedOf s) \/ ls = selectorLabels s)
  /\ (stores s = [] -> LabelSet s = [])
  /\ (stores s <> [] -> selectorLabels s <> [] -> LabelSet s <> []).
Proof.
  destruct (stores s) as [|st0 rest] eqn:Hstores.
  - assert (Hnil : LabelSet s = []) by (unfold LabelSet; rewrite Hstores; reflexivity).
    assert (Hinfo : info_LabelSets (Info s) = []) by (unfold Info; rewrite Hstores; reflexivity).
    rewrite Hnil, Hinfo.
    split; [reflexivity|]. split; [constructor|]. split; [intros ls []|].
    split; [reflexivity | congruence].
  - assert (Hne : stores s <> []) by (rewrite Hstores; discriminate).
    rewrite (LabelSet_nonempty s Hne), (Info_LabelSets_nonempty s Hne). cbv zeta.
    set (announced := map snd (map_to_list (byHash (mergedOf s) ∅))).
    assert (Hnodup : List.NoDup announced) by apply byHash_values_NoDup.
    assert (Hfrom : forall ls, In ls announced -> In ls (mergedOf s)).
    { intros ls Hin. apply In_map_to_list_values in Hin. destruct Hin as (k & Hk).
      destruct (byHash_lookup_inv _ _ _ _ Hk) as [[Hin _] | Hempty]; [exact Hin|].
      rewrite lookup_empty in Hempty. discriminate. }
    split; [reflexivity|].
    destruct announced as [|a l] eqn:Hann; simpl.
    + destruct (selectorLabels s) as [|x sel] eqn:Hsel; simpl.
      * split; [constructor|]. split; [intros ls []|]. split; congruence.
      * split; [constructor; [intros [] | constructor]|].
        split; [intros ls [<- | []]; right; reflexivity|].
        split; [discriminate|]. intros _ _. discriminate.
    + split; [exact Hnodup|].
      split; [intros ls Hin; left; apply Hfrom; exact Hin|].
      split; [discriminate|]. intros _ _. discriminate.
Qed.

End Announcements.

(** ** LabelValues and LabelNames as a whole *)

Section LabelCalls.
Context {env : Collaborators}.

Lemma firstError_app (old : option error) (l1 l2 : list error) :
  firstError (firstError old l1) l2 = firstError old (l1 ++ l2).
Proof. destruct old; [reflexivity|]. destruct l1; reflexivity. Qed.

(** The state after the fan-out of [LabelValues], backend by backend. *)
Lemma labelValuesFanout_run (s : ProxyStore) (ctx : option CtxValue) (r : LabelValuesRequest)
    (snapshot : list Client) :
  forall st0,
    let called :=
      List.filter
        (fun st => storeMatches ctx st (lv_Start r) (lv_End r) []
                   && fst (tsdbSelector s (LabelSets st))) snapshot in
    let st1 := labelValuesFanout s ctx r snapshot st0 in
    lvs_trace st1 = lvs_trace st0 ++ map EvLabelValues called
    /\ lvs_all st1 = lvs_all st0 ++ flat_map (labelValuesOf s r) called
    /\ lvs_warnings st1 = lvs_warnings st0 ++ flat_map (labelValuesWarningsOf s r) called
    /\ lvs_err st1 = firstError (lvs_err st0) (flat_map (labelValuesErrorOf s r) called).
Proof.
  induction snapshot as [|st rest IH]; intros st0; cbv zeta.
  - simpl. rewrite !app_nil_r. destruct (lvs_err st0); repeat split; reflexivity.
  - cbn [labelValuesFanout List.filter].
    destruct (storeMatches ctx st (lv_Start r) (lv_End r) []); simpl negb; cbv iota;
      [|exact (IH st0)].
    unfold labelValuesOf, labelValuesWarningsOf, labelValuesErrorOf, labelValuesAnswer in *.
    destruct (tsdbSelector s (LabelSets st)) as [matches extra] eqn:Hsel.
    destruct matches; simpl negb; cbv iota; cbn [fst andb]; [|exact (IH st0)].
    cbn [map flat_map]. rewrite Hsel. cbn [snd].
    destruct (clientLabelValues st _) as [resp | err].
    + destruct (IH {| lvs_warnings := lvs_warnings st0 ++ lv_Warnings resp;
                      lvs_all := lvs_all st0 ++ [lv_Values resp];
                      lvs_err := lvs_err st0;
                      lvs_trace := lvs_trace st0 ++ [EvLabelValues st] |})
        as (Htr & Hall & Hwarn & Herr).
      cbv zeta in Htr, Hall, Hwarn, Herr. cbn [lvs_trace lvs_all lvs_warnings lvs_err] in *.
      rewrite Htr, Hall, Hwarn, Herr, <- !app_assoc. repeat split; reflexivity.
    + destruct (lv_PartialResponseDisabled r).
      * destruct (IH {| lvs_warnings := lvs_warnings st0;
                        lvs_all := lvs_all st0;
                        lvs_err := match lvs_err st0 with
                                   | Some e => Some e
                                   | None => Some (Wrap err (fetchLabelValuesMsg st))
                                   end;
                        lvs_trace := lvs_trace st0 ++ [EvLabelValues st] |})
          as (Htr & Hall & Hwarn & Herr).
        cbv zeta in Htr, Hall, Hwarn, Herr. cbn [lvs_trace lvs_all lvs_warnings lvs_err] in *.
        rewrite Htr, Hall, Hwarn, Herr, <- !app_assoc.
        repeat split; try reflexivity. destruct (lvs_err st0); reflexivity.
      * destruct (IH {| lvs_warnings :=
                          lvs_warnings st0
                          ++ [ErrorText (Wrap (Wrap err (fetchLabelValuesMsg st))
                                           (fetchLabelValuesMsg st))];
                        lvs_all := lvs_all st0;
                        lvs_err := lvs_err st0;
                        lvs_trace := lvs_trace st0 ++ [EvLabelValues st] |})
          as (Htr & Hall & Hwarn & Herr).
        cbv zeta in Htr, Hall, Hwarn, Herr. cbn [lvs_trace lvs_all lvs_warnings lvs_err] in *.
        rewrite Htr, Hall, Hwarn, Herr, <- !app_assoc. repeat split; reflexivity.
Qed.

Lemma contacted_label_calls (sts : list Client) :
  contacted (EvSnapshot :: map EvLabelValues sts) = sts.
Proof. simpl. induction sts as [|st rest IH]; simpl; [reflexivity | rewrite IH; reflexivity]. Qed.

Lemma LabelValues_run (s : ProxyStore) (ctx : option CtxValue) (r : LabelValuesRequest) :
  lv_Label r <> "" ->
  let called := calledForLabels s ctx (lv_Start r) (lv_End r) in
  LabelValues s ctx r =
  (match hd_error (flat_map (labelValuesErrorOf s r) called) with
   | Some e => inr e
   | None =>
       inl {| lv_Values := MergeUnsortedSlices (flat_map (labelValuesOf s r) called);
              lv_Warnings := flat_map (labelValuesWarningsOf s r) called |}
   end,
   EvSnapshot :: map EvLabelValues called).
Proof.
  intros Hlabel. cbv zeta. unfold LabelValues.
  destruct (String.eqb_spec (lv_Label r) "") as [Heq | _]; [congruence|].
  match goal with |- context [labelValuesFanout s ctx r (stores s) ?i] =>
    destruct (labelValuesFanout_run s ctx r (stores s) i) as (Htr & Hall & Hwarn & Herr) end.
  cbv zeta in Htr, Hall, Hwarn, Herr. simpl in Htr, Hall, Hwarn, Herr.
  fold (calledForLabels s ctx (lv_Start r) (lv_End r)) in Htr, Hall, Hwarn, Herr.
  rewrite Htr, Hall, Hwarn, Herr.
  destruct (hd_error (flat_map (labelValuesErrorOf s r) _)); reflexivity.
Qed.


(** With a label name and partial responses disabled, [LabelValues] fails
    iff the call to one of the selected backends fails, with the error of
    such a backend wrapped in the fetch message; every selected backend is
    called all the same, and without a failure the warnings are those the
    backends reported. *)
Theorem LabelValues_strict (s : ProxyStore) (ctx : option CtxValue) (r : LabelValuesRequest) :
  lv_Label r <> "" ->
  lv_PartialResponseDisabled r = true ->
  let called := calledForLabels s ctx (lv_Start r) (lv_End r) in
  Permutation (contacted (snd (LabelValues s ctx r))) called
  /\ ((exists e, fst (LabelValues s ctx r) = inr e)
      <-> exists st err, In st called /\ labelValuesAnswer s r st = inr err)
  /\ (forall e, fst (LabelValues s ctx r) = inr e ->
        exists st err, In st called /\ labelValuesAnswer s r st = inr err
                       /\ e = Wrap err (fetchLabelValuesMsg st))
  /\ (forall resp, fst (LabelValues s ctx r) = inl resp ->
        Permutation (lv_Warnings resp)
          (flat_map (fun st => match labelValuesAnswer s r st with
                               | inl answer => lv_Warnings answer
                               | inr _ => []
                               end) called)).
Proof.
  intros Hlabel Hflag called. rewrite (LabelValues_run s ctx r Hlabel). fold called.
  cbn [fst snd]. rewrite contacted_label_calls.
  assert (Herrs : forall e, In e (flat_map (labelValuesErrorOf s r) called) <->
                            exists st err, In st called /\ labelValuesAnswer s r st = inr err
                                           /\ e = Wrap err (fetchLabelValuesMsg st)).
  { intros e. rewrite in_flat_map. unfold labelValuesErrorOf. rewrite Hflag. split.
    - intros (st & Hin & He). destruct (labelValuesAnswer s r st) as [resp | err] eqn:Hans;
        [destruct He|]. destruct He as [<- | []]. exists st, err. repeat split; assumption.
    - intros (st & err & Hin & Hans & ->). exists st. split; [exact Hin|].
      rewrite Hans. left. reflexivity. }
  split; [reflexivity|].
  destruct (flat_map (labelValuesErrorOf s r) called) as [|e0 errs] eqn:Hlist; simpl hd_error;
    cbv iota.
  - split; [|split].
    + split.
      * intros (e & He). discriminate.
      * intros (st & err & Hin & Hans). exfalso.
        apply (proj2 (Herrs (Wrap err (fetchLabelValuesMsg st)))).
        exists st, err. repeat split; assumption.
    + intros e He. discriminate.
    + intros resp Hresp. inversion Hresp; subst. cbn [lv_Warnings].
      unfold labelValuesWarningsOf. rewrite Hflag. reflexivity.
  - destruct (proj1 (Herrs e0) (or_introl eq_refl)) as (st & err & Hin & Hans & He0).
    split; [|split].
    + split.
      * intros _. exists st, err. split; assumption.
      * intros _. exists e0. reflexivity.
    + intros e He. inversion He; subst e. exists st, err. repeat split; assumption.
    + intros resp Hresp. discriminate.
Qed.

Section LabelNamesCalls.
Variable clientLabelNames : Client -> LabelNamesRequest -> LabelNamesResponse + error.

(** The state after the fan-out of [LabelNames], backend by backend. *)
Lemma labelNamesFanout_run (s : ProxyStore) (ctx : option CtxValue) (r : LabelNamesRequest)
    (snapshot : list Client) :
  forall st0,
    let called :=
      List.filter
        (fun st => storeMatches ctx st (ln_Start r) (ln_End r) []
                   && fst (tsdbSelector s (LabelSets st))) snapshot in
    let st1 := labelNamesFanout clientLabelNames s ctx r snapshot st0 in
    lns_called st1 = lns_called st0 ++ called
    /\ lns_names st1 = lns_names st0 ++ flat_map (labelNamesOf clientLabelNames s r) called
    /\ lns_warnings st1
       = lns_warnings st0 ++ flat_map (labelNamesWarningsOf clientLabelNames s r) called
    /\ lns_err st1
       = firstError (lns_err st0) (flat_map (labelNamesErrorOf clientLabelNames s r) called).
Proof.
  induction snapshot as [|st rest IH]; intros st0; cbv zeta.
  - simpl. rewrite !app_nil_r. destruct (lns_err st0); repeat split; reflexivity.
  - cbn [labelNamesFanout List.filter].
    destruct (storeMatches ctx st (ln_Start r) (ln_End r) []); simpl negb; cbv iota;
      [|exact (IH st0)].
    unfold labelNamesOf, labelNamesWarningsOf, labelNamesErrorOf, labelNamesAnswer in *.
    destruct (tsdbSelector s (LabelSets st)) as [matches extra] eqn:Hsel.
    destruct matches; simpl negb; cbv iota; cbn [fst andb]; [|exact (IH st0)].
    cbn [flat_map]. rewrite Hsel. cbn [snd].
    destruct (clientLabelNames st _) as [resp | err].
    + destruct (IH {| lns_warnings := lns_warnings st0 ++ ln_Warnings resp;
                      lns_names := lns_names st0 ++ [ln_Names resp];
                      lns_err := lns_err st0;
                      lns_called := lns_called st0 ++ [st] |})
        as (Htr & Hall & Hwarn & Herr).
      cbv zeta in Htr, Hall, Hwarn, Herr.
      cbn [lns_called lns_names lns_warnings lns_err] in *.
      rewrite Htr, Hall, Hwarn, Herr, <- !app_assoc. repeat split; reflexivity.
    + destruct (ln_PartialResponseDisabled r).
      * destruct (IH {| lns_warnings := lns_warnings st0;
                        lns_names := lns_names st0;
                        lns_err := match lns_err st0 with
                                   | Some e => Some e
                                   | None => Some (Wrap err (fetchLabelNamesMsg st))
                                   end;
                        lns_called := lns_called st0 ++ [st] |})
          as (Htr & Hall & Hwarn & Herr).
        cbv zeta in Htr, Hall, Hwarn, Herr.
        cbn [lns_called lns_names lns_warnings lns_err] in *.
        rewrite Htr, Hall, Hwarn, Herr, <- !app_assoc.
        repeat split; try reflexivity. destruct (lns_err st0); reflexivity.
      * destruct (IH {| lns_warnings :=
                          lns_warnings st0 ++ [ErrorText (Wrap err (fetchLabelNamesMsg st))];
                        lns_names := lns_names st0;
                        lns_err := lns_err st0;
                        lns_called := lns_called st0 ++ [st] |})
          as (Htr & Hall & Hwarn & Herr).
        cbv zeta in Htr, Hall, Hwarn, Herr.
        cbn [lns_called lns_names lns_warnings lns_err] in *.
        rewrite Htr, Hall, Hwarn, Herr, <- !app_assoc. repeat split; reflexivity.
Qed.

Lemma LabelNames_run (s : ProxyStore) (ctx : option CtxValue) (r : LabelNamesRequest) :
  let called := calledForLabels s ctx (ln_Start r) (ln_End r) in
  LabelNames clientLabelNames s ctx r =
  (match hd_error (flat_map (labelNamesErrorOf clientLabelNames s r) called) with
   | Some e => inr e
   | None =>
       inl {| ln_Names :=
                MergeUnsortedSlices (flat_map (labelNamesOf clientLabelNames s r) called);
              ln_Warnings := flat_map (labelNamesWarningsOf clientLabelNames s r) called |}
   end,
   called).
Proof.
  cbv zeta. unfold LabelNames.
  match goal with |- context [labelNamesFanout clientLabelNames s ctx r (stores s) ?i] =>
    destruct (labelNamesFanout_run s ctx r (stores s) i) as (Htr & Hall & Hwarn & Herr) end.
  cbv zeta in Htr, Hall, Hwarn, Herr. simpl in Htr, Hall, Hwarn, Herr.
  fold (calledForLabels s ctx (ln_Start r) (ln_End r)) in Htr, Hall, Hwarn, Herr.
  rewrite Htr, Hall, Hwarn, Herr.
  destruct (hd_error (flat_map (labelNamesErrorOf clientLabelNames s r) _)); reflexivity.
Qed.


End LabelNamesCalls.

End LabelCalls.

(** ** The failed-query cache *)

Section FailedQueryCacheProperties.
Context {deps : CacheCollaborators}.

Lemma isCacheableError_codes (statusCode : Z) :
  isCacheableError statusCode = true <->
  (statusCode = 408 \/ statusCode = 504 \/ statusCode = 400)%Z.
Proof.
  unfold isCacheableError, cacheableResponseCodes. cbn [isCacheableError_in].
  destruct (Z.eqb_spec 408 statusCode); [split; [lia | reflexivity]|].
  destruct (Z.eqb_spec 504 statusCode); [split; [lia | reflexivity]|].
  destruct (Z.eqb_spec 400 statusCode); [split; [lia | reflexivity]|].
  split; [discriminate | lia].
Qed.

(** A failure is cached exactly when a status code can be read from its text
    and is 408, 504 or 400; otherwise the cache is left as it was. *)
Theorem update_caches_only_cacheable_codes (err : error) (query : string) (range : Z)
    (cache : lruCache) :
  (fst (fst (updateFailedQueryCache err query range cache)) = true <->
   exists parts code,
     findStringSubmatch (ErrorText err) = Some parts
     /\ (2 <= length parts)%nat
     /\ Atoi (nth 1 parts "") = Some code
     /\ (code = 408 \/ code = 504 \/ code = 400)%Z)
  /\ (fst (fst (updateFailedQueryCache err query range cache)) = false ->
      snd (updateFailedQueryCache err query range cache) = cache).
Proof.
  unfold updateFailedQueryCache.
  destruct (findStringSubmatch (ErrorText err)) as [parts|] eqn:Hfind.
  2:{ simpl. split; [split; [discriminate | intros (p & c & H & _); discriminate] | reflexivity]. }
  destruct (Nat.ltb_spec (length parts) 2) as [Hshort | Hlong].
  { simpl. split; [|reflexivity]. split; [discriminate|].
    intros (p & c & H & Hlen & _). inversion H; subst. lia. }
  destruct (Atoi (nth 1 parts "")) as [code|] eqn:Hatoi.
  2:{ simpl. split; [|reflexivity]. split; [discriminate|].
      intros (p & c & H & _ & Ha & _). inversion H; subst. congruence. }
  destruct (isCacheableError code) eqn:Hcode; simpl negb; cbv iota.
  - destruct (lruContainsOrAdd cache query range) as [contains cache1].
    assert (Htrue : exists parts0 code0,
              Some parts = Some parts0 /\ (2 <= length parts0)%nat
              /\ Atoi (nth 1 parts0 "") = Some code0
              /\ (code0 = 408 \/ code0 = 504 \/ code0 = 400)%Z).
    { exists parts, code. repeat split; try assumption. apply isCacheableError_codes. exact Hcode. }
    destruct contains.
    + destruct (lruGet cache1 query) as [old cache2]. simpl.
      split; [split; [intros _; exact Htrue | reflexivity] | discriminate].
    + simpl. split; [split; [intros _; exact Htrue | reflexivity] | discriminate].
  - simpl. split; [|reflexivity]. split; [discriminate|].
    intros (p & c & H & _ & Ha & Hc). inversion H; subst.
    rewrite Hatoi in Ha. inversion Ha; subst.
    apply isCacheableError_codes in Hc. congruence.
Qed.

(** Over a cache that reads back what is added and adds exactly the absent
    keys: after a failure of a query has been cached, the cache holds for
    the query the least range that failed so far, and a later lookup of the
    query hits, and counts a hit, iff its range is at least that range; in
    particular every lookup with the range that just failed, or a longer
    one, hits. *)
Theorem cached_range_is_least_failing_range (err : error) (query : string) (range : Z)
    (cache : lruCache) :
  lruLaws ->
  fst (fst (updateFailedQueryCache err query range cache)) = true ->
  let cache' := snd (updateFailedQueryCache err query range cache) in
  let stored :=
    match fst (lruGet cache query) with
    | Some old => Z.min range old
    | None => range
    end in
  fst (lruGet cache' query) = Some stored
  /\ (stored <= range)%Z
  /\ forall m hits,
       fst (fst (fst (queryHitCache query m cache' hits))) = (stored <=? m)%Z
       /\ snd (queryHitCache query m cache' hits) = (if (stored <=? m)%Z then S hits else hits)
       /\ ((range <= m)%Z -> fst (fst (fst (queryHitCache query m cache' hits))) = true).
Proof.
  intros [Hread Hadd] Hok cache' stored.
  assert (Hstored : fst (lruGet cache' query) = Some stored).
  { unfold cache', stored. unfold updateFailedQueryCache in Hok |- *.
    destruct (findStringSubmatch (ErrorText err)) as [parts|]; [|discriminate].
    destruct (length parts <? 2)%nat; [discriminate|].
    destruct (Atoi (nth 1 parts "")) as [code|]; [|discriminate].
    destruct (negb (isCacheableError code)); [discriminate|].
    pose proof (Hadd cache query range) as Hlaw.
    destruct (fst (lruGet cache query)) as [old|] eqn:Hold.
    - rewrite Hlaw. destruct (lruGet cache query) as [old' cache2] eqn:Hget.
      simpl in Hold. subst old'. simpl. apply Hread.
    - rewrite Hlaw. simpl. apply Hread. }
  assert (Hle : (stored <= range)%Z).
  { unfold stored. destruct (fst (lruGet cache query)); lia. }
  split; [exact Hstored|]. split; [exact Hle|].
  intros m hits. unfold queryHitCache.
  destruct (lruGet cache' query) as [value cache1]. simpl in Hstored. subst value.
  destruct (Z.leb_spec stored m) as [Hhit | Hmiss]; simpl.
  - repeat split; reflexivity.
  - repeat split; try reflexivity. intros Hm. lia.
Qed.

End FailedQueryCacheProperties.

(** ** The further properties on the scenarios *)

Lemma unannounced_names_pass :
  labelSetsMatch (env := quietEnv) exampleMatchers [[("region", "eu")]; [("region", "us")]]
  = true.
Proof.
  apply (labelSetsMatch_unannounced_names (env := quietEnv)).
  intros m ls [<- | []] [<- | [<- | []]]; reflexivity.
Defined.

Lemma matchers_conjoin_regions :
  labelSetsMatch (env := quietEnv) [mkMatcher MatchEqual "region" "eu"] [[("region", "eu")]]
  = true
  /\ labelSetsMatch (env := quietEnv) exampleMatchers [[("region", "eu")]] = true.
Proof.
  apply (proj2 (labelSetsMatch_matchers_conjoin (env := quietEnv)
                  [mkMatcher MatchEqual "region" "eu"] exampleMatchers
                  [[("region", "eu")]] [("region", "eu")])).
  vm_compute. reflexivity.
Defined.

(** The conjunction does not extend to several label sets: each matcher may
    be satisfied by another label set. *)
Example matchers_across_label_sets :
  labelSetsMatch (env := quietEnv) [mkMatcher MatchEqual "region" "eu"]
    [[("region", "eu"); ("zone", "b")]; [("region", "us"); ("zone", "a")]] = true
  /\ labelSetsMatch (env := quietEnv) [mkMatcher MatchEqual "zone" "a"]
       [[("region", "eu"); ("zone", "b")]; [("region", "us"); ("zone", "a")]] = true
  /\ labelSetsMatch (env := quietEnv)
       [mkMatcher MatchEqual "region" "eu"; mkMatcher MatchEqual "zone" "a"]
       [[("region", "eu"); ("zone", "b")]; [("region", "us"); ("zone", "a")]] = false.
Proof. vm_compute. repeat split; reflexivity. Qed.

Lemma fresh_store_not_queried :
  storeMatches (env := quietEnv) None freshStore 0 100 exampleMatchers = false.
Proof.
  apply (storeMatches_uninitialized (env := quietEnv) None freshStore 0 100 exampleMatchers).
  - reflexivity.
  - vm_compute. reflexivity.
Defined.

Lemma more_groups_keep_store1 :
  storeMatchDebugMetadata (env := quietEnv) store1
    (addressGroups ++ [[mkMatcher MatchEqual "__address__" "10.0.0.2:9090"]]) = true
  /\ storeMatchDebugMetadata (env := quietEnv) store1
       ([[mkMatcher MatchEqual "__address__" "10.0.0.2:9090"]] ++ addressGroups) = true.
Proof.
  apply (storeMatchDebugMetadata_more_groups (env := quietEnv) store1 addressGroups
           [[mkMatcher MatchEqual "__address__" "10.0.0.2:9090"]]).
  - discriminate.
  - vm_compute. reflexivity.
Defined.

Lemma S6b_queries_a_prefix :
  exists post,
    List.filter (survives (env := s6bEnv) s6bProxy None
                   (exampleRequest PartialResponseStrategy_GROUP_REPLICA false) exampleMatchers)
                (stores s6bProxy)
    = contacted (snd (Series (env := s6bEnv) s6bProxy None
                        (exampleRequest PartialResponseStrategy_GROUP_REPLICA false))) ++ post
    /\ (fst (Series (env := s6bEnv) s6bProxy None
               (exampleRequest PartialResponseStrategy_GROUP_REPLICA false)) = None ->
        post = []).
Proof.
  apply (Series_queries_survivors_in_order (env := s6bEnv) s6bProxy None
           (exampleRequest PartialResponseStrategy_GROUP_REPLICA false) exampleMatchers).
  - vm_compute. reflexivity.
  - discriminate.
Defined.

Lemma S6_abort_policy_output :
  sentResponses (snd (Series (env := s6Env) s6Proxy None
                        (exampleRequest PartialResponseStrategy_ABORT false)))
  = openWarnings (env := s6Env)
      (subRequestOf (env := s6Env) s6Proxy None
         (exampleRequest PartialResponseStrategy_ABORT false) exampleMatchers)
      (survivorsOf (env := s6Env) s6Proxy None
         (exampleRequest PartialResponseStrategy_ABORT false) exampleMatchers)
    ++ mergedResponses (Collaborators := s6Env)
         (openedSets (env := s6Env)
            (subRequestOf (env := s6Env) s6Proxy None
               (exampleRequest PartialResponseStrategy_ABORT false) exampleMatchers)
            (survivorsOf (env := s6Env) s6Proxy None
               (exampleRequest PartialResponseStrategy_ABORT false) exampleMatchers)).
Proof.
  apply (proj1 (Series_success_forwards_whole_stream (env := s6Env) s6Proxy None
                  (exampleRequest PartialResponseStrategy_ABORT false) exampleMatchers
                  ltac:(vm_compute; reflexivity) ltac:(discriminate)
                  ltac:(vm_compute; discriminate) ltac:(vm_compute; reflexivity))).
  reflexivity.
Defined.

Lemma S6_abort_policy_closes :
  exists body,
    snd (Series (env := s6Env) s6Proxy None (exampleRequest PartialResponseStrategy_ABORT true))
    = body ++ map (EvClose (env := s6Env))
                (closed (snd (Series (env := s6Env) s6Proxy None
                                (exampleRequest PartialResponseStrategy_ABORT true))))
    /\ closed body = []
    /\ closed (snd (Series (env := s6Env) s6Proxy None
                      (exampleRequest PartialResponseStrategy_ABORT true)))
       = rev (openedSets (env := s6Env)
                (subRequestOf (env := s6Env) s6Proxy None
                   (exampleRequest PartialResponseStrategy_ABORT true) exampleMatchers)
                (contacted (snd (Series (env := s6Env) s6Proxy None
                                   (exampleRequest PartialResponseStrategy_ABORT true))))).
Proof.
  apply (Series_closes_what_it_opened (env := s6Env) s6Proxy None
           (exampleRequest PartialResponseStrategy_ABORT true) exampleMatchers).
  - vm_compute. reflexivity.
  - discriminate.
  - reflexivity.
Defined.

Lemma S6_group_replica_closes :
  closed (snd (Series (env := s6Env) s6Proxy None
                 (exampleRequest PartialResponseStrategy_GROUP_REPLICA false)))
  = rev (map (fun c => fst (newAsyncRespSet (Collaborators := s6Env) c
                              (subRequestOf (env := s6Env) s6Proxy None
                                 (exampleRequest PartialResponseStrategy_GROUP_REPLICA false)
                                 exampleMatchers)))
           (survivorsOf (env := s6Env) s6Proxy None
              (exampleRequest PartialResponseStrategy_GROUP_REPLICA false) exampleMatchers))
  /\ contacted (snd (Series (env := s6Env) s6Proxy None
                       (exampleRequest PartialResponseStrategy_GROUP_REPLICA false)))
     = survivorsOf (env := s6Env) s6Proxy None
         (exampleRequest PartialResponseStrategy_GROUP_REPLICA false) exampleMatchers.
Proof.
  apply (Series_group_replica_closes_every_set (env := s6Env) s6Proxy None
           (exampleRequest PartialResponseStrategy_GROUP_REPLICA false) exampleMatchers).
  - vm_compute. reflexivity.
  - discriminate.
  - vm_compute. discriminate.
  - reflexivity.
  - vm_compute. reflexivity.
Defined.

Lemma S6_warn_policy_succeeds :
  fst (Series (env := s6Env) s6Proxy None (exampleRequest PartialResponseStrategy_WARN false))
  = None.
Proof.
  apply (Series_warn_policy_never_fails (env := s6Env) s6Proxy None
           (exampleRequest PartialResponseStrategy_WARN false) exampleMatchers).
  - vm_compute. reflexivity.
  - discriminate.
  - vm_compute. discriminate.
  - reflexivity.
  - reflexivity.
  - intros sent resp. reflexivity.
Defined.

Lemma S6b_error_is_an_open_error :
  (exists d, GoError "fetch series for h-0b" = StatusError InvalidArgument d)
  \/ (exists c r, In c (stores s6bProxy)
                  /\ openError (env := s6bEnv) r c = Some (GoError "fetch series for h-0b"))
  \/ (exists sent resp,
        srvSend (Collaborators := s6bEnv) sent resp = Some (GoError "fetch series for h-0b"))
  \/ (exists d, GoError "fetch series for h-0b" = StatusError Aborted d)
  \/ (exists d, GoError "fetch series for h-0b" = StatusError Unknown d).
Proof.
  apply (Series_error_origin (env := s6bEnv) s6bProxy None
           (exampleRequest PartialResponseStrategy_GROUP_REPLICA false)).
  vm_compute. reflexivity.
Defined.

Lemma one_streamed_warning_within_budget :
  List.filter isWarning
    (mergedResponses (Collaborators := warningEnv)
       (map (fun c => fst (newAsyncRespSet (Collaborators := warningEnv) c
                             (subRequestOf (env := warningEnv) (proxyOver [g0] []) None
                                (exampleRequest PartialResponseStrategy_GROUP_REPLICA false)
                                exampleMatchers)))
          (survivorsOf (env := warningEnv) (proxyOver [g0] []) None
             (exampleRequest PartialResponseStrategy_GROUP_REPLICA false) exampleMatchers)))
  = []
  \/ (List.filter
        (failsToOpen (env := warningEnv)
           (subRequestOf (env := warningEnv) (proxyOver [g0] []) None
              (exampleRequest PartialResponseStrategy_GROUP_REPLICA false) exampleMatchers))
        (survivorsOf (env := warningEnv) (proxyOver [g0] []) None
           (exampleRequest PartialResponseStrategy_GROUP_REPLICA false) exampleMatchers)
      = []
      /\ length
           (List.filter isWarning
              (mergedResponses (Collaborators := warningEnv)
                 (map (fun c => fst (newAsyncRespSet (Collaborators := warningEnv) c
                                       (subRequestOf (env := warningEnv) (proxyOver [g0] []) None
                                          (exampleRequest PartialResponseStrategy_GROUP_REPLICA
                                             false) exampleMatchers)))
                    (survivorsOf (env := warningEnv) (proxyOver [g0] []) None
                       (exampleRequest PartialResponseStrategy_GROUP_REPLICA false)
                       exampleMatchers))))
         = 1%nat).
Proof.
  apply (Series_group_replica_budget (env := warningEnv) (proxyOver [g0] []) None
           (exampleRequest PartialResponseStrategy_GROUP_REPLICA false) exampleMatchers).
  - vm_compute. reflexivity.
  - discriminate.
  - vm_compute. discriminate.
  - reflexivity.
  - vm_compute. reflexivity.
Defined.

Lemma abort_after_one_series :
  fst (mergeLoop (env := quietEnv) (exampleRequest PartialResponseStrategy_ABORT true)
         ([RespSeries [("a", "1")] "x"] ++ RespWarning "store timeout"
          :: [RespSeries [("a", "2")] "y"]) initialFanout)
  = Some (StatusError Aborted (GetWarning (RespWarning "store timeout")))
  /\ sentResponses
       (trace (snd (mergeLoop (env := quietEnv)
                      (exampleRequest PartialResponseStrategy_ABORT true)
                      ([RespSeries [("a", "1")] "x"] ++ RespWarning "store timeout"
                       :: [RespSeries [("a", "2")] "y"]) initialFanout)))
     = sentResponses (trace (env := quietEnv) initialFanout) ++ [RespSeries [("a", "1")] "x"].
Proof.
  apply (stream_aborts_at_first_warning (env := quietEnv)
           (exampleRequest PartialResponseStrategy_ABORT true)
           [RespSeries [("a", "1")] "x"] (RespWarning "store timeout")
           [RespSeries [("a", "2")] "y"] initialFanout).
  - reflexivity.
  - left. reflexivity.
  - intros x [<- | []]. reflexivity.
  - reflexivity.
  - intros sent x. reflexivity.
Defined.

Lemma TimeRange_of_old_store :
  isMinOf (fst (ProxyStore_TimeRange (proxyOver [oldStore; store1] [])))
    (minTimes (proxyOver [oldStore; store1] []))
  /\ isMaxOf (snd (ProxyStore_TimeRange (proxyOver [oldStore; store1] [])))
       (maxTimes (proxyOver [oldStore; store1] [])).
Proof.
  apply (proj2 (ProxyStore_TimeRange_spans (proxyOver [oldStore; store1] []))).
  - discriminate.
  - intros st [<- | [<- | []]]; vm_compute; split; discriminate.
Defined.

Lemma Info_range_of_old_store :
  info_MinTime (Info (env := quietEnv) (proxyOver [oldStore] []))
  = fst (ProxyStore_TimeRange (proxyOver [oldStore] []))
  /\ info_MaxTime (Info (env := quietEnv) (proxyOver [oldStore] []))
     = Z.max 0 (snd (ProxyStore_TimeRange (proxyOver [oldStore] []))).
Proof.
  apply (proj1 (Info_range_against_TimeRange (env := quietEnv) (proxyOver [oldStore] []))).
  discriminate.
Defined.

Lemma LabelSet_of_regions : LabelSet (env := quietEnv) regionProxy <> [].
Proof.
  apply (proj2 (proj2 (proj2 (proj2 (LabelSet_announcements (env := quietEnv) regionProxy))))).
  - discriminate.
  - discriminate.
Defined.


Example LabelValues_warning_text :
  fst (LabelValues (env := labelEnv valuesAnswers) s6Proxy None (valuesRequest false))
  = inl {| lv_Values := ["g-1"; "h-0"];
           lv_Warnings :=
             ["fetch label values from store g-0: fetch label values from store g-0: unavailable"]
        |}.
Proof. vm_compute. reflexivity. Qed.

Lemma LabelValues_strict_with_one_backend_down :
  exists e,
    fst (LabelValues (env := labelEnv valuesAnswers) s6Proxy None (valuesRequest true)) = inr e.
Proof.
  apply (proj2 (proj1 (proj2 (LabelValues_strict (env := labelEnv valuesAnswers) s6Proxy None
                                (valuesRequest true) ltac:(discriminate) eq_refl)))).
  exists g0, (GoError "unavailable"). split; [left; reflexivity | reflexivity].
Defined.


Lemma gateway_timeout_is_cached :
  fst (fst (updateFailedQueryCache (deps := exampleCache) gatewayTimeout "up" 600 ∅)) = true.
Proof.
  apply (proj1 (update_caches_only_cacheable_codes (deps := exampleCache)
                  gatewayTimeout "up" 600 ∅)).
  exists ["Code(504)"; "504"], 504%Z. repeat split.
  - simpl. lia.
  - right. left. reflexivity.
Defined.

Lemma cached_gateway_timeout_hits :
  fst (lruGet (CacheCollaborators := exampleCache)
         (snd (updateFailedQueryCache (deps := exampleCache) gatewayTimeout "up" 600
                 ({["up" := 3600%Z]} : gmap string Z))) "up") = Some 600%Z.
Proof.
  assert (Hlaws : lruLaws (deps := exampleCache)).
  { split.
    - intros c k v. simpl. apply lookup_insert_eq.
    - intros c k v. cbn.
      match goal with |- match ?x with _ => _ end => destruct x end; reflexivity. }
  refine (proj1 (cached_range_is_least_failing_range (deps := exampleCache) gatewayTimeout
                   "up" 600 ({["up" := 3600%Z]} : gmap string Z) Hlaws _)).
  vm_compute. reflexivity.
Defined.

Example internal_error_is_not_cached :
  updateFailedQueryCache (deps := exampleCache) (GoError "Code(500)") "up" 600 ∅
  = ((false,
      "msg: Query not cached due to non-cacheable error code, cached_query: up, query_range_seconds: 600, cached_error: Code(500)"),
     ∅).
Proof. vm_compute. reflexivity. Qed.
